(** * LISFLOOD channel routing: a shallow embedding of [routing.py]

    This development embeds the channel-routing core of the LISFLOOD
    hydrological model (module [lisflood/hydrological_modules/routing.py]):
    the kinematic-wave wrapper [KINRouting], the two-line [SplitRouting], the
    Muskingum-Cunge-Todini pixel update [MCTRouting_single] with its depth
    solver [hoq] / [qoh], the pixel loop [MCTRoutingLoop], the MCT pixel
    compress/explode pair [get_mct_pix] / [put_mct_pix] and the routing-order
    builder [mctWave._setMCTRoutingOrders].

    Conventions.
    - numpy [float64] values are modelled by the real numbers [R]; [nan] and
      [inf] have no counterpart, so every statement below is about runs in
      which all intermediate values are finite numbers.  Division is Rocq's
      total division on [R].
    - a numpy array over the compressed pixel mask is a [list R] (a boolean
      array a [list bool]); all maps of one run are compressed over the same
      mask and share one length, on which [zip_with] is numpy's elementwise
      operator.
    - Python code that can raise (indexing, shape checks of masked arrays)
      returns [option].
    - methods of collaborators that live outside this module (the compiled
      kinematic-wave solver, PCRaster's [upstream]) are fields of type
      classes. *)

From Stdlib Require Import Reals Lra Lia ZArith.
From stdpp Require Import base list option sorting list_numbers.

Open Scope R_scope.

(** ** numpy scalar primitives on [R] *)

Definition Rltb (x y : R) : bool := if Rlt_dec x y then true else false.
Definition Rgtb (x y : R) : bool := if Rgt_dec x y then true else false.
Definition Reqb (x y : R) : bool := if Req_dec_T x y then true else false.

(** [x ** y] on floats:
    - [x ** 0 = 1];
    - [0 ** y = 0] for [y > 0] (numpy yields [inf] for [y < 0]);
    - [exp (y * ln x)] for [x > 0];
    - for [x < 0] and an exponent that is a whole number, the signed value
      [(-1) ** y * (-x) ** y], so that [(-1) ** 1.0 = -1];
    - for [x < 0] and a fractional exponent numpy yields [nan], which has no
      counterpart in [R]: 0 stands in, and [npow_finite] excludes the case
      wherever a statement depends on the value. *)
Definition npow (x y : R) : R :=
  if Req_dec_T y 0 then 1
  else if Req_dec_T x 0 then 0
  else if Rlt_dec 0 x then Rpower x y
  else if Req_dec_T (frac_part y) 0
       then (if Z.even (Int_part y) then 1 else -1) * Rpower (- x) y
       else 0.

(** The arguments on which [x ** y] is a finite number. *)
Definition npow_finite (x y : R) : Prop :=
  0 < x \/ (x = 0 /\ 0 <= y) \/ (x < 0 /\ frac_part y = 0).

(** [routing.cotan] *)
Definition cotan (x : R) : R := cos x / sin x.

(** ** Elementwise array operators *)

Definition vadd : list R -> list R -> list R := zip_with Rplus.
Definition vsub : list R -> list R -> list R := zip_with Rminus.
Definition vmul : list R -> list R -> list R := zip_with Rmult.
Definition vdiv : list R -> list R -> list R := zip_with Rdiv.
Definition vpow : list R -> list R -> list R := zip_with npow.
(** [s / a], [a * s] for a scalar [s] *)
Definition sdiv (s : R) (a : list R) : list R := (fun x => s / x) <$> a.
Definition vscale (a : list R) (s : R) : list R := (fun x => x * s) <$> a.
(** [np.maximum(a, s)], [np.abs(a)] *)
Definition np_maximum (a : list R) (s : R) : list R := (fun x => Rmax x s) <$> a.
Definition np_abs (a : list R) : list R := Rabs <$> a.
(** comparisons: [a > b], [a > s], [a < s], [a == s] *)
Definition vgt : list R -> list R -> list bool := zip_with Rgtb.
Definition vgt_s (a : list R) (s : R) : list bool := (fun x => Rgtb x s) <$> a.
Definition vlt_s (a : list R) (s : R) : list bool := (fun x => Rltb x s) <$> a.
Definition veq_s (a : list R) (s : R) : list bool := (fun x => Reqb x s) <$> a.
(** [np.where(c, a, b)] and [np.where(c, a, s)] *)
Definition np_where (c : list bool) (a b : list R) : list R :=
  zip_with (fun (ci : bool) (ab : R * R) => if ci then ab.1 else ab.2) c (zip a b).
Definition np_where_s (c : list bool) (a : list R) (s : R) : list R :=
  zip_with (fun (ci : bool) (x : R) => if ci then x else s) c a.

Declare Scope arr_scope.
Delimit Scope arr_scope with arr.
Infix ".+" := vadd (at level 50, left associativity) : arr_scope.
Infix ".-" := vsub (at level 50, left associativity) : arr_scope.
Infix ".*" := vmul (at level 40, left associativity) : arr_scope.
Infix "./" := vdiv (at level 40, left associativity) : arr_scope.
Infix ".^" := vpow (at level 30, right associativity) : arr_scope.

(** ** MCT pixel compression ([get_mct_pix], [put_mct_pix]) *)

(** Number of unmasked (MCT) pixels of the mask [IsChannelKinematic]. *)
Definition count_mct (mask : list bool) : nat := length (filter (fun b => negb b) mask).

(** [np.ma.masked_where(mask, var).compressed()]: the unmasked entries, in
    order. *)
Fixpoint compressed (mask : list bool) (var : list R) : list R :=
  match mask, var with
  | m :: mask', x :: var' =>
      if m then compressed mask' var' else x :: compressed mask' var'
  | _, _ => []
  end.

(** [masked_where] raises [IndexError] when condition and data differ in
    shape. *)
Definition get_mct_pix (IsChannelKinematic : list bool) (var : list R) : option (list R) :=
  if decide (length IsChannelKinematic = length var)
  then Some (compressed IsChannelKinematic var)
  else None.

(** [x = masked zeros; x[~x.mask] = var; x.data]: the entries of [var] are
    written, in order, to the unmasked positions of an array of zeros. *)
Fixpoint explode (mask : list bool) (var : list R) : list R :=
  match mask with
  | [] => []
  | true :: mask' => 0 :: explode mask' var
  | false :: mask' =>
      match var with
      | x :: var' => x :: explode mask' var'
      | [] => 0 :: explode mask' []
      end
  end.

(** The boolean-index assignment needs [var] to broadcast to the number of
    unmasked positions: same length, or length one (the single value is
    repeated); any other shape raises [ValueError]. *)
Definition put_mct_pix (IsChannelKinematic : list bool) (var : list R) : option (list R) :=
  let k := count_mct IsChannelKinematic in
  if decide (length var = k) then Some (explode IsChannelKinematic var)
  else match var with
       | [x] => Some (explode IsChannelKinematic (replicate k x))
       | _ => None
       end.

(** ** Depth/discharge relations of a channel cross-section *)

(** [routing.qoh]: discharge [q], wet area [a], surface width [b], wet contour
    [p] and celerity [cel] from the water depth [y]. *)
Definition qoh (y s0 Balv ANalv Nalv : R) : R * R * R * R * R :=
  let alpha := 5 / 3 in
  let rs0 := sqrt s0 in
  let alpham := alpha - 1 in
  let c := if Rlt_dec ANalv (PI / 2) then cotan ANalv else 0 in
  let s := if Rlt_dec ANalv (PI / 2) then sin ANalv else 1 in
  let a := (Balv + y * c) * y in
  let b := Balv + 2 * y * c in
  let p := Balv + 2 * y / s in
  let q := rs0 / Nalv * npow a alpha / npow p alpham in
  let cel := (q / 3) * (5 / a - 4 / (p * b * s)) in
  (q, a, b, p, cel).

Definition max_tries : nat := 1000.
Definition hoq_eps : R := 1e-6.

(** Outcome of the Newton-Raphson loop of [hoq]: the depth iterate, the last
    correction [dy], the number of loop bodies executed and whether the loop
    left through [break]. *)
Record newton := { depth : R; correction : R; iterations : nat; converged : bool }.

(** One body of [for tries in range(1, max_tries)]: the correction [dy] and
    the updated depth. *)
Definition hoq_step (q s0 Balv ANalv Nalv y : R) : R * R :=
  let '(q0, Ax, Bx, Px, cel) := qoh y s0 Balv ANalv Nalv in
  let fy := q0 - q in
  let dfy := Bx * cel in
  let dy := fy / dfy in
  (dy, y - dy).

(** The loop over [tries], entered with depth [y] after [n] bodies, the last
    of which computed the correction [dy]. *)
Fixpoint hoq_loop (tries : list nat) (q s0 Balv ANalv Nalv y dy : R) (n : nat) : newton :=
  match tries with
  | [] => {| depth := y; correction := dy; iterations := n; converged := false |}
  | _ :: rest =>
      let '(dy, y') := hoq_step q s0 Balv ANalv Nalv y in
      if Rlt_dec (Rabs dy) hoq_eps
      then {| depth := y'; correction := dy; iterations := S n; converged := true |}
      else hoq_loop rest q s0 Balv ANalv Nalv y' dy (S n)
  end.

(** First approximation of the depth, by cross-section family. *)
Definition hoq_guess (q s0 Balv ANalv Nalv : R) : R :=
  let alpha := 5 / 3 in
  let rs0 := sqrt s0 in
  let usalpha := 1 / alpha in
  let c := if Rlt_dec ANalv (PI / 2) then cotan ANalv else 0 in
  let s := if Rlt_dec ANalv (PI / 2) then sin ANalv else 1 in
  let y :=
    if Req_dec_T Balv 0
    then npow (Nalv * q / rs0) (3 / 8) * npow (2 / s) 0.25 / npow c (5 / 8)
    else npow (Nalv * q / (rs0 * Balv)) usalpha in
  if negb (Reqb Balv 0) && Rltb ANalv (PI / 2)
  then npow (Nalv * q / rs0) usalpha * npow (Balv + 2 * y / s) 0.4 / (Balv + c * y)
  else y.

(** [range(1, max_tries)] *)
Definition hoq_tries : list nat := seq 1 (max_tries - 1).

Definition hoq_run (q s0 Balv ANalv Nalv : R) : newton :=
  hoq_loop hoq_tries q s0 Balv ANalv Nalv (hoq_guess q s0 Balv ANalv Nalv) 0 0.

(** [routing.hoq]: water depth from discharge. *)
Definition hoq (q s0 Balv ANalv Nalv : R) : R := depth (hoq_run q s0 Balv ANalv Nalv).

(** ** Muskingum-Cunge-Todini update of one pixel *)

Definition mct_eps : R := 1e-06.

(** Local variables at the end of one body of [for i in range(2)] in
    [MCTRouting_single].  [q11_raw] is the Muskingum update before the check
    for a negative value. *)
Record mct_pass := {
  qmx0 : R; hmx0 : R;
  qmx1 : R; hmx1 : R;
  sfx : R;
  qm1 : R; hm1 : R;
  ck1 : R;
  Dm1 : R; Cm1 : R;
  q11_raw : R;
  q11 : R
}.

(** One refinement pass, started from the current outflow estimate [q11]. *)
Definition mct_refine (q10 q01 q00 ql Cm0 Dm0 dt xpix s0 Balv ANalv Nalv : R)
    (q11 : R) : mct_pass :=
  let eps := mct_eps in
  (* reference I discharge at x=0 *)
  let qmx0 := (q00 + q01) / 2 in
  let qmx0 := if Req_dec_T qmx0 0 then eps else qmx0 in
  let hmx0 := hoq qmx0 s0 Balv ANalv Nalv in
  (* reference O discharge at x=1 *)
  let qmx1 := (q10 + q11) / 2 in
  let qmx1 := if Req_dec_T qmx1 0 then eps else qmx1 in
  let hmx1 := hoq qmx1 s0 Balv ANalv Nalv in
  (* riverbed slope correction factor *)
  let cor := 1 - (1 / s0 * (hmx1 - hmx0) / xpix) in
  let sfx := s0 * cor in
  let sfx := if Rlt_dec sfx (0.8 * s0) then 0.8 * s0 else sfx in
  (* reference discharge at time t+dt *)
  let qm1 := (q01 + q11) / 2 in
  let qm1 := if Req_dec_T qm1 0 then eps else qm1 in
  let hm1 := hoq qm1 s0 Balv ANalv Nalv in
  let '(dummy, Ax1, Bx1, Px1, ck1) := qoh hm1 s0 Balv ANalv Nalv in
  let ck1 := if Rle_dec ck1 eps then eps else ck1 in
  (* correcting factor, cell Reynolds number and Courant number at t+dt *)
  let Beta1 := ck1 / (qm1 / Ax1) in
  let Dm1 := qm1 / (sfx * ck1 * Bx1 * xpix) / Beta1 in
  let Cm1 := ck1 * dt / xpix / Beta1 in
  (* MCT parameters *)
  let den := 1 + Cm1 + Dm1 in
  let c1 := (-1 + Cm1 + Dm1) / den in
  let c2 := (1 + Cm0 - Dm0) / den * (Cm1 / Cm0) in
  let c3 := (1 - Cm0 + Dm0) / den * (Cm1 / Cm0) in
  let c4 := (2 * Cm1) / den in
  (* outflow at t+dt, with the lateral flow *)
  let q11_raw := c1 * q01 + c2 * q00 + c3 * q10 + c4 * ql in
  let q11 := if Rlt_dec q11_raw 0 then eps else q11_raw in
  {| qmx0 := qmx0; hmx0 := hmx0; qmx1 := qmx1; hmx1 := hmx1; sfx := sfx;
     qm1 := qm1; hm1 := hm1; ck1 := ck1; Dm1 := Dm1; Cm1 := Cm1;
     q11_raw := q11_raw; q11 := q11 |}.

(** First guess [O'(t+dt) = O(t) + (I(t+dt) - I(t))], not below zero. *)
Definition mct_first_guess (q10 q01 q00 : R) : R :=
  let q11 := q10 + (q01 - q00) in
  if Rlt_dec q11 0 then 0 else q11.

(** The passes of [for i in range(2)], in execution order. *)
Definition mct_passes (q10 q01 q00 ql Cm0 Dm0 dt xpix s0 Balv ANalv Nalv : R)
  : mct_pass * mct_pass :=
  let refine := mct_refine q10 q01 q00 ql Cm0 Dm0 dt xpix s0 Balv ANalv Nalv in
  let p0 := refine (mct_first_guess q10 q01 q00) in
  let p1 := refine (q11 p0) in
  (p0, p1).

(** [routing.MCTRouting_single]: returns [(q11, V11, Cm1, Dm1)]. *)
Definition MCTRouting_single (q10 q01 q00 ql Cm0 Dm0 dt xpix s0 Balv ANalv Nalv : R)
  : R * R * R * R :=
  let p := (mct_passes q10 q01 q00 ql Cm0 Dm0 dt xpix s0 Balv ANalv Nalv).2 in
  let q11 := q11 p in
  let Cm1 := Cm1 p in
  let Dm1 := Dm1 p in
  let k1 := dt / Cm1 in
  let x1 := (1 - Dm1) / 2 in
  let V11 := (1 - Dm1) * dt / (2 * Cm1) * q01 + (1 + Dm1) * dt / (2 * Cm1) * q11 in
  let V11 := if Rlt_dec V11 0 then 0 else V11 in
  (q11, V11, Cm1, Dm1).

(** ** Collaborators *)

(** The routing line handed to the kinematic-wave solver. *)
Inductive section_name := main_channel | floodplains.

(** [self.river_router.kinematicWaveRouting(discharge, sideflow, section)] of
    module [kinematic_wave_parallel]: it overwrites [discharge] (outflow at
    time t) with the outflow at time t+dt; here it returns the new array. *)
Class KinematicWave := {
  kinematicWaveRouting : list R -> list R -> section_name -> list R
}.

(** [compressArray(upstream(self.var.LddChan, decompress(a)))]: for each pixel
    the sum of [a] over its upstream neighbours (PCRaster). *)
Class Pcraster := {
  upstream_LddChan : list R -> list R
}.

(** ** Model state *)

(** Maps fixed by [initial] / [initialSecond] / [initialMCT]. *)
Record Maps := {
  Beta : list R;
  ChanLength : list R;
  ChannelAlpha : list R;
  ChannelAlpha2 : list R;
  QLimit : list R;
  Chan2QStart : list R;
  IsChannel : list bool;
  IsChannelMCT : list bool;
  ChanGrad : list R;
  ChanBottomWidth : list R;
  ChanSdXdY : list R;
  ChanMan : list R;
  DtSecChannel : R;
  InvDtRouting : R
}.

(** [self.var.InvBeta = 1 / self.var.Beta] and the other inverses kept for
    speed. *)
Definition InvBeta (m : Maps) : list R := sdiv 1 (Beta m).
Definition InvChanLength (m : Maps) : list R := sdiv 1 (ChanLength m).
Definition InvChannelAlpha (m : Maps) : list R := sdiv 1 (ChannelAlpha m).
Definition InvChannelAlpha2 (m : Maps) : list R := sdiv 1 (ChannelAlpha2 m).

(** Bankfull volume at which over-bankfull discharge starts, and the same
    volume computed with the increased Manning coefficient. *)
Definition M3Limit (m : Maps) : list R :=
  (ChannelAlpha m .* ChanLength m .* QLimit m .^ Beta m)%arr.
Definition Chan2M3Start (m : Maps) : list R :=
  (ChannelAlpha2 m .* ChanLength m .* QLimit m .^ Beta m)%arr.

(** The part of [self.var] that the routing sub-step reads and writes. *)
Record Var := {
  ChanQKin : list R;
  ChanM3Kin : list R;
  Chan2QKin : list R;
  Chan2M3Kin : list R;
  Sideflow1Chan : list R;
  CrossSection2Area : list R;
  ChanQ : list R;
  ChanM3 : list R;
  sumDisDay : list R;
  IsChannelKinematic : list bool;
  PrevQMCTin : list R;
  PrevCm0 : list R;
  PrevDm0 : list R;
  prevDm0 : option (list R)
}.

Record Options := {
  InitLisflood : bool;
  SplitRoutingOpt : bool;
  MCTRoutingOpt : bool
}.

(** ** Kinematic wave routing *)

Section Kinematic.
Context `{KinematicWave}.

(** [routing.KINRouting]: returns [(ChanQKin, ChanM3Kin)].  The NaN scrub of
    [SideflowChan] is the identity on real-valued arrays. *)
Definition KINRouting (m : Maps) (ChanQKin SideflowChan : list R) : list R * list R :=
  let ChanQKin := kinematicWaveRouting ChanQKin SideflowChan main_channel in
  let ChanM3Kin := (ChanLength m .* ChannelAlpha m .* ChanQKin .^ Beta m)%arr in
  let ChanM3Kin := np_maximum ChanM3Kin 0 in
  let ChanQKin := ((ChanM3Kin .* InvChanLength m .* InvChannelAlpha m) .^ InvBeta m)%arr in
  (ChanQKin, ChanM3Kin).

(** Sideflow to the main channel, as computed at the head of [SplitRouting]. *)
Definition split_sideflow1 (m : Maps) (v : Var) (SideflowChan : list R) : list R :=
  let SideflowRatio :=
    np_where_s (vgt_s (ChanM3Kin v .+ Chan2M3Kin v)%arr 0)
               (ChanM3Kin v ./ (ChanM3Kin v .+ Chan2M3Kin v))%arr 0 in
  let Sideflow1Chan :=
    np_where (vgt (ChanM3Kin v .+ Chan2M3Kin v .- Chan2M3Start m)%arr (M3Limit m))
             (SideflowRatio .* SideflowChan)%arr SideflowChan in
  np_where (vlt_s (np_abs SideflowChan) 1e-7) SideflowChan Sideflow1Chan.

(** Sideflow to the 'floodplains' channel: the rest of the lateral inflow plus
    the constant [Chan2QStart / ChanLength]. *)
Definition split_sideflow2 (m : Maps) (SideflowChan Sideflow1Chan : list R) : list R :=
  let Sideflow2Chan := (SideflowChan .- Sideflow1Chan)%arr in
  (Sideflow2Chan .+ Chan2QStart m .* InvChanLength m)%arr.

(** [routing.SplitRouting] *)
Definition SplitRouting (m : Maps) (v : Var) (SideflowChan : list R) : Var :=
  let Sideflow1Chan := split_sideflow1 m v SideflowChan in
  let Sideflow2Chan := split_sideflow2 m SideflowChan Sideflow1Chan in
  (* main channel routing *)
  let ChanQKin := kinematicWaveRouting (ChanQKin v) Sideflow1Chan main_channel in
  let ChanM3Kin := (ChanLength m .* ChannelAlpha m .* ChanQKin .^ Beta m)%arr in
  let ChanM3Kin := np_maximum ChanM3Kin 0 in
  let ChanQKin := ((ChanM3Kin .* InvChanLength m .* InvChannelAlpha m) .^ InvBeta m)%arr in
  (* floodplains channel routing (increased Manning coefficient) *)
  let Chan2QKin := kinematicWaveRouting (Chan2QKin v) Sideflow2Chan floodplains in
  let Chan2M3Kin := (ChanLength m .* ChannelAlpha2 m .* Chan2QKin .^ Beta m)%arr in
  let diffM3 := (Chan2M3Kin .- Chan2M3Start m)%arr in
  let Chan2M3Kin := np_where (vlt_s diffM3 0) (Chan2M3Start m) Chan2M3Kin in
  let CrossSection2Area := ((Chan2M3Kin .- Chan2M3Start m) .* InvChanLength m)%arr in
  let Chan2QKin := ((Chan2M3Kin .* InvChanLength m .* InvChannelAlpha2 m) .^ InvBeta m)%arr in
  {| ChanQKin := ChanQKin; ChanM3Kin := ChanM3Kin;
     Chan2QKin := Chan2QKin; Chan2M3Kin := Chan2M3Kin;
     Sideflow1Chan := Sideflow1Chan; CrossSection2Area := CrossSection2Area;
     ChanQ := ChanQ v; ChanM3 := ChanM3 v; sumDisDay := sumDisDay v;
     IsChannelKinematic := IsChannelKinematic v;
     PrevQMCTin := PrevQMCTin v; PrevCm0 := PrevCm0 v; PrevDm0 := PrevDm0 v;
     prevDm0 := prevDm0 v |}.

End Kinematic.

(** ** MCT pixel loop *)

(** [mctWave]: routing orders as rows [(first, last)] of index ranges into
    [pixels_ordered]. *)
Record MctWave := {
  order_start_stop : list (nat * nat);
  pixels_ordered : list nat
}.

(** [a[i] = x]; an index past the end raises [IndexError]. *)
Definition setitem (a : list R) (i : nat) (x : R) : option (list R) :=
  if decide (i < length a)%nat then Some (<[i := x]> a) else None.

Fixpoint foldM {A S : Type} (f : S -> A -> option S) (s : S) (l : list A) : option S :=
  match l with
  | [] => Some s
  | a :: l' => s' ← f s a; foldM f s' l'
  end.

(** Channel geometry and boundary values of the MCT pixels, fixed during one
    call of [MCTRoutingLoop]. *)
Record MctInputs := {
  i_xpix : list R; i_s0 : list R; i_Balv : list R; i_ANalv : list R; i_Nalv : list R;
  i_dt : R;
  i_q00 : list R; i_q10 : list R; i_ql : list R
}.

(** Arrays rewritten by the pixel loop. *)
Record MctLoop := {
  l_q11 : list R; l_V11 : list R; l_Cm0 : list R; l_Dm0 : list R;
  l_q01 : list R; l_ChanQOut : list R
}.

(** Body of [for index in range(first, last)]. *)
Definition mct_pixel (wave : MctWave) (g : MctInputs) (st : MctLoop) (index : nat)
  : option MctLoop :=
  idpix ← pixels_ordered wave !! index;
  q10 ← i_q10 g !! idpix;
  q01 ← l_q01 st !! idpix;
  q00 ← i_q00 g !! idpix;
  ql ← i_ql g !! idpix;
  Cm0 ← l_Cm0 st !! idpix;
  Dm0 ← l_Dm0 st !! idpix;
  xpix ← i_xpix g !! idpix;
  s0 ← i_s0 g !! idpix;
  Balv ← i_Balv g !! idpix;
  ANalv ← i_ANalv g !! idpix;
  Nalv ← i_Nalv g !! idpix;
  let '(q11, V11, Cm1, Dm1) :=
    MCTRouting_single q10 q01 q00 ql Cm0 Dm0 (i_dt g) xpix s0 Balv ANalv Nalv in
  q11s ← setitem (l_q11 st) idpix q11;
  V11s ← setitem (l_V11 st) idpix V11;
  Cm0s ← setitem (l_Cm0 st) idpix Cm1;
  Dm0s ← setitem (l_Dm0 st) idpix Dm1;
  Some {| l_q11 := q11s; l_V11 := V11s; l_Cm0 := Cm0s; l_Dm0 := Dm0s;
          l_q01 := l_q01 st; l_ChanQOut := l_ChanQOut st |}.

Section MCTLoop.
Context `{Pcraster}.

(** Body of [for order in range(num_orders)]: route the pixels of the order,
    then recompute the inflow at t+dt of every MCT pixel from the discharge
    field updated with the new outflows. *)
Definition mct_order (mask : list bool) (wave : MctWave) (g : MctInputs)
    (st : MctLoop) (row : nat * nat) : option MctLoop :=
  let '(first, last) := row in
  st ← foldM (mct_pixel wave g) st (seq first (last - first));
  Q11 ← put_mct_pix mask (l_q11 st);
  let ChanQOut := np_where (veq_s Q11 0) (l_ChanQOut st) Q11 in
  let Qup01 := upstream_LddChan ChanQOut in
  q01 ← get_mct_pix mask Qup01;
  Some {| l_q11 := l_q11 st; l_V11 := l_V11 st; l_Cm0 := l_Cm0 st; l_Dm0 := l_Dm0 st;
          l_q01 := q01; l_ChanQOut := ChanQOut |}.

(** [routing.MCTRoutingLoop]: returns
    [(ChanQMCTOut, ChanM3MCTOut, Cmout, Dmout)]. *)
Definition MCTRoutingLoop (m : Maps) (v : Var) (wave : MctWave)
    (ChanQMCTOutStart ChanQMCTInStart ChanQKinOut SideflowChanMCT ChanM3Start : list R)
  : option (list R * list R * list R * list R) :=
  let mask := IsChannelKinematic v in
  xpix ← get_mct_pix mask (ChanLength m);
  s0 ← get_mct_pix mask (ChanGrad m);
  Balv ← get_mct_pix mask (ChanBottomWidth m);
  ChanSdXdY ← get_mct_pix mask (ChanSdXdY m);
  Nalv ← get_mct_pix mask (ChanMan m);
  let ANalv := (fun x => atan (1 / x)) <$> ChanSdXdY in
  let dt := DtSecChannel m in
  Cm0 ← get_mct_pix mask (PrevCm0 v);
  Dm0 ← get_mct_pix mask (PrevDm0 v);
  q00 ← get_mct_pix mask ChanQMCTInStart;
  ChanM3MCT0 ← get_mct_pix mask ChanM3Start;
  q10 ← get_mct_pix mask ChanQMCTOutStart;
  let ChanQMCTUp1 := upstream_LddChan ChanQKinOut in
  q01 ← get_mct_pix mask ChanQMCTUp1;
  let q11 := replicate (length q01) 0 in
  let V11 := replicate (length q01) 0 in
  ql ← get_mct_pix mask SideflowChanMCT;
  let g := {| i_xpix := xpix; i_s0 := s0; i_Balv := Balv; i_ANalv := ANalv;
              i_Nalv := Nalv; i_dt := dt; i_q00 := q00; i_q10 := q10; i_ql := ql |} in
  let st := {| l_q11 := q11; l_V11 := V11; l_Cm0 := Cm0; l_Dm0 := Dm0;
               l_q01 := q01; l_ChanQOut := ChanQKinOut |} in
  st ← foldM (mct_order mask wave g) st (order_start_stop wave);
  ChanQMCTOut ← put_mct_pix mask (l_q11 st);
  Cmout ← put_mct_pix mask (l_Cm0 st);
  Dmout ← put_mct_pix mask (l_Dm0 st);
  ChanM3MCTOut ← put_mct_pix mask (l_V11 st);
  Some (ChanQMCTOut, ChanM3MCTOut, Cmout, Dmout).

End MCTLoop.

(** ** The routing sub-step ([routing.dynamic], kinematic-wave part) *)

Section Dynamic.
Context `{KinematicWave} `{Pcraster}.

(** Kinematic routing only: [InitLisflood], or neither split nor MCT routing. *)
Definition dynamic_kinematic (m : Maps) (v : Var) (SideflowChan : list R) : Var :=
  let ChanQKinOutStart := ChanQKin v in
  let '(ChanQKinOutEnd, ChanM3KinEnd) := KINRouting m ChanQKinOutStart SideflowChan in
  {| ChanQKin := ChanQKinOutEnd; ChanM3Kin := ChanM3KinEnd;
     Chan2QKin := Chan2QKin v; Chan2M3Kin := Chan2M3Kin v;
     Sideflow1Chan := Sideflow1Chan v; CrossSection2Area := CrossSection2Area v;
     ChanQ := ChanQKinOutEnd; ChanM3 := ChanM3KinEnd;
     sumDisDay := (sumDisDay v .+ ChanQKinOutEnd)%arr;
     IsChannelKinematic := IsChannelKinematic v;
     PrevQMCTin := PrevQMCTin v; PrevCm0 := PrevCm0 v; PrevDm0 := PrevDm0 v;
     prevDm0 := prevDm0 v |}.

(** Split routing: the two lines are routed and then combined. *)
Definition dynamic_split (m : Maps) (v : Var) (SideflowChan : list R) : Var :=
  let v := SplitRouting m v SideflowChan in
  let ChanQ := np_maximum (ChanQKin v .+ Chan2QKin v .- QLimit m)%arr 0 in
  let ChanM3 := (ChanM3Kin v .+ Chan2M3Kin v .- Chan2M3Start m)%arr in
  {| ChanQKin := ChanQKin v; ChanM3Kin := ChanM3Kin v;
     Chan2QKin := Chan2QKin v; Chan2M3Kin := Chan2M3Kin v;
     Sideflow1Chan := Sideflow1Chan v; CrossSection2Area := CrossSection2Area v;
     ChanQ := ChanQ; ChanM3 := ChanM3;
     sumDisDay := (sumDisDay v .+ ChanQ)%arr;
     IsChannelKinematic := IsChannelKinematic v;
     PrevQMCTin := PrevQMCTin v; PrevCm0 := PrevCm0 v; PrevDm0 := PrevDm0 v;
     prevDm0 := prevDm0 v |}.

(** Kinematic routing on all pixels, then MCT routing on the MCT pixels. *)
Definition dynamic_mct (wave : MctWave) (m : Maps) (v : Var)
    (SideflowChan SideflowChanMCT : list R) : option Var :=
  let ChanQKinOutStart := ChanQ v in
  let '(ChanQKinOutEnd, ChanM3KinEnd) := KINRouting m ChanQKinOutStart SideflowChan in
  let ChanQMCTOutStart := ChanQ v in
  let ChanM3Start := ChanM3 v in
  let ChanQMCTInStart := PrevQMCTin v in
  '(ChanQMCTOutEnd, ChanM3MCTEnd, Cmend, Dmend) ←
    MCTRoutingLoop m v wave ChanQMCTOutStart ChanQMCTInStart ChanQKinOutEnd
                   SideflowChanMCT ChanM3Start;
  let ChanQ := np_where (IsChannelKinematic v) ChanQKinOutEnd ChanQMCTOutEnd in
  let ChanM3 := np_where (IsChannelKinematic v) ChanM3KinEnd ChanM3MCTEnd in
  Some {| ChanQKin := ChanQKin v; ChanM3Kin := ChanM3Kin v;
          Chan2QKin := Chan2QKin v; Chan2M3Kin := Chan2M3Kin v;
          Sideflow1Chan := Sideflow1Chan v; CrossSection2Area := CrossSection2Area v;
          ChanQ := ChanQ; ChanM3 := ChanM3;
          sumDisDay := (sumDisDay v .+ ChanQ)%arr;
          IsChannelKinematic := IsChannelKinematic v;
          PrevQMCTin := upstream_LddChan ChanQMCTOutStart;
          PrevCm0 := Cmend; PrevDm0 := PrevDm0 v;
          prevDm0 := Some Dmend |}.

Definition set_IsChannelKinematic (v : Var) (mask : list bool) : Var :=
  {| ChanQKin := ChanQKin v; ChanM3Kin := ChanM3Kin v;
     Chan2QKin := Chan2QKin v; Chan2M3Kin := Chan2M3Kin v;
     Sideflow1Chan := Sideflow1Chan v; CrossSection2Area := CrossSection2Area v;
     ChanQ := ChanQ v; ChanM3 := ChanM3 v; sumDisDay := sumDisDay v;
     IsChannelKinematic := mask;
     PrevQMCTin := PrevQMCTin v; PrevCm0 := PrevCm0 v; PrevDm0 := PrevDm0 v;
     prevDm0 := prevDm0 v |}.

(** Guards of the three routing blocks of [dynamic]. *)
Definition kinematic_active (o : Options) : bool :=
  InitLisflood o || (negb (SplitRoutingOpt o) && negb (MCTRoutingOpt o)).
Definition split_active (o : Options) : bool :=
  negb (InitLisflood o) && SplitRoutingOpt o && negb (MCTRoutingOpt o).
Definition mct_active (o : Options) : bool :=
  negb (InitLisflood o) && (negb (SplitRoutingOpt o) && MCTRoutingOpt o).

(** Channel routing of one sub-step.  [SideflowChanM3] is the lateral inflow
    volume of the sub-step, assembled by the collaborating modules from
    runoff, evaporation, water use, inflow, transmission loss and structures;
    the mass-balance report and the flow velocity, which do not write
    discharge or storage, are left out. *)
Definition dynamic (o : Options) (wave : MctWave) (m : Maps) (v : Var)
    (SideflowChanM3 : list R) : option Var :=
  let SideflowChan :=
    np_where_s (IsChannelKinematic v)
               (vscale (SideflowChanM3 .* InvChanLength m)%arr (InvDtRouting m)) 0 in
  let SideflowChanMCT :=
    np_where_s (IsChannelMCT m) (vscale SideflowChanM3 (InvDtRouting m)) 0 in
  let v := if InitLisflood o then set_IsChannelKinematic v (IsChannel m) else v in
  let v := if kinematic_active o then dynamic_kinematic m v SideflowChan else v in
  let v := if split_active o then dynamic_split m v SideflowChan else v in
  if mct_active o then dynamic_mct wave m v SideflowChan SideflowChanMCT else Some v.

End Dynamic.

(** ** Routing orders ([mctWave._setMCTRoutingOrders]) *)

(** Modelled from the spec: [topoDistFromSea] of module
    [kinematic_wave_parallel], whose source is not available.  The spec
    gives it as the topological distance of every pixel from its outlet,
    outlets (pixels with no downstream pixel, sentinel [-1] in
    [downstream_lookup]) having distance 0; a flow-direction map on which
    some pixel never reaches an outlet is fatal. *)
Fixpoint topo_dist (fuel : nat) (downstream_lookup : list Z) (p : nat) : option nat :=
  match fuel with
  | O => None
  | S fuel' =>
      d ← downstream_lookup !! p;
      if decide (d = (-1)%Z) then Some O
      else if decide (d < 0)%Z then None
      else S <$> topo_dist fuel' downstream_lookup (Z.to_nat d)
  end.

(** Modelled from the spec: the distance of every pixel, or a failure when
    some pixel does not reach an outlet.  The number of pixels bounds the
    length of any path to an outlet. *)
Definition topoDistFromSea (downstream_lookup : list Z) (upstream_lookup : list (list Z))
  : option (list nat) :=
  let n := length downstream_lookup in
  mapM (topo_dist (S n) downstream_lookup) (seq 0 n).

(** [ocean_topo_distance.max() - ocean_topo_distance] *)
Definition routing_order (ocean_topo_distance : list nat) : list nat :=
  (fun d => max_list ocean_topo_distance - d)%nat <$> ocean_topo_distance.

(** Rows [(order, pixel)] of the frame and the order of
    [sort_values(["order", "pixels"])]. *)
Definition row_leb (a b : nat * nat) : bool :=
  (a.1 <? b.1)%nat || ((a.1 =? b.1)%nat && (a.2 <=? b.2)%nat).
Definition row_le (a b : nat * nat) : Prop := Is_true (row_leb a b).

Definition sort_values (rows : list (nat * nat)) : list (nat * nat) :=
  merge_sort row_le rows.

(** [groupby(index).count()]: one entry [(key, count)] per distinct index
    value, keys ascending. *)
Fixpoint bump (k : nat) (acc : list (nat * nat)) : list (nat * nat) :=
  match acc with
  | [] => [(k, 1%nat)]
  | (k', c) :: rest =>
      if (k =? k')%nat then (k', S c) :: rest
      else if (k <? k')%nat then (k, 1%nat) :: acc
      else (k', c) :: bump k rest
  end.
Definition groupby_count (index : list nat) : list (nat * nat) := foldr bump [] index.

Fixpoint cumsum_from (acc : nat) (l : list nat) : list nat :=
  match l with
  | [] => []
  | x :: l' => (acc + x)%nat :: cumsum_from (acc + x) l'
  end.
Definition cumsum : list nat -> list nat := cumsum_from 0.

(** [np.column_stack((np.append(0, stop[:-1]), stop))] *)
Definition start_stop (stop : list nat) : list (nat * nat) :=
  zip (0%nat :: removelast stop) stop.

(** [mctWave._setMCTRoutingOrders].  [max()] of an empty array raises. *)
Definition _setMCTRoutingOrders (downstream_lookup : list Z)
    (upstream_lookup : list (list Z)) : option MctWave :=
  ocean_topo_distance ← topoDistFromSea downstream_lookup upstream_lookup;
  if decide (ocean_topo_distance = []) then None
  else
    let routing_order := routing_order ocean_topo_distance in
    let series := sort_values (zip routing_order (seq 0 (length routing_order))) in
    let order_counts := groupby_count (series.*1) in
    let stop := cumsum (order_counts.*2) in
    Some {| order_start_stop := start_stop stop; pixels_ordered := series.*2 |}.

(** ** Specification-side definitions *)

(** The relations of the specification, written from its words: Manning
    discharge and wave celerity of a cross-section with wet area [A], wet
    contour [P], surface width [B] and side angle [ANalv]; rectangular
    sections ([ANalv >= PI / 2]) take cotangent 0 and sine 1. *)
Definition spec_cot (ANalv : R) : R :=
  if Rge_dec ANalv (PI / 2) then 0 else cos ANalv / sin ANalv.
Definition spec_sin (ANalv : R) : R :=
  if Rge_dec ANalv (PI / 2) then 1 else sin ANalv.
Definition spec_area (y Balv ANalv : R) : R := (Balv + y * spec_cot ANalv) * y.
Definition spec_width (y Balv ANalv : R) : R := Balv + 2 * y * spec_cot ANalv.
Definition spec_perimeter (y Balv ANalv : R) : R := Balv + 2 * y / spec_sin ANalv.
Definition spec_manning (s0 Nalv A P : R) : R :=
  sqrt s0 / Nalv * npow A (5 / 3) / npow P (2 / 3).
Definition spec_celerity (q A P B ANalv : R) : R :=
  (q / 3) * (5 / A - 4 / (P * B * spec_sin ANalv)).

(** A reference discharge [ref] obtained from the average [avg] with the
    zero guard of [MCTRouting_single]. *)
Definition reference_guarded (avg ref : R) : Prop :=
  (avg = 0 -> ref = 1e-6) /\ (avg <> 0 -> ref = avg) /\ ref <> 0.

(** What the specification says of one refinement pass entered with the
    outflow estimate [q11in]: the three reference discharges are guarded
    before [hoq] inverts them, and a negative Muskingum update is replaced
    by epsilon. *)
Definition pass_guarded (q10 q01 q00 s0 Balv ANalv Nalv q11in : R) (p : mct_pass) : Prop :=
  reference_guarded ((q00 + q01) / 2) (qmx0 p) /\
  hmx0 p = hoq (qmx0 p) s0 Balv ANalv Nalv /\
  reference_guarded ((q10 + q11in) / 2) (qmx1 p) /\
  hmx1 p = hoq (qmx1 p) s0 Balv ANalv Nalv /\
  reference_guarded ((q01 + q11in) / 2) (qm1 p) /\
  hm1 p = hoq (qm1 p) s0 Balv ANalv Nalv /\
  (q11_raw p < 0 -> q11 p = 1e-6 /\ q11 p <> 0) /\
  (0 <= q11_raw p -> q11 p = q11_raw p).

(** ** Sample collaborators and inputs *)

(** A stand-in for the compiled solver: the outflow at t+dt is the outflow at
    t plus the lateral inflow. *)
Definition sample_router : KinematicWave :=
  {| kinematicWaveRouting := fun Q S _ => (Q .+ S)%arr |}.

(** A stand-in for PCRaster's [upstream] on a chain [0 -> 1 -> ...]: every
    pixel receives the value of the pixel before it, the head receives 0. *)
Definition sample_upstream : Pcraster :=
  {| upstream_LddChan := fun a => take (length a) (0 :: a) |}.

(** Two channel pixels, the first kinematic and the second MCT. *)
Definition sample_maps : Maps :=
  {| Beta := [0.6; 0.6]; ChanLength := [1000; 1000];
     ChannelAlpha := [2; 2]; ChannelAlpha2 := [3; 3];
     QLimit := [1; 1]; Chan2QStart := [1; 0];
     IsChannel := [true; true]; IsChannelMCT := [false; true];
     ChanGrad := [0.001; 0.001]; ChanBottomWidth := [5; 5];
     ChanSdXdY := [2; 2]; ChanMan := [0.03; 0.03];
     DtSecChannel := 3600; InvDtRouting := 1 / 3600 |}.

(** The same pixels with the exponent 1, for which every power is finite. *)
Definition sample_maps_linear : Maps :=
  {| Beta := [1; 1]; ChanLength := [1000; 1000];
     ChannelAlpha := [2; 2]; ChannelAlpha2 := [3; 3];
     QLimit := [1; 1]; Chan2QStart := [1; 0];
     IsChannel := [true; true]; IsChannelMCT := [false; true];
     ChanGrad := [0.001; 0.001]; ChanBottomWidth := [5; 5];
     ChanSdXdY := [2; 2]; ChanMan := [0.03; 0.03];
     DtSecChannel := 3600; InvDtRouting := 1 / 3600 |}.

Definition sample_var : Var :=
  {| ChanQKin := [1; 1]; ChanM3Kin := [2000; 2000];
     Chan2QKin := [1; 1]; Chan2M3Kin := [3000; 3000];
     Sideflow1Chan := [0; 0]; CrossSection2Area := [0; 0];
     ChanQ := [1; 1]; ChanM3 := [2000; 2000]; sumDisDay := [0; 0];
     IsChannelKinematic := [true; false];
     PrevQMCTin := [0; 1]; PrevCm0 := [1; 1]; PrevDm0 := [0; 0];
     prevDm0 := None |}.

Definition sample_wave : MctWave :=
  {| order_start_stop := [(0, 1)%nat]; pixels_ordered := [0%nat] |}.

Definition split_options : Options :=
  {| InitLisflood := false; SplitRoutingOpt := true; MCTRoutingOpt := false |}.
Definition mct_options : Options :=
  {| InitLisflood := false; SplitRoutingOpt := false; MCTRoutingOpt := true |}.
Definition kinematic_options : Options :=
  {| InitLisflood := false; SplitRoutingOpt := false; MCTRoutingOpt := false |}.

(** ** Shapes *)

(** All maps are compressed over the same mask of [N] pixels. *)
Definition maps_shape (N : nat) (m : Maps) : Prop :=
  length (Beta m) = N /\ length (ChanLength m) = N /\
  length (ChannelAlpha m) = N /\ length (ChannelAlpha2 m) = N /\
  length (QLimit m) = N /\ length (Chan2QStart m) = N /\
  length (IsChannel m) = N /\ length (IsChannelMCT m) = N /\
  length (ChanGrad m) = N /\ length (ChanBottomWidth m) = N /\
  length (ChanSdXdY m) = N /\ length (ChanMan m) = N.

Definition var_shape (N : nat) (v : Var) : Prop :=
  length (ChanQKin v) = N /\ length (ChanM3Kin v) = N /\
  length (Chan2QKin v) = N /\ length (Chan2M3Kin v) = N /\
  length (ChanQ v) = N /\ length (ChanM3 v) = N /\
  length (sumDisDay v) = N /\ length (IsChannelKinematic v) = N /\
  length (PrevQMCTin v) = N /\ length (PrevCm0 v) = N /\ length (PrevDm0 v) = N.

(** The collaborators return arrays over the same mask. *)
Definition router_shape `{KinematicWave} (N : nat) : Prop :=
  forall Q S sec, length Q = N -> length S = N ->
    length (kinematicWaveRouting Q S sec) = N.
Definition upstream_shape `{Pcraster} : Prop :=
  forall a, length (upstream_LddChan a) = length a.

(** Channel length, the alpha coefficients and the exponent are positive, and
    the bankfull discharge [QLimit], a multiple of the average discharge, is
    not negative. *)
Definition maps_physical (m : Maps) : Prop :=
  Forall (Rlt 0) (Beta m) /\ Forall (Rlt 0) (ChanLength m) /\
  Forall (Rlt 0) (ChannelAlpha m) /\ Forall (Rlt 0) (ChannelAlpha2 m) /\
  Forall (Rle 0) (QLimit m).

(** The solver returns discharges whose power [** Beta] is a finite number:
    no negative discharge where the exponent is fractional. *)
Definition router_finite `{KinematicWave} (m : Maps) : Prop :=
  forall Q S sec i q b,
    kinematicWaveRouting Q S sec !! i = Some q -> Beta m !! i = Some b ->
    npow_finite q b.

(** The routing orders index into [pixels_ordered], whose entries are
    indices of MCT pixels ([n] of them). *)
Definition wave_ok (n : nat) (wave : MctWave) : Prop :=
  Forall (fun row : nat * nat => row.2 <= length (pixels_ordered wave))%nat
         (order_start_stop wave) /\
  Forall (fun p => p < n)%nat (pixels_ordered wave).

(** One of the three routing blocks of [dynamic] runs. *)
Definition routing_active (o : Options) : bool :=
  kinematic_active o || split_active o || mct_active o.

Definition inputs_shape (n : nat) (g : MctInputs) : Prop :=
  length (i_xpix g) = n /\ length (i_s0 g) = n /\ length (i_Balv g) = n /\
  length (i_ANalv g) = n /\ length (i_Nalv g) = n /\
  length (i_q00 g) = n /\ length (i_q10 g) = n /\ length (i_ql g) = n.

Definition loop_shape (n N : nat) (st : MctLoop) : Prop :=
  length (l_q11 st) = n /\ length (l_V11 st) = n /\ length (l_Cm0 st) = n /\
  length (l_Dm0 st) = n /\ length (l_q01 st) = n /\ length (l_ChanQOut st) = N.

(** ** Run-length view of the routing orders *)

(** The index column described by a table of [(key, count)] entries: each
    key repeated [count] times. *)
Fixpoint expand (rl : list (nat * nat)) : list nat :=
  match rl with
  | [] => []
  | kc :: rest => replicate kc.2 kc.1 ++ expand rest
  end.

(** Consecutive index ranges of the given sizes, starting at [acc]. *)
Fixpoint ranges_from (acc : nat) (counts : list nat) : list (nat * nat) :=
  match counts with
  | [] => []
  | c :: cs => (acc, acc + c)%nat :: ranges_from (acc + c) cs
  end.

(** [rl] groups the sorted index column [idx]. *)
Definition grouped (idx : list nat) (rl : list (nat * nat)) : Prop :=
  expand rl = idx /\ StronglySorted lt (rl.*1) /\ Forall (fun kc => 0 < kc.2)%nat rl.

(** Outflows and volumes computed so far by the pixel loop are non-negative. *)
Definition loop_nonneg (st : MctLoop) : Prop :=
  Forall (Rle 0) (l_q11 st) /\ Forall (Rle 0) (l_V11 st).

(** * Further functions of [routing.py] *)

(** ** Depth and discharge from volume *)

(** [routing.hoV]: water depth from the volume [V] stored in a reach of length
    [xpix]. *)
Definition hoV (V xpix Balv ANalv : R) : R :=
  let eps := 1e-6 in
  let c := if Rlt_dec ANalv (PI / 2) then cotan ANalv else 0 in
  let a := V / xpix in
  if Rlt_dec (Rabs c) eps
  then a / Balv
  else (- Balv + sqrt (Balv ^ 2 + 4 * a * c)) / (2 * c).

(** [routing.qoV]: discharge from volume. *)
Definition qoV (V xpix s0 Balv ANalv Nalv : R) : R :=
  let y := hoV V xpix Balv ANalv in
  let '(q, a, b, p, cel) := qoh y s0 Balv ANalv Nalv in
  q.

(** [routing.rad_from_dxdy]; the same expression gives [ANalv] in
    [MCTRoutingLoop]. *)
Definition rad_from_dxdy (dxdy : R) : R := atan (1 / dxdy).

(** ** Further elementwise operators *)

(** [s * a] for a scalar [s], [np.sqrt(a)], [np.square(a)], [a ** s] *)
Definition smul (s : R) (a : list R) : list R := (fun x => s * x) <$> a.
Definition np_sqrt (a : list R) : list R := sqrt <$> a.
Definition np_square (a : list R) : list R := (fun x => x * x) <$> a.
Definition vpow_s (a : list R) (s : R) : list R := (fun x => npow x s) <$> a.
(** [np.maximum(a, b)], [np.minimum(a, b)] of two arrays, [np.minimum(a, s)] *)
Definition np_maximum2 : list R -> list R -> list R := zip_with Rmax.
Definition np_minimum2 : list R -> list R -> list R := zip_with Rmin.
Definition np_minimum (a : list R) (s : R) : list R := (fun x => Rmin x s) <$> a.
(** [c1 & c2] and [np.where(c, s, b)] with a scalar first branch; the latter
    is also the masked assignment [b[c] = s]. *)
Definition vand : list bool -> list bool -> list bool := zip_with andb.
Definition np_where_l (c : list bool) (s : R) (b : list R) : list R :=
  zip_with (fun (ci : bool) (x : R) => if ci then s else x) c b.

(** ** Routing sub-steps ([routing.initial]) *)

(** Python's [round(x, 0)]: to the nearest integer, a tie to the even
    neighbour. *)
Definition py_round (x : R) : Z :=
  let n := Int_part x in
  let fr := frac_part x in
  if Rlt_dec fr (1 / 2) then n
  else if Rgt_dec fr (1 / 2) then (n + 1)%Z
  else if Z.even n then n else (n + 1)%Z.

(** Number of routing sub-steps per time step; one in a pre-run. *)
Definition initial_NoRoutSteps (InitLisflood : bool) (DtSec DtSecChannel : R) : Z :=
  let NoRoutSteps := Z.max 1 (py_round (DtSec / DtSecChannel)) in
  if InitLisflood then 1%Z else NoRoutSteps.
Definition initial_DtRouting (InitLisflood : bool) (DtSec DtSecChannel : R) : R :=
  DtSec / IZR (initial_NoRoutSteps InitLisflood DtSec DtSecChannel).
Definition initial_InvDtRouting (InitLisflood : bool) (DtSec DtSecChannel : R) : R :=
  1 / initial_DtRouting InitLisflood DtSec DtSecChannel.

(** ** Channel geometry and initial state ([routing.initial]) *)

(** Channel gradient: not below [ChanGradMin]; with MCT routing, not above
    0.001 on MCT pixels. *)
Definition initial_ChanGrad (MCTRouting : bool) (IsChannelMCT : list bool)
    (ChanGrad ChanGradMin : list R) : list R :=
  let ChanGrad := np_maximum2 ChanGrad ChanGradMin in
  if MCTRouting then
    let MCT_slope_mask := vand IsChannelMCT (vgt_s ChanGrad 0.001) in
    np_where_l MCT_slope_mask 0.001 ChanGrad
  else ChanGrad.

Definition initial_ChanUpperWidth (ChanBottomWidth ChanSdXdY ChanDepthThreshold : list R)
  : list R :=
  (ChanBottomWidth .+ smul 2 ChanSdXdY .* ChanDepthThreshold)%arr.

(** Area of the bankfull cross-section (trapezoid area equation). *)
Definition initial_TotalCrossSectionAreaBankFull
    (ChanBottomWidth ChanSdXdY ChanDepthThreshold : list R) : list R :=
  (smul 0.5 ChanDepthThreshold .*
   (initial_ChanUpperWidth ChanBottomWidth ChanSdXdY ChanDepthThreshold .+ ChanBottomWidth))%arr.

(** Initial cross-sectional area: the value of the binding, or half the
    bankfull area where the binding holds the sentinel -9999. *)
Definition initial_TotalCrossSectionArea
    (TotalCrossSectionAreaInitValue ChanBottomWidth ChanSdXdY ChanDepthThreshold : list R)
  : list R :=
  let TotalCrossSectionAreaHalfBankFull :=
    smul 0.5 (initial_TotalCrossSectionAreaBankFull ChanBottomWidth ChanSdXdY
                ChanDepthThreshold) in
  np_where (veq_s TotalCrossSectionAreaInitValue (-9999))
           TotalCrossSectionAreaHalfBankFull TotalCrossSectionAreaInitValue.

(** Wetted perimeter at the reference depth of [ChannelAlpha], half of
    bankfull (Pythagoras). *)
Definition initial_ChanWettedPerimeterAlpha (IsChannel : list bool)
    (ChanBottomWidth ChanSdXdY ChanDepthThreshold : list R) : list R :=
  let ChanWaterDepthAlpha := np_where_s IsChannel (smul 0.5 ChanDepthThreshold) 0 in
  (ChanBottomWidth .+
   smul 2 (np_sqrt (np_square ChanWaterDepthAlpha .+
                    np_square (ChanWaterDepthAlpha .* ChanSdXdY))))%arr.

(** [ChannelAlpha] of the kinematic wave, [A = Alpha * Q ** Beta]. *)
Definition initial_ChannelAlpha (ChanMan ChanGrad Beta ChanWettedPerimeterAlpha : list R)
  : list R :=
  let AlpTermChan := ((ChanMan ./ np_sqrt ChanGrad) .^ Beta)%arr in
  let AlpPow := smul (2.0 / 3.0) Beta in
  (AlpTermChan .* ChanWettedPerimeterAlpha .^ AlpPow)%arr.

(** Initial channel storage and discharge of the kinematic wave pixels. *)
Definition initial_ChanM3 (TotalCrossSectionArea ChanLength : list R) : list R :=
  (TotalCrossSectionArea .* ChanLength)%arr.
Definition initial_ChanQKin (ChannelAlpha TotalCrossSectionArea Beta : list R) : list R :=
  np_where_s (vgt_s ChannelAlpha 0)
             ((TotalCrossSectionArea ./ ChannelAlpha) .^ sdiv 1 Beta)%arr 0.

(** ** Start of the two routing lines ([routing.initialSecond]) *)

(** With split routing and no pre-run, the storages and discharges of the two
    lines are rebuilt from the total storage [ChanM3] and the over-bankfull
    area [CrossSection2Area] of the initial state.  [ChannelAlpha2], [QLimit]
    and [Chan2QStart], set in the same block, are fields of [Maps]. *)
Definition initialSecond (o : Options) (m : Maps) (v : Var) : Var :=
  if SplitRoutingOpt o && negb (InitLisflood o) then
    let Chan2M3Kin := (CrossSection2Area v .* ChanLength m .+ Chan2M3Start m)%arr in
    let ChanM3Kin := (ChanM3 v .- Chan2M3Kin .+ Chan2M3Start m)%arr in
    let ChanM3Kin :=
      np_where_l (vand (vlt_s ChanM3Kin 0.0) (vgt_s ChanM3Kin (-0.0000001))) 0.0 ChanM3Kin in
    let Chan2QKin :=
      ((Chan2M3Kin .* InvChanLength m .* InvChannelAlpha2 m) .^ InvBeta m)%arr in
    let ChanQKin :=
      ((ChanM3Kin .* InvChanLength m .* InvChannelAlpha m) .^ InvBeta m)%arr in
    {| ChanQKin := ChanQKin; ChanM3Kin := ChanM3Kin;
       Chan2QKin := Chan2QKin; Chan2M3Kin := Chan2M3Kin;
       Sideflow1Chan := Sideflow1Chan v; CrossSection2Area := CrossSection2Area v;
       ChanQ := ChanQ v; ChanM3 := ChanM3 v; sumDisDay := sumDisDay v;
       IsChannelKinematic := IsChannelKinematic v;
       PrevQMCTin := PrevQMCTin v; PrevCm0 := PrevCm0 v; PrevDm0 := PrevDm0 v;
       prevDm0 := prevDm0 v |}
  else v.

(** ** Flow velocity (tail of [routing.dynamic]) *)

(** Channel velocity: discharge over cross-sectional area, capped by the
    Wollheim (2006) relation and reduced for the sinuosity of the channel. *)
Definition FlowVelocity (m : Maps) (v : Var) (PixelArea : list R) : list R :=
  let TotalCrossSectionArea := np_maximum (ChanM3Kin v .* InvChanLength m)%arr 0.01 in
  let FlowVelocity :=
    np_minimum2 (ChanQKin v ./ TotalCrossSectionArea)%arr
                (smul 0.36 (vpow_s (ChanQKin v) 0.24)) in
  (FlowVelocity .* np_minimum (np_sqrt PixelArea .* InvChanLength m)%arr 1)%arr.

(** ** Sample inputs of the pixel loop *)

(** Two MCT pixels of one routing order. *)
Definition sample_wave2 : MctWave :=
  {| order_start_stop := [(0, 2)%nat]; pixels_ordered := [0%nat; 1%nat] |}.
Definition sample_inputs : MctInputs :=
  {| i_xpix := [1000; 1000]; i_s0 := [0.001; 0.001]; i_Balv := [5; 5];
     i_ANalv := [1; 1]; i_Nalv := [0.03; 0.03]; i_dt := 3600;
     i_q00 := [1; 1]; i_q10 := [1; 1]; i_ql := [0; 0] |}.
Definition sample_loop : MctLoop :=
  {| l_q11 := [0; 0]; l_V11 := [0; 0]; l_Cm0 := [1; 1]; l_Dm0 := [0; 0];
     l_q01 := [1; 2]; l_ChanQOut := [1; 1; 1] |}.

(** * Rain and snow ([snow.py]) *)

(** Snow is computed at the centres of three elevation zones of every pixel.
    The maps read by [initial] are modelled as arrays over the pixel mask (a
    scalar binding broadcasts to such an array); [CalendarDay] and [DtDay]
    are scalars. *)
Module Snow.

(** [a < b], [a >= b] on arrays, [s + a] and [a / s] for a scalar [s],
    [np.where(c, s1, s2)] with two scalar branches, [np.radians]. *)
Definition Rgeb (x y : R) : bool := if Rge_dec x y then true else false.
Definition vlt : list R -> list R -> list bool := zip_with Rltb.
Definition vge : list R -> list R -> list bool := zip_with Rgeb.
Definition sadd (s : R) (a : list R) : list R := (fun x => s + x) <$> a.
Definition vdiv_s (a : list R) (s : R) : list R := (fun x => x / s) <$> a.
Definition np_where_ss (c : list bool) (s1 s2 : R) : list R :=
  (fun ci : bool => if ci then s1 else s2) <$> c.
Definition radians (x : R) : R := x * PI / 180.

(** Forcing and parameters: the attributes of [self.var] and [self] that
    [dynamic] reads. *)
Record Forcing := {
  CalendarDay : R;
  DtDay : R;
  Tavg : list R;
  Precipitation : list R;
  DeltaTSnow : list R;
  SnowSeason : list R;
  TempSnow : list R;
  SnowFactor : list R;
  SnowMeltCoef : list R;
  TempMelt : list R;
  hemisphere_N : list bool
}.

(** The attributes that [dynamic] writes; [SnowCoverS] is the Python list of
    the snow covers of the zones. *)
Record State := {
  SnowCoverS : list (list R);
  Snow : list R;
  Rain : list R;
  SnowMelt : list R;
  SnowCover : list R;
  TotalPrecipitation : list R
}.

(** Constants set by [initial]. *)
Definition SnowDayDegrees : R := 360 / 365.25.
Definition IceDayDegrees : R := 2 * SnowDayDegrees.
Definition icemelt_start_N : R := 165.
Definition icemelt_end_N : R := 257.
Definition icemelt_start_S : R := 347.
Definition icemelt_end_S : R := 74.

(** [globals.inZero]: zeros over the pixel mask. *)
Definition inZero (f : Forcing) : list R := replicate (length (Tavg f)) 0.

(** Seasonal snowmelt coefficient, of opposite phase in the two
    hemispheres. *)
Definition SeasSnowMeltCoef (f : Forcing) : list R :=
  let snowmelt_coeff := sin (radians ((CalendarDay f - 81) * SnowDayDegrees)) in
  (SnowSeason f .* np_where_ss (hemisphere_N f) snowmelt_coeff (- snowmelt_coeff)
   .+ SnowMeltCoef f)%arr.

(** Icemelt coefficient of the summer season of each hemisphere. *)
Definition SummerSeason (f : Forcing) : list R :=
  let is_summer_icemelt_N :=
    Rgtb (CalendarDay f) icemelt_start_N && Rltb (CalendarDay f) icemelt_end_N in
  let is_summer_icemelt_S :=
    Rgtb (CalendarDay f) icemelt_start_S || Rltb (CalendarDay f) icemelt_end_S in
  let _ice_melt_coeff :=
    sin (radians ((CalendarDay f - icemelt_start_N) * IceDayDegrees)) in
  let ice_melt_coeff_N := if is_summer_icemelt_N then _ice_melt_coeff else 0 in
  let ice_melt_coeff_S := if is_summer_icemelt_S then _ice_melt_coeff else 0 in
  np_where_ss (hemisphere_N f) ice_melt_coeff_N ice_melt_coeff_S.

(** Body of [for i in range(3)]; [SnowCoverS[i]] raises [IndexError] when the
    list has no zone [i]. *)
Definition zone (f : Forcing) (st : State) (i : nat) : option State :=
  let TavgS := (Tavg f .+ vscale (DeltaTSnow f) (INR i - 1))%arr in
  let SnowS :=
    np_where (vlt TavgS (TempSnow f)) (SnowFactor f .* Precipitation f)%arr (inZero f) in
  let RainS := np_where (vge TavgS (TempSnow f)) (Precipitation f) (inZero f) in
  let SnowMeltS :=
    vscale ((TavgS .- TempMelt f) .* SeasSnowMeltCoef f .* sadd 1 (smul 0.01 RainS))%arr
           (DtDay f) in
  let IceMeltS :=
    if (i <? 2)%nat
    then (vscale (vscale (Tavg f) 7.0) (DtDay f) .* SummerSeason f)%arr
    else (vscale (vscale TavgS 7.0) (DtDay f) .* SummerSeason f)%arr in
  cover ← SnowCoverS st !! i;
  let SnowMeltS :=
    np_maximum2 (np_minimum2 (SnowMeltS .+ IceMeltS)%arr cover) (inZero f) in
  let cover := (cover .+ SnowS .- SnowMeltS)%arr in
  Some {| SnowCoverS := <[i := cover]> (SnowCoverS st);
          Snow := (Snow st .+ SnowS)%arr;
          Rain := (Rain st .+ RainS)%arr;
          SnowMelt := (SnowMelt st .+ SnowMeltS)%arr;
          SnowCover := (SnowCover st .+ cover)%arr;
          TotalPrecipitation := TotalPrecipitation st |}.

(** [snow.dynamic] *)
Definition dynamic (f : Forcing) (st : State) : option State :=
  let st := {| SnowCoverS := SnowCoverS st;
               Snow := inZero f; Rain := inZero f;
               SnowMelt := inZero f; SnowCover := inZero f;
               TotalPrecipitation := TotalPrecipitation st |} in
  st ← foldM (zone f) st (seq 0 3);
  let Snow := vdiv_s (Snow st) 3 in
  let Rain := vdiv_s (Rain st) 3 in
  Some {| SnowCoverS := SnowCoverS st;
          Snow := Snow; Rain := Rain;
          SnowMelt := vdiv_s (SnowMelt st) 3;
          SnowCover := vdiv_s (SnowCover st) 3;
          TotalPrecipitation := (TotalPrecipitation st .+ (Snow .+ Rain))%arr |}.

(** The forcing and the parameters at pixel [p]. *)
Record Pixel := {
  p_Tavg : R; p_Precipitation : R; p_DeltaTSnow : R; p_SnowSeason : R;
  p_TempSnow : R; p_SnowFactor : R; p_SnowMeltCoef : R; p_TempMelt : R;
  p_hemisphere_N : bool
}.
Definition at_pixel (f : Forcing) (p : nat) (x : Pixel) : Prop :=
  Tavg f !! p = Some (p_Tavg x) /\ Precipitation f !! p = Some (p_Precipitation x) /\
  DeltaTSnow f !! p = Some (p_DeltaTSnow x) /\ SnowSeason f !! p = Some (p_SnowSeason x) /\
  TempSnow f !! p = Some (p_TempSnow x) /\ SnowFactor f !! p = Some (p_SnowFactor x) /\
  SnowMeltCoef f !! p = Some (p_SnowMeltCoef x) /\ TempMelt f !! p = Some (p_TempMelt x) /\
  hemisphere_N f !! p = Some (p_hemisphere_N x).

(** Temperature at the centre of zone [i] of a pixel. *)
Definition zone_temperature (x : Pixel) (i : nat) : R :=
  p_Tavg x + p_DeltaTSnow x * (INR i - 1).

(** Snow and rain of zone [i] of a pixel. *)
Definition zone_snow (x : Pixel) (i : nat) : R :=
  if Rltb (zone_temperature x i) (p_TempSnow x)
  then p_SnowFactor x * p_Precipitation x else 0.
Definition zone_rain (x : Pixel) (i : nat) : R :=
  if Rgeb (zone_temperature x i) (p_TempSnow x) then p_Precipitation x else 0.

(** A pixel of the northern hemisphere on a day of the melt season. *)
Definition sample_forcing : Forcing :=
  {| CalendarDay := 200; DtDay := 1; Tavg := [2]; Precipitation := [6];
     DeltaTSnow := [3]; SnowSeason := [0.5]; TempSnow := [1]; SnowFactor := [1];
     SnowMeltCoef := [4]; TempMelt := [0]; hemisphere_N := [true] |}.
Definition sample_state : State :=
  {| SnowCoverS := [[10]; [5]; [0]]; Snow := [0]; Rain := [0]; SnowMelt := [0];
     SnowCover := [0]; TotalPrecipitation := [0] |}.

Definition sample_pixel : Pixel :=
  {| p_Tavg := 2; p_Precipitation := 6; p_DeltaTSnow := 3; p_SnowSeason := 0.5;
     p_TempSnow := 1; p_SnowFactor := 1; p_SnowMeltCoef := 4; p_TempMelt := 0;
     p_hemisphere_N := true |}.

End Snow.
(** * Properties *)

(** ** Compress / explode of MCT pixel arrays *)

Lemma count_mct_cons_true mask : count_mct (true :: mask) = count_mct mask.
Proof. reflexivity. Qed.

Lemma count_mct_cons_false mask : count_mct (false :: mask) = S (count_mct mask).
Proof. reflexivity. Qed.

Lemma length_explode mask var : length (explode mask var) = length mask.
Proof.
  revert var. induction mask as [|[] mask IH]; intros var; simpl; auto.
  destruct var; simpl; auto.
Qed.

Lemma compressed_explode mask var :
  length var = count_mct mask -> compressed mask (explode mask var) = var.
Proof.
  revert var. induction mask as [|[] mask IH]; intros var Hlen.
  - destruct var; [reflexivity | discriminate].
  - simpl. apply IH. exact Hlen.
  - rewrite count_mct_cons_false in Hlen.
    destruct var as [|x var]; [discriminate|].
    simpl. f_equal. apply IH. simpl in Hlen. lia.
Qed.

Lemma explode_lookup_kinematic mask var i :
  mask !! i = Some true -> explode mask var !! i = Some 0.
Proof.
  revert var i. induction mask as [|b mask IH]; intros var i Hi; [discriminate|].
  destruct i as [|i]; simpl in Hi.
  - injection Hi as ->. reflexivity.
  - destruct b; simpl; [apply IH; exact Hi|].
    destruct var; simpl; apply IH; exact Hi.
Qed.

Lemma explode_lookup_mct mask var i :
  length var = count_mct mask ->
  mask !! i = Some false ->
  explode mask var !! i = var !! count_mct (take i mask).
Proof.
  revert var i. induction mask as [|b mask IH]; intros var i Hlen Hi; [discriminate|].
  destruct i as [|i]; simpl in Hi.
  - injection Hi as ->. rewrite count_mct_cons_false in Hlen.
    destruct var; [discriminate|]. reflexivity.
  - destruct b.
    + simpl. rewrite count_mct_cons_true. apply IH; assumption.
    + rewrite count_mct_cons_false in Hlen.
      destruct var as [|x var]; [discriminate|].
      simpl take. rewrite count_mct_cons_false. simpl.
      apply IH; [simpl in Hlen; lia | assumption].
Qed.

Lemma count_mct_take_lt mask i :
  mask !! i = Some false -> (count_mct (take i mask) < count_mct mask)%nat.
Proof.
  revert i. induction mask as [|b mask IH]; intros i Hi; [discriminate|].
  destruct i as [|i]; simpl in Hi.
  - injection Hi as ->. rewrite count_mct_cons_false. simpl. unfold count_mct. simpl. lia.
  - simpl take. specialize (IH i Hi).
    destruct b; rewrite ?count_mct_cons_true, ?count_mct_cons_false; lia.
Qed.

(** C10. For a vector [v] with one entry per MCT pixel, [put_mct_pix]
    succeeds and returns a full-catchment array that holds the entries of [v],
    in order, at the MCT positions and zero at every kinematic position;
    [get_mct_pix] of that array gives [v] back. *)
Theorem mct_pix_roundtrip (IsChannelKinematic : list bool) (v : list R) :
  length v = count_mct IsChannelKinematic ->
  exists full,
    put_mct_pix IsChannelKinematic v = Some full /\
    length full = length IsChannelKinematic /\
    (forall i, IsChannelKinematic !! i = Some false ->
       exists x, v !! count_mct (take i IsChannelKinematic) = Some x /\ full !! i = Some x) /\
    (forall i, IsChannelKinematic !! i = Some true -> full !! i = Some 0) /\
    get_mct_pix IsChannelKinematic full = Some v.
Proof.
  intros Hlen. exists (explode IsChannelKinematic v).
  split; [|split; [|split; [|split]]].
  - unfold put_mct_pix. simpl. rewrite decide_True by exact Hlen. reflexivity.
  - apply length_explode.
  - intros i Hi.
    destruct (lookup_lt_is_Some_2 v (count_mct (take i IsChannelKinematic))) as [x Hx].
    { rewrite Hlen. apply count_mct_take_lt. exact Hi. }
    exists x. split; [exact Hx|]. rewrite explode_lookup_mct by assumption. exact Hx.
  - intros i Hi. apply explode_lookup_kinematic. exact Hi.
  - unfold get_mct_pix. rewrite length_explode, decide_True by reflexivity.
    f_equal. apply compressed_explode. exact Hlen.
Qed.

Lemma mct_pix_roundtrip_witness :
  length [7; 9] = count_mct [true; false; false; true] /\
  exists full,
    put_mct_pix [true; false; false; true] [7; 9] = Some full /\
    length full = length [true; false; false; true] /\
    (forall i, [true; false; false; true] !! i = Some false ->
       exists x, [7; 9] !! count_mct (take i [true; false; false; true]) = Some x /\
                 full !! i = Some x) /\
    (forall i, [true; false; false; true] !! i = Some true -> full !! i = Some 0) /\
    get_mct_pix [true; false; false; true] full = Some [7; 9].
Proof.
  split; [reflexivity|].
  apply (mct_pix_roundtrip [true; false; false; true] [7; 9]). reflexivity.
Defined.

(** The broadcasting branch of [put_mct_pix]: a one-element vector fills every
    MCT position. *)
Example put_mct_pix_broadcast :
  put_mct_pix [false; true; false] [5] = Some [5; 0; 5].
Proof. reflexivity. Qed.

Example put_mct_pix_shape_error :
  put_mct_pix [false; true; false] [5; 6; 7] = None.
Proof. reflexivity. Qed.

(** ** Discharge from depth *)

(** C7. [qoh] returns the Manning discharge and the celerity of the
    specification, with area, width and wet contour of the trapezoidal
    section, for every depth and geometry. *)
Theorem qoh_manning (y s0 Balv ANalv Nalv : R) :
  let A := spec_area y Balv ANalv in
  let B := spec_width y Balv ANalv in
  let P := spec_perimeter y Balv ANalv in
  let q := spec_manning s0 Nalv A P in
  qoh y s0 Balv ANalv Nalv = (q, A, B, P, spec_celerity q A P B ANalv).
Proof.
  unfold qoh, spec_celerity, spec_manning, spec_perimeter, spec_width, spec_area,
    spec_sin, spec_cot, cotan.
  replace (5 / 3 - 1) with (2 / 3) by lra.
  destruct (Rlt_dec ANalv (PI / 2)) as [Hlt|Hge];
    destruct (Rge_dec ANalv (PI / 2)) as [Hge'|Hlt']; try lra; reflexivity.
Qed.

(** ** Depth from discharge: the iteration budget of [hoq] *)

Lemma hoq_loop_budget tries q s0 Balv ANalv Nalv y dy n :
  let r := hoq_loop tries q s0 Balv ANalv Nalv y dy n in
  (iterations r <= n + length tries)%nat /\
  (converged r = false -> iterations r = (n + length tries)%nat) /\
  (converged r = true -> Rabs (correction r) < hoq_eps) /\
  (converged r = false -> tries <> [] -> ~ Rabs (correction r) < hoq_eps).
Proof.
  revert y dy n. induction tries as [|t tries IH]; intros y dy n; cbn [hoq_loop length].
  - cbn [iterations converged correction]. split; [lia|]. split; [intros _; lia|]. split; [discriminate|].
    intros _ Hne. congruence.
  - destruct (hoq_step q s0 Balv ANalv Nalv y) as [dy' y'].
    destruct (Rlt_dec (Rabs dy') hoq_eps) as [Hlt|Hge];
      cbn [iterations converged correction].
    + split; [lia|]. split; [discriminate|]. split; [intros _; exact Hlt|].
      discriminate.
    + destruct (IH y' dy' (S n)) as (Hle & Hexh & Hconv & Hlast).
      split; [lia|]. split; [intros Hc; rewrite (Hexh Hc); lia|].
      split; [exact Hconv|].
      intros Hc _. destruct tries as [|t' tries'].
      * cbn [hoq_loop correction]. exact Hge.
      * apply Hlast; [exact Hc | discriminate].
Qed.

Lemma hoq_loop_positive t tries q s0 Balv ANalv Nalv y dy n :
  (n < iterations (hoq_loop (t :: tries) q s0 Balv ANalv Nalv y dy n))%nat.
Proof.
  cbn [hoq_loop]. destruct (hoq_step q s0 Balv ANalv Nalv y) as [dy' y'].
  destruct (Rlt_dec (Rabs dy') hoq_eps) as [Hlt|_]; cbn [iterations]; [lia|].
  revert y' dy' n. induction tries as [|t' tries IH]; intros y' dy' n;
    cbn [hoq_loop iterations]; [lia|].
  destruct (hoq_step q s0 Balv ANalv Nalv y') as [dy'' y''].
  destruct (Rlt_dec (Rabs dy'') hoq_eps); cbn [iterations]; [lia|].
  specialize (IH y'' dy'' (S n)). lia.
Qed.

(** C6. [hoq] is total and returns the depth reached by its Newton-Raphson
    loop; the loop leaves early exactly when the last correction is below
    [1e-6], and otherwise runs through [range(1, max_tries)], which is 999
    bodies for [max_tries = 1000]: a 1000th iteration is never made. *)
Theorem hoq_iteration_budget (q s0 Balv ANalv Nalv : R) :
  let r := hoq_run q s0 Balv ANalv Nalv in
  hoq q s0 Balv ANalv Nalv = depth r /\
  (1 <= iterations r <= 999)%nat /\
  (iterations r < max_tries)%nat /\
  (converged r = true -> Rabs (correction r) < 1e-6) /\
  (converged r = false -> iterations r = 999%nat /\ ~ Rabs (correction r) < 1e-6).
Proof.
  intros r. subst r. unfold hoq, hoq_run.
  pose proof (hoq_loop_budget hoq_tries q s0 Balv ANalv Nalv
                (hoq_guess q s0 Balv ANalv Nalv) 0 0) as (Hle & Hexh & Hconv & Hlast).
  pose proof (hoq_loop_positive 1%nat (seq 2 998) q s0 Balv ANalv Nalv
                (hoq_guess q s0 Balv ANalv Nalv) 0 0) as Hpos.
  change (1%nat :: seq 2 998) with hoq_tries in Hpos.
  assert (Hlen : length hoq_tries = 999%nat) by reflexivity.
  rewrite Hlen in Hle, Hexh. unfold max_tries. unfold hoq_eps in Hconv, Hlast.
  split; [reflexivity|]. split; [lia|]. split; [lia|]. split; [exact Hconv|].
  intros Hc. split; [rewrite (Hexh Hc); reflexivity|].
  apply Hlast; [exact Hc|]. discriminate.
Qed.

(** No input makes [hoq] perform [max_tries] iterations. *)
Lemma hoq_never_max_tries :
  ~ exists q s0 Balv ANalv Nalv, iterations (hoq_run q s0 Balv ANalv Nalv) = max_tries.
Proof.
  intros (q & s0 & Balv & ANalv & Nalv & Hn).
  pose proof (hoq_loop_budget hoq_tries q s0 Balv ANalv Nalv
                (hoq_guess q s0 Balv ANalv Nalv) 0 0) as (Hle & _).
  unfold hoq_run in Hn. rewrite Hn in Hle.
  change (length hoq_tries) with 999%nat in Hle. unfold max_tries in Hle. lia.
Qed.

(** ** Guards of the MCT pixel update *)

Lemma mct_eps_pos : 0 < mct_eps.
Proof. unfold mct_eps. lra. Qed.

Lemma reference_guard_spec (avg : R) :
  reference_guarded avg (if Req_dec_T avg 0 then mct_eps else avg).
Proof.
  unfold reference_guarded, mct_eps.
  destruct (Req_dec_T avg 0) as [Hz|Hnz]; repeat split; intros; try lra; try contradiction.
Qed.

Lemma mct_refine_guarded q10 q01 q00 ql Cm0 Dm0 dt xpix s0 Balv ANalv Nalv q11in :
  pass_guarded q10 q01 q00 s0 Balv ANalv Nalv q11in
    (mct_refine q10 q01 q00 ql Cm0 Dm0 dt xpix s0 Balv ANalv Nalv q11in).
Proof.
  unfold pass_guarded, mct_refine.
  destruct (qoh _ s0 Balv ANalv Nalv) as [[[[dummy Ax1] Bx1] Px1] ck].
  cbn [qmx0 hmx0 qmx1 hmx1 qm1 hm1 q11_raw q11].
  split; [apply reference_guard_spec|]. split; [reflexivity|].
  split; [apply reference_guard_spec|]. split; [reflexivity|].
  split; [apply reference_guard_spec|]. split; [reflexivity|].
  match goal with
  | |- context [Rlt_dec ?raw 0] => destruct (Rlt_dec raw 0) as [Hneg|Hpos]
  end.
  - split; [intros _; unfold mct_eps; split; lra | intros Hge; lra].
  - split; [intros Hlt; contradiction | intros _; reflexivity].
Qed.

(** C5. In both refinement passes of [MCTRouting_single] the averaged inflow
    reference [qmx0], the averaged outflow reference [qmx1] and the reference
    at t+dt [qm1] are replaced by [1e-6] when they are exactly zero, [hoq] is
    applied to the guarded values, and a negative Muskingum update [q11] is
    replaced by [1e-6] (not by zero); the outflow returned is the one of the
    second pass. *)
Theorem mct_single_guards (q10 q01 q00 ql Cm0 Dm0 dt xpix s0 Balv ANalv Nalv : R) :
  let passes := mct_passes q10 q01 q00 ql Cm0 Dm0 dt xpix s0 Balv ANalv Nalv in
  pass_guarded q10 q01 q00 s0 Balv ANalv Nalv (mct_first_guess q10 q01 q00) passes.1 /\
  pass_guarded q10 q01 q00 s0 Balv ANalv Nalv (q11 passes.1) passes.2 /\
  (MCTRouting_single q10 q01 q00 ql Cm0 Dm0 dt xpix s0 Balv ANalv Nalv).1.1.1 = q11 passes.2.
Proof.
  intros passes. subst passes. unfold mct_passes. cbn [fst snd].
  split; [apply mct_refine_guarded|]. split; [apply mct_refine_guarded|].
  reflexivity.
Qed.

(** The two results of the pixel update that are routed on: outflow and
    storage are never negative. *)
Lemma mct_refine_q11_nonneg q10 q01 q00 ql Cm0 Dm0 dt xpix s0 Balv ANalv Nalv q11in :
  0 <= q11 (mct_refine q10 q01 q00 ql Cm0 Dm0 dt xpix s0 Balv ANalv Nalv q11in).
Proof.
  destruct (mct_refine_guarded q10 q01 q00 ql Cm0 Dm0 dt xpix s0 Balv ANalv Nalv q11in)
    as (_ & _ & _ & _ & _ & _ & Hneg & Hpos).
  destruct (Rlt_dec (q11_raw (mct_refine q10 q01 q00 ql Cm0 Dm0 dt xpix s0 Balv ANalv
                                Nalv q11in)) 0) as [Hlt|Hge].
  - destruct (Hneg Hlt) as [-> _]. lra.
  - rewrite Hpos by lra. lra.
Qed.

Lemma MCTRouting_single_nonneg q10 q01 q00 ql Cm0 Dm0 dt xpix s0 Balv ANalv Nalv :
  let r := MCTRouting_single q10 q01 q00 ql Cm0 Dm0 dt xpix s0 Balv ANalv Nalv in
  0 <= r.1.1.1 /\ 0 <= r.1.1.2.
Proof.
  unfold MCTRouting_single, mct_passes. cbn [fst snd]. split.
  - apply mct_refine_q11_nonneg.
  - match goal with
    | |- context [Rlt_dec ?v 0] => destruct (Rlt_dec v 0) as [Hneg|Hpos]
    end; lra.
Qed.

(** ** Elementwise operators: lookups *)

Ltac arr_unfold :=
  unfold np_where, np_where_s, np_maximum, np_abs, vgt, vgt_s, vlt_s, veq_s,
    vadd, vsub, vmul, vdiv, vpow, sdiv, vscale in *.

(** Decompose every lookup in an elementwise expression into the lookups of
    its operands. *)
Ltac arr_inv :=
  repeat match goal with
    | H : zip_with _ _ _ !! _ = Some _ |- _ =>
        apply lookup_zip_with_Some in H; destruct H as (? & ? & ? & ? & ?)
    | H : (_ <$> _) !! _ = Some _ |- _ =>
        apply list_lookup_fmap_Some in H; destruct H as (? & ? & ?)
    end;
  simplify_eq.

(** Compute the lookup of an elementwise expression from the lookups of its
    operands found among the hypotheses. *)
Ltac arr_eval :=
  repeat first
    [ rewrite lookup_zip_with
    | rewrite list_lookup_fmap
    | match goal with
      | H : ?l !! ?i = Some _ |- context [?l !! ?i] => rewrite H
      end
    | progress cbn [mbind option_bind fmap option_fmap option_map fst snd] ].

(** ** The power [**] *)

Lemma npow_nonneg x y : 0 <= x -> 0 <= npow x y.
Proof.
  intros Hx. unfold npow. destruct (Req_dec_T y 0); [lra|].
  destruct (Req_dec_T x 0); [lra|].
  destruct (Rlt_dec 0 x); [|lra].
  unfold Rpower. left. apply exp_pos.
Qed.

Lemma npow_zero y : y <> 0 -> npow 0 y = 0.
Proof.
  intros Hy. unfold npow. destruct (Req_dec_T y 0); [contradiction|].
  destruct (Req_dec_T 0 0); [reflexivity|contradiction].
Qed.

Lemma npow_pos x y : 0 < x -> y <> 0 -> npow x y = Rpower x y.
Proof.
  intros Hx Hy. unfold npow. destruct (Req_dec_T y 0); [contradiction|].
  destruct (Req_dec_T x 0); [lra|].
  destruct (Rlt_dec 0 x); [reflexivity|contradiction].
Qed.

Lemma whole_IZR (k : Z) : Int_part (IZR k) = k /\ frac_part (IZR k) = 0.
Proof.
  destruct (Int_part_frac_part_spec (IZR k) k 0) as [Hi Hf]; [lra | lra |].
  split; congruence.
Qed.

(** The exponent 1 is the identity, also on negative numbers. *)
Lemma npow_1 x : npow x 1 = x.
Proof.
  unfold npow. destruct (Req_dec_T 1 0); [lra|].
  destruct (Req_dec_T x 0) as [->|Hnz]; [reflexivity|].
  destruct (Rlt_dec 0 x) as [Hpos|Hneg]; [apply Rpower_1; exact Hpos|].
  destruct (whole_IZR 1) as [Hi Hf]. rewrite Hi, Hf.
  destruct (Req_dec_T 0 0); [|contradiction]. cbn [Z.even].
  rewrite Rpower_1 by lra. ring.
Qed.

Lemma npow_finite_nonneg x y : 0 <= x -> 0 <= y -> npow_finite x y.
Proof.
  intros Hx Hy. unfold npow_finite.
  destruct (Req_dec_T x 0) as [->|Hnz]; [right; left; split; [reflexivity|exact Hy]|].
  left. lra.
Qed.

(** Every power with a whole non-negative exponent is finite. *)
Lemma npow_finite_whole x (k : Z) : (0 <= k)%Z -> npow_finite x (IZR k).
Proof.
  intros Hk. apply IZR_le in Hk. unfold npow_finite.
  destruct (Rlt_dec 0 x); [left; assumption|].
  destruct (Req_dec_T x 0) as [->|Hnz]; [right; left; split; [reflexivity|exact Hk]|].
  right. right. split; [lra | apply whole_IZR].
Qed.

(** Raising to [1 / b] and then to [b] is the identity on non-negative
    numbers. *)
Lemma npow_inverse x b : 0 <= x -> b <> 0 -> npow (npow x (1 / b)) b = x.
Proof.
  intros Hx Hb.
  assert (Hib : 1 / b <> 0).
  { unfold Rdiv. rewrite Rmult_1_l. apply Rinv_neq_0_compat. exact Hb. }
  destruct (Req_dec_T x 0) as [->|Hnz].
  - rewrite (npow_zero _ Hib). apply npow_zero. exact Hb.
  - assert (Hpos : 0 < x) by lra.
    rewrite (npow_pos x _ Hpos Hib).
    assert (Hp : 0 < Rpower x (1 / b)) by (unfold Rpower; apply exp_pos).
    rewrite (npow_pos _ _ Hp Hb), Rpower_mult.
    replace (1 / b * b) with 1 by (field; exact Hb).
    apply Rpower_1. exact Hpos.
Qed.

Lemma Forall_vpow_nonneg a b : Forall (Rle 0) a -> Forall (Rle 0) (a .^ b)%arr.
Proof.
  rewrite !Forall_lookup. intros Ha i x Hx. arr_unfold. arr_inv.
  apply npow_nonneg. eauto.
Qed.

Lemma Forall_vmul_nonneg a b :
  Forall (Rle 0) a -> Forall (Rle 0) b -> Forall (Rle 0) (a .* b)%arr.
Proof.
  rewrite !Forall_lookup. intros Ha Hb i x Hx. arr_unfold. arr_inv.
  apply Rmult_le_pos; eauto.
Qed.

Lemma Forall_sdiv_nonneg a : Forall (Rlt 0) a -> Forall (Rle 0) (sdiv 1 a).
Proof.
  rewrite !Forall_lookup. intros Ha i x Hx. arr_unfold. arr_inv.
  left. apply Rdiv_lt_0_compat; [lra | eauto].
Qed.

Lemma Forall_np_maximum_nonneg a : Forall (Rle 0) (np_maximum a 0).
Proof.
  apply Forall_lookup. intros i x Hx. arr_unfold. arr_inv. apply Rmax_r.
Qed.

Lemma Forall_np_where (P : R -> Prop) c a b :
  Forall P a -> Forall P b -> Forall P (np_where c a b).
Proof.
  rewrite !Forall_lookup. intros Ha Hb i x Hx. arr_unfold. arr_inv.
  match goal with
  | |- P (if ?c then _ else _) => destruct c
  end; cbn [fst snd]; eauto.
Qed.

Lemma Forall_explode (P : R -> Prop) mask var :
  P 0 -> Forall P var -> Forall P (explode mask var).
Proof.
  intros H0. revert var. induction mask as [|[] mask IH]; intros var Hvar; simpl.
  - constructor.
  - constructor; auto.
  - destruct Hvar as [|x var Hx Hvar]; constructor; auto.
Qed.

Lemma Forall_put_mct_pix (P : R -> Prop) mask var full :
  P 0 -> Forall P var -> put_mct_pix mask var = Some full -> Forall P full.
Proof.
  intros H0 Hvar. unfold put_mct_pix.
  destruct (decide (length var = count_mct mask)).
  - intros [= <-]. apply Forall_explode; assumption.
  - destruct var as [|x [|y var]]; try discriminate.
    intros [= <-]. apply Forall_explode; [assumption|].
    apply Forall_replicate. inversion Hvar; assumption.
Qed.

(** ** Kinematic wave router *)

Section KinematicProps.
Context `{KinematicWave}.

(** The storage returned by [KINRouting] is not negative, whatever the solver
    returns: this is the clamp. *)
Lemma KINRouting_storage_nonneg m Q S : Forall (Rle 0) (KINRouting m Q S).2.
Proof. unfold KINRouting. cbn [fst snd]. apply Forall_np_maximum_nonneg. Qed.

Lemma KINRouting_nonneg m Q S :
  maps_physical m ->
  Forall (Rle 0) (KINRouting m Q S).1 /\ Forall (Rle 0) (KINRouting m Q S).2.
Proof.
  intros (_ & HL & HA & _). split; [|apply KINRouting_storage_nonneg].
  unfold KINRouting. cbn [fst snd].
  apply Forall_vpow_nonneg. unfold InvChanLength, InvChannelAlpha.
  repeat apply Forall_vmul_nonneg;
    [apply Forall_np_maximum_nonneg | apply Forall_sdiv_nonneg..]; assumption.
Qed.

(** C2. For every pixel with positive channel length, alpha and exponent
    beta, at which the solver returns a discharge [q'] whose power
    [q' ** Beta] is finite, the pair returned by [KINRouting] satisfies
    [storage = ChanLength * ChannelAlpha * discharge ** Beta]: the storage is
    the routed volume [ChanLength * ChannelAlpha * q' ** Beta] clamped at
    zero, and the discharge is recomputed from the clamped volume.  Where the
    routed volume is negative, storage and discharge are both zero; where the
    solver's discharge is not negative, it is returned unchanged. *)
Theorem KINRouting_consistent (m : Maps) (Q S : list R) (i : nat) (l a b q' q v : R) :
  ChanLength m !! i = Some l ->
  ChannelAlpha m !! i = Some a ->
  Beta m !! i = Some b ->
  0 < l -> 0 < a -> 0 < b ->
  kinematicWaveRouting Q S main_channel !! i = Some q' ->
  npow_finite q' b ->
  (KINRouting m Q S).1 !! i = Some q ->
  (KINRouting m Q S).2 !! i = Some v ->
  0 <= v /\ 0 <= q /\
  v = l * a * npow q b /\
  q = npow (v * (1 / l) * (1 / a)) (1 / b) /\
  v = Rmax (l * a * npow q' b) 0 /\
  (npow q' b < 0 -> v = 0 /\ q = 0) /\
  (0 <= q' -> q = q').
Proof.
  intros Hl Ha Hb Hlpos Hapos Hbpos Hq' Hfin Hq Hv.
  assert (Hbnz : b <> 0) by lra.
  assert (Hib : 1 / b <> 0).
  { unfold Rdiv. rewrite Rmult_1_l. apply Rinv_neq_0_compat. exact Hbnz. }
  unfold KINRouting, InvBeta, InvChanLength, InvChannelAlpha in Hq, Hv.
  cbn [fst snd] in Hq, Hv. arr_unfold. arr_inv.
  set (v := Rmax (l * a * npow q' b) 0).
  assert (Hv0 : 0 <= v) by apply Rmax_r.
  assert (Hbase : v * (1 / l) * (1 / a) = v / (l * a)) by (field; lra).
  assert (Hbase0 : 0 <= v / (l * a)).
  { apply Rmult_le_pos; [exact Hv0|]. left. apply Rinv_0_lt_compat. nra. }
  split; [exact Hv0|].
  split; [rewrite Hbase; apply npow_nonneg; exact Hbase0|].
  split; [rewrite Hbase, npow_inverse by assumption; field; lra|].
  split; [reflexivity|]. split; [reflexivity|]. split.
  - intros Hneg.
    assert (Hv' : v = 0).
    { unfold v. apply Rmax_right.
      assert (Hla : 0 < l * a) by (apply Rmult_lt_0_compat; assumption).
      set (p := npow q' b) in *. nra. }
    split; [exact Hv'|]. rewrite Hv'.
    replace (0 * (1 / l) * (1 / a)) with 0 by (field; lra).
    apply npow_zero. exact Hib.
  - intros Hq0.
    assert (Hp : 0 <= npow q' b) by (apply npow_nonneg; exact Hq0).
    assert (Hv' : v = l * a * npow q' b).
    { unfold v. apply Rmax_left. apply Rmult_le_pos; [|exact Hp].
      left. apply Rmult_lt_0_compat; assumption. }
    rewrite Hv'.
    replace (l * a * npow q' b * (1 / l) * (1 / a)) with (npow q' b) by (field; lra).
    destruct (Req_dec_T q' 0) as [->|Hnz].
    + rewrite (npow_zero _ Hbnz). apply npow_zero. exact Hib.
    + assert (Hpos : 0 < q') by lra.
      rewrite (npow_pos q' b Hpos Hbnz).
      assert (Hpp : 0 < Rpower q' b) by (unfold Rpower; apply exp_pos).
      rewrite (npow_pos _ _ Hpp Hib), Rpower_mult.
      replace (b * (1 / b)) with 1 by (field; exact Hbnz).
      apply Rpower_1. exact Hpos.
Qed.

End KinematicProps.

Lemma sample_maps_linear_physical : maps_physical sample_maps_linear.
Proof. repeat split; repeat constructor; lra. Qed.

Lemma sample_router_finite `{KinematicWave} : router_finite sample_maps_linear.
Proof.
  intros Q S sec i q b _ Hb.
  assert (b = IZR 1) as ->.
  { destruct i as [|[|i]]; cbn in Hb; simplify_eq; reflexivity. }
  apply npow_finite_whole. lia.
Qed.

(** The clamp at work: a solver discharge of -1 at a pixel with exponent 1
    is a routed volume of -2000, committed as storage 0 and discharge 0. *)
Lemma KINRouting_clamps_negative_volume :
  (@KINRouting sample_router sample_maps_linear [-1; 1] [0; 0]).2 !! 0%nat = Some 0 /\
  (@KINRouting sample_router sample_maps_linear [-1; 1] [0; 0]).1 !! 0%nat = Some 0.
Proof.
  assert (HV : Rmax (1000 * 2 * npow (-1 + 0) 1) 0 = 0).
  { rewrite npow_1. apply Rmax_right. lra. }
  unfold KINRouting, InvBeta, InvChanLength, InvChannelAlpha. cbn [fst snd].
  unfold np_maximum, vpow, vmul, sdiv. cbn.
  rewrite HV. split; [reflexivity|]. f_equal.
  rewrite !Rmult_0_l. apply npow_zero. lra.
Qed.

Lemma KINRouting_consistent_witness :
  exists q v,
    (ChanLength sample_maps_linear !! 0%nat = Some 1000 /\
     ChannelAlpha sample_maps_linear !! 0%nat = Some 2 /\
     Beta sample_maps_linear !! 0%nat = Some 1 /\
     0 < 1000 /\ 0 < 2 /\ 0 < 1 /\
     @kinematicWaveRouting sample_router [-1; 1] [0; 0] main_channel !! 0%nat
       = Some (-1 + 0) /\
     npow_finite (-1 + 0) 1 /\
     (@KINRouting sample_router sample_maps_linear [-1; 1] [0; 0]).1 !! 0%nat = Some q /\
     (@KINRouting sample_router sample_maps_linear [-1; 1] [0; 0]).2 !! 0%nat = Some v) /\
    (0 <= v /\ 0 <= q /\
     v = 1000 * 2 * npow q 1 /\
     q = npow (v * (1 / 1000) * (1 / 2)) (1 / 1) /\
     v = Rmax (1000 * 2 * npow (-1 + 0) 1) 0 /\
     (npow (-1 + 0) 1 < 0 -> v = 0 /\ q = 0) /\
     (0 <= -1 + 0 -> q = -1 + 0)).
Proof.
  assert (Hfin : npow_finite (-1 + 0) 1) by (apply (npow_finite_whole _ 1); lia).
  eexists _, _. split.
  - repeat split; try reflexivity; try lra. exact Hfin.
  - apply (@KINRouting_consistent sample_router sample_maps_linear [-1; 1] [0; 0] 0%nat
             1000 2 1 (-1 + 0)); try reflexivity; try lra. exact Hfin.
Defined.


(** ** Split routing *)

Section SplitProps.
Context `{KinematicWave}.

Lemma split_Chan2M3Kin_floor (m : Maps) (v : Var) (S : list R) (i : nat) (x s : R) :
  Chan2M3Kin (SplitRouting m v S) !! i = Some x ->
  Chan2M3Start m !! i = Some s -> s <= x.
Proof.
  unfold SplitRouting. cbn [Chan2M3Kin]. intros Hx Hs.
  unfold np_where, vlt_s, vsub in Hx. arr_inv.
  unfold Rltb. cbn [fst snd].
  match goal with
  | |- context [Rlt_dec ?d 0] => destruct (Rlt_dec d 0)
  end; lra.
Qed.

Lemma split_Chan2M3Kin_start (m : Maps) (v : Var) (S : list R) (i : nat) (x : R) :
  Chan2M3Kin (SplitRouting m v S) !! i = Some x ->
  exists s, Chan2M3Start m !! i = Some s.
Proof.
  unfold SplitRouting. cbn [Chan2M3Kin]. intros Hx.
  unfold np_where, vlt_s, vsub in Hx. arr_inv. eauto.
Qed.

(** C9. After [SplitRouting] the storage of the floodplain line is, at every
    pixel, at least its bankfull-start volume [Chan2M3Start]. *)
Theorem split_floodplain_floor (m : Maps) (v : Var) (S : list R) (i : nat) (x : R) :
  Chan2M3Kin (SplitRouting m v S) !! i = Some x ->
  exists s, Chan2M3Start m !! i = Some s /\ s <= x.
Proof.
  intros Hx. destruct (split_Chan2M3Kin_start m v S i x Hx) as [s Hs].
  exists s. split; [exact Hs|]. eapply split_Chan2M3Kin_floor; eassumption.
Qed.

Lemma split_ChanM3Kin_nonneg m v S : Forall (Rle 0) (ChanM3Kin (SplitRouting m v S)).
Proof. unfold SplitRouting. cbn [ChanM3Kin]. apply Forall_np_maximum_nonneg. Qed.

Lemma split_ChanQKin_nonneg m v S :
  maps_physical m -> Forall (Rle 0) (ChanQKin (SplitRouting m v S)).
Proof.
  intros (_ & HL & HA & _). unfold SplitRouting. cbn [ChanQKin].
  apply Forall_vpow_nonneg. unfold InvChanLength, InvChannelAlpha.
  repeat apply Forall_vmul_nonneg;
    [apply Forall_np_maximum_nonneg | apply Forall_sdiv_nonneg..]; assumption.
Qed.

(** With a non-negative bankfull discharge the bankfull-start volume is not
    negative, and so is the floored storage of the floodplain line. *)
Lemma split_Chan2M3Kin_nonneg m v S :
  maps_physical m -> Forall (Rle 0) (Chan2M3Kin (SplitRouting m v S)).
Proof.
  intros (_ & HL & _ & HA2 & HQ). apply Forall_lookup. intros i x Hx.
  destruct (split_Chan2M3Kin_start m v S i x Hx) as [s Hs].
  pose proof (split_Chan2M3Kin_floor m v S i x s Hx Hs) as Hfloor.
  rewrite Forall_lookup in HL, HA2, HQ.
  unfold Chan2M3Start, vmul, vpow in Hs. arr_inv.
  match type of Hfloor with
  | ?a2 * ?l * npow ?ql ?b <= _ =>
      assert (0 <= npow ql b) by (apply npow_nonneg; eauto);
      assert (0 < a2) by eauto; assert (0 < l) by eauto;
      assert (0 <= a2 * l * npow ql b) by
        (apply Rmult_le_pos; [apply Rmult_le_pos; lra | assumption])
  end.
  lra.
Qed.

Lemma split_Chan2QKin_nonneg m v S :
  maps_physical m -> Forall (Rle 0) (Chan2QKin (SplitRouting m v S)).
Proof.
  intros Hm. pose proof (split_Chan2M3Kin_nonneg m v S Hm) as HV2.
  destruct Hm as (_ & HL & _ & HA2 & _).
  unfold SplitRouting in HV2 |- *. cbn [Chan2QKin Chan2M3Kin] in HV2 |- *.
  apply Forall_vpow_nonneg. unfold InvChanLength, InvChannelAlpha2.
  repeat apply Forall_vmul_nonneg;
    [exact HV2 | apply Forall_sdiv_nonneg..]; assumption.
Qed.

(** The bankfull volumes of [initialSecond] are non-negative wherever channel
    length, the two alpha coefficients and the bankfull discharge are. *)
Lemma bankfull_volumes_nonneg (m : Maps) (i : nat) (len a a2 ql c l : R) :
  ChanLength m !! i = Some len -> ChannelAlpha m !! i = Some a ->
  ChannelAlpha2 m !! i = Some a2 -> QLimit m !! i = Some ql ->
  0 <= len -> 0 <= a -> 0 <= a2 -> 0 <= ql ->
  Chan2M3Start m !! i = Some c -> M3Limit m !! i = Some l ->
  0 <= c /\ 0 <= l.
Proof.
  intros Hlen Ha Ha2 Hql Hlen0 Ha0 Ha20 Hql0 Hc Hl.
  unfold Chan2M3Start, M3Limit, vmul, vpow in Hc, Hl. arr_inv.
  split; (apply Rmult_le_pos;
          [apply Rmult_le_pos; assumption | apply npow_nonneg; assumption]).
Qed.

(** C8. Partition of the lateral inflow [s] of a pixel by [SplitRouting],
    with [a], [b] the storages of the main and the floodplain line, [c] the
    bankfull-start volume and [l] the bankfull threshold [M3Limit]: an inflow
    of magnitude below [1e-7] goes to the main channel; otherwise, when the
    total storage [a + b - c] exceeds [l], the main channel receives the
    fraction [a / (a + b)] and the floodplain line the rest, and when it does
    not the main channel receives it all.  The guard [a + b > 0] of the ratio
    always holds in the proportional case when the two bankfull volumes are
    non-negative. *)
Theorem split_sideflow_partition (m : Maps) (v : Var) (S : list R) (i : nat)
    (a b s c l : R) :
  ChanM3Kin v !! i = Some a ->
  Chan2M3Kin v !! i = Some b ->
  S !! i = Some s ->
  Chan2M3Start m !! i = Some c ->
  M3Limit m !! i = Some l ->
  exists s1,
    Sideflow1Chan (SplitRouting m v S) !! i = Some s1 /\
    (Rabs s < 1e-7 -> s1 = s) /\
    (~ Rabs s < 1e-7 -> a + b - c > l ->
       (0 <= c -> 0 <= l -> 0 < a + b) /\
       (0 < a + b -> s1 = a / (a + b) * s /\ s - s1 = b / (a + b) * s) /\
       (a + b <= 0 -> s1 = 0)) /\
    (~ Rabs s < 1e-7 -> ~ a + b - c > l -> s1 = s) /\
    (forall k len, Chan2QStart m !! i = Some k -> ChanLength m !! i = Some len ->
       split_sideflow2 m S (split_sideflow1 m v S) !! i = Some (s - s1 + k * (1 / len))).
Proof.
  intros Ha Hb Hs Hc Hl.
  assert (Hs1 : exists s1, split_sideflow1 m v S !! i = Some s1 /\
    (Rabs s < 1e-7 -> s1 = s) /\
    (~ Rabs s < 1e-7 -> a + b - c > l ->
       (0 <= c -> 0 <= l -> 0 < a + b) /\
       (0 < a + b -> s1 = a / (a + b) * s /\ s - s1 = b / (a + b) * s) /\
       (a + b <= 0 -> s1 = 0)) /\
    (~ Rabs s < 1e-7 -> ~ a + b - c > l -> s1 = s)).
  { unfold split_sideflow1.
    unfold np_where, np_where_s, np_abs, vgt, vgt_s, vlt_s, vadd, vsub, vmul, vdiv.
    eexists. split; [arr_eval; reflexivity|].
    unfold Rltb, Rgtb. cbn [fst snd].
    destruct (Rlt_dec (Rabs s) 1e-7) as [Hsmall|Hbig].
    - split; [reflexivity|]. split; intros; contradiction.
    - split; [intros; contradiction|].
      destruct (Rgt_dec (a + b - c) l) as [Hover|Hunder].
      + split; [|intros; contradiction]. intros _ _.
        split; [intros; lra|].
        destruct (Rgt_dec (a + b) 0) as [Hsum|Hsum].
        * split; [|intros; lra]. intros _. split; [reflexivity|]. field. lra.
        * split; [intros; lra|]. intros _. lra.
      + split; [intros; contradiction|]. reflexivity. }
  destruct Hs1 as (s1 & Hs1 & Hsmall & Hover & Hunder).
  exists s1. unfold SplitRouting. cbn [Sideflow1Chan].
  split; [exact Hs1|]. split; [exact Hsmall|]. split; [exact Hover|].
  split; [exact Hunder|].
  intros k len Hk Hlen. unfold split_sideflow2, InvChanLength, vadd, vsub, vmul, sdiv.
  arr_eval. reflexivity.
Qed.

End SplitProps.

Lemma split_sideflow_partition_witness :
  exists a b s c l,
    (ChanM3Kin sample_var !! 0%nat = Some a /\
     Chan2M3Kin sample_var !! 0%nat = Some b /\
     [5; 0] !! 0%nat = Some s /\
     Chan2M3Start sample_maps !! 0%nat = Some c /\
     M3Limit sample_maps !! 0%nat = Some l) /\
    exists s1,
      Sideflow1Chan (@SplitRouting sample_router sample_maps sample_var [5; 0]) !! 0%nat
        = Some s1 /\
      (Rabs s < 1e-7 -> s1 = s) /\
      (~ Rabs s < 1e-7 -> a + b - c > l ->
         (0 <= c -> 0 <= l -> 0 < a + b) /\
         (0 < a + b -> s1 = a / (a + b) * s /\ s - s1 = b / (a + b) * s) /\
         (a + b <= 0 -> s1 = 0)) /\
      (~ Rabs s < 1e-7 -> ~ a + b - c > l -> s1 = s) /\
      (forall k len, Chan2QStart sample_maps !! 0%nat = Some k ->
         ChanLength sample_maps !! 0%nat = Some len ->
         split_sideflow2 sample_maps [5; 0]
           (@split_sideflow1 sample_maps sample_var [5; 0]) !! 0%nat
         = Some (s - s1 + k * (1 / len))).
Proof.
  eexists _, _, _, _, _. split.
  - split; [reflexivity|]. split; [reflexivity|]. split; [reflexivity|].
    split; reflexivity.
  - apply (@split_sideflow_partition sample_router sample_maps sample_var [5; 0] 0%nat);
      reflexivity.
Defined.

Lemma split_floodplain_floor_witness :
  exists x,
    Chan2M3Kin (@SplitRouting sample_router sample_maps sample_var [5; 0]) !! 1%nat = Some x /\
    exists s, Chan2M3Start sample_maps !! 1%nat = Some s /\ s <= x.
Proof.
  eexists. split; [reflexivity|].
  apply (@split_floodplain_floor sample_router sample_maps sample_var [5; 0] 1%nat).
  reflexivity.
Defined.

(** ** Recombination of the two routing lines *)

Section DynamicSplitProps.
Context `{KinematicWave} `{Pcraster}.


Lemma dynamic_split_ChanQ_nonneg m v S : Forall (Rle 0) (ChanQ (dynamic_split m v S)).
Proof. unfold dynamic_split. cbn [ChanQ]. apply Forall_np_maximum_nonneg. Qed.

Lemma dynamic_split_ChanM3_nonneg m v S : Forall (Rle 0) (ChanM3 (dynamic_split m v S)).
Proof.
  unfold dynamic_split. cbn [ChanM3]. apply Forall_lookup. intros i x Hx.
  unfold vsub, vadd in Hx. arr_inv.
  match goal with
  | Ha : ChanM3Kin _ !! i = Some ?a, Hb : Chan2M3Kin _ !! i = Some ?b,
    Hc : Chan2M3Start m !! i = Some ?c |- _ =>
      pose proof (proj1 (Forall_lookup _ _) (split_ChanM3Kin_nonneg m v S) i a Ha);
      pose proof (split_Chan2M3Kin_floor m v S i b c Hb Hc)
  end.
  lra.
Qed.


End DynamicSplitProps.


(** ** MCT pixel loop: results are non-negative and the loop succeeds on
    well-shaped inputs *)

Lemma foldM_invariant {A S : Type} (P : S -> Prop) (f : S -> A -> option S) :
  (forall s a s', P s -> f s a = Some s' -> P s') ->
  forall l s s', P s -> foldM f s l = Some s' -> P s'.
Proof.
  intros Hstep l. induction l as [|a l IH]; intros s s' Hs Hf; simpl in Hf.
  - injection Hf as <-. exact Hs.
  - destruct (f s a) as [s1|] eqn:Hfa; [|discriminate].
    simpl in Hf. eapply IH; [|exact Hf]. eapply Hstep; eassumption.
Qed.

Lemma foldM_total {A S : Type} (P : S -> Prop) (Q : A -> Prop) (f : S -> A -> option S) :
  (forall s a, P s -> Q a -> exists s', f s a = Some s' /\ P s') ->
  forall l s, P s -> Forall Q l -> exists s', foldM f s l = Some s' /\ P s'.
Proof.
  intros Hstep l. induction l as [|a l IH]; intros s Hs Hl; simpl.
  - exists s. split; [reflexivity | exact Hs].
  - inversion Hl as [|? ? Ha Hl']; subst.
    destruct (Hstep s a Hs Ha) as (s1 & -> & Hs1). simpl. apply IH; assumption.
Qed.

Lemma setitem_Some a i x a' :
  setitem a i x = Some a' -> a' = <[i := x]> a /\ (i < length a)%nat.
Proof.
  unfold setitem. destruct (decide (i < length a)%nat); [|discriminate].
  intros [= <-]. split; [reflexivity | assumption].
Qed.

Lemma setitem_lt a i x : (i < length a)%nat -> setitem a i x = Some (<[i := x]> a).
Proof. intros Hi. unfold setitem. rewrite decide_True by exact Hi. reflexivity. Qed.

Lemma mct_pixel_nonneg wave g st index st' :
  loop_nonneg st -> mct_pixel wave g st index = Some st' -> loop_nonneg st'.
Proof.
  intros [Hq HV]. unfold mct_pixel. intros Hst.
  repeat match type of Hst with
    | (?o ≫= _) = Some _ =>
        let x := fresh "x" in destruct o as [x|]; [cbn [mbind option_bind] in Hst | discriminate]
    end.
  match type of Hst with
  | context [MCTRouting_single ?a ?b ?c ?d ?e ?f0 ?g0 ?h ?i0 ?j ?k ?l] =>
      pose proof (MCTRouting_single_nonneg a b c d e f0 g0 h i0 j k l) as Hnn;
      destruct (MCTRouting_single a b c d e f0 g0 h i0 j k l) as [[[q11 V11] Cm1] Dm1]
  end.
  cbn [fst snd] in Hnn. destruct Hnn as [Hq11 HV11].
  destruct (setitem (l_q11 st) _ q11) as [q11s|] eqn:E1; [|discriminate].
  destruct (setitem (l_V11 st) _ V11) as [V11s|] eqn:E2; [|discriminate].
  cbn [mbind option_bind] in Hst.
  destruct (setitem (l_Cm0 st) _ Cm1) as [Cm0s|]; [|discriminate].
  destruct (setitem (l_Dm0 st) _ Dm1) as [Dm0s|]; [|discriminate].
  cbn [mbind option_bind] in Hst. injection Hst as <-.
  apply setitem_Some in E1 as [-> _]. apply setitem_Some in E2 as [-> _].
  split; cbn [l_q11 l_V11]; apply Forall_insert; assumption.
Qed.

Section MCTLoopProps.
Context `{Pcraster}.

Lemma mct_order_nonneg mask wave g st row st' :
  loop_nonneg st -> mct_order mask wave g st row = Some st' -> loop_nonneg st'.
Proof.
  intros Hst. unfold mct_order. destruct row as [first last]. intros Hrun.
  destruct (foldM (mct_pixel wave g) st (seq first (last - first))) as [st1|] eqn:Hfold;
    [|discriminate].
  cbn [mbind option_bind] in Hrun.
  assert (Hst1 : loop_nonneg st1).
  { eapply (foldM_invariant loop_nonneg); [|exact Hst|exact Hfold].
    intros s a s' Hs Hstep. eapply mct_pixel_nonneg; eassumption. }
  destruct (put_mct_pix mask (l_q11 st1)) as [Q11|]; [|discriminate].
  cbn [mbind option_bind] in Hrun.
  destruct (get_mct_pix mask _) as [q01|]; [|discriminate].
  cbn [mbind option_bind] in Hrun. injection Hrun as <-. exact Hst1.
Qed.

Lemma MCTRoutingLoop_nonneg m v wave Qout Qin Qkin Ql M3 Q V Cm Dm :
  MCTRoutingLoop m v wave Qout Qin Qkin Ql M3 = Some (Q, V, Cm, Dm) ->
  Forall (Rle 0) Q /\ Forall (Rle 0) V.
Proof.
  unfold MCTRoutingLoop. intros Hrun.
  repeat match type of Hrun with
    | (get_mct_pix ?a ?b ≫= _) = Some _ =>
        let x := fresh "x" in
        destruct (get_mct_pix a b) as [x|]; [cbn [mbind option_bind] in Hrun | discriminate]
    end.
  match type of Hrun with
  | (foldM ?f ?s ?l ≫= _) = Some _ =>
      destruct (foldM f s l) as [st|] eqn:Hfold; [|discriminate];
      assert (Hst : loop_nonneg st)
  end.
  { eapply (foldM_invariant loop_nonneg); [| |exact Hfold].
    - intros s a s' Hs Hstep. eapply mct_order_nonneg; eassumption.
    - split; cbn [l_q11 l_V11]; apply Forall_replicate; apply Rle_refl. }
  cbn [mbind option_bind] in Hrun. destruct Hst as [Hq HV].
  destruct (put_mct_pix _ (l_q11 st)) as [Q'|] eqn:EQ; [|discriminate].
  cbn [mbind option_bind] in Hrun.
  destruct (put_mct_pix _ (l_Cm0 st)) as [Cm'|]; [|discriminate].
  cbn [mbind option_bind] in Hrun.
  destruct (put_mct_pix _ (l_Dm0 st)) as [Dm'|]; [|discriminate].
  cbn [mbind option_bind] in Hrun.
  destruct (put_mct_pix _ (l_V11 st)) as [V'|] eqn:EV; [|discriminate].
  cbn [mbind option_bind] in Hrun. injection Hrun as <- <- <- <-.
  split.
  - apply (Forall_put_mct_pix (Rle 0) _ _ _ (Rle_refl 0) Hq EQ).
  - apply (Forall_put_mct_pix (Rle 0) _ _ _ (Rle_refl 0) HV EV).
Qed.

End MCTLoopProps.

Lemma length_compressed mask var :
  length mask = length var -> length (compressed mask var) = count_mct mask.
Proof.
  revert var. induction mask as [|b mask IH]; intros [|x var] Hlen;
    try discriminate; [reflexivity|].
  injection Hlen as Hlen.
  destruct b; cbn [compressed]; rewrite ?count_mct_cons_true, ?count_mct_cons_false;
    cbn [length]; rewrite IH by exact Hlen; reflexivity.
Qed.

Lemma get_mct_pix_shape mask var :
  length var = length mask ->
  exists y, get_mct_pix mask var = Some y /\ length y = count_mct mask.
Proof.
  intros Hlen. exists (compressed mask var). unfold get_mct_pix.
  rewrite decide_True by congruence. split; [reflexivity|].
  apply length_compressed. congruence.
Qed.

Lemma put_mct_pix_shape mask var :
  length var = count_mct mask ->
  exists y, put_mct_pix mask var = Some y /\ length y = length mask.
Proof.
  intros Hlen. exists (explode mask var). unfold put_mct_pix. cbn zeta.
  rewrite decide_True by exact Hlen. split; [reflexivity | apply length_explode].
Qed.

Lemma mct_pixel_total wave g st index n N :
  inputs_shape n g -> Forall (fun p => p < n)%nat (pixels_ordered wave) ->
  loop_shape n N st -> (index < length (pixels_ordered wave))%nat ->
  exists st', mct_pixel wave g st index = Some st' /\ loop_shape n N st'.
Proof.
  intros (Hx & Hs0 & HB & HA & HN & H00 & H10 & Hql) Hpix
         (Hq11 & HV11 & HCm & HDm & Hq01 & HQout) Hidx.
  destruct (lookup_lt_is_Some_2 _ _ Hidx) as [idpix Hid].
  assert (Hlt : (idpix < n)%nat).
  { apply (proj1 (Forall_lookup _ _) Hpix index idpix Hid). }
  unfold mct_pixel. rewrite Hid. cbn [mbind option_bind].
  repeat match goal with
    | |- context [?l !! idpix] =>
        let x := fresh "x" in
        destruct (lookup_lt_is_Some_2 l idpix ltac:(lia)) as [x ->];
        cbn [mbind option_bind]
    end.
  match goal with
  | |- context [MCTRouting_single ?a ?b ?c ?d ?e ?f0 ?g0 ?h ?i0 ?j ?k ?l] =>
      destruct (MCTRouting_single a b c d e f0 g0 h i0 j k l) as [[[q11 V11] Cm1] Dm1]
  end.
  rewrite !setitem_lt by lia. cbn [mbind option_bind].
  eexists. split; [reflexivity|].
  unfold loop_shape. cbn [l_q11 l_V11 l_Cm0 l_Dm0 l_q01 l_ChanQOut].
  rewrite !length_insert. auto 10.
Qed.

Section MCTLoopTotal.
Context `{Pcraster}.

Lemma mct_order_total mask wave g st row :
  upstream_shape ->
  inputs_shape (count_mct mask) g ->
  Forall (fun p => p < count_mct mask)%nat (pixels_ordered wave) ->
  loop_shape (count_mct mask) (length mask) st ->
  (row.2 <= length (pixels_ordered wave))%nat ->
  exists st', mct_order mask wave g st row = Some st' /\
              loop_shape (count_mct mask) (length mask) st'.
Proof.
  intros Hup Hg Hpix Hst Hrow. destruct row as [first last]. cbn [snd] in Hrow.
  unfold mct_order.
  assert (Hloop : exists st1,
            foldM (mct_pixel wave g) st (seq first (last - first)) = Some st1 /\
            loop_shape (count_mct mask) (length mask) st1).
  { apply (foldM_total (loop_shape (count_mct mask) (length mask))
             (fun idx => idx < length (pixels_ordered wave))%nat).
    - intros s a Hs Ha. eapply mct_pixel_total; eassumption.
    - exact Hst.
    - apply Forall_forall. intros idx Hin. apply elem_of_seq in Hin. lia. }
  destruct Hloop as (st1 & -> & Hst1).
  cbn [mbind option_bind].
  destruct Hst1 as (Hq11 & HV11 & HCm & HDm & Hq01 & HQout).
  destruct (put_mct_pix_shape mask (l_q11 st1) Hq11) as (Q11 & -> & HQ11).
  cbn [mbind option_bind].
  match goal with
  | |- context [get_mct_pix mask ?a] =>
      destruct (get_mct_pix_shape mask a) as (q01 & -> & Hq01')
  end.
  { rewrite Hup. unfold np_where, veq_s.
    rewrite !length_zip_with, length_fmap. lia. }
  cbn [mbind option_bind]. eexists. split; [reflexivity|].
  unfold loop_shape. cbn [l_q11 l_V11 l_Cm0 l_Dm0 l_q01 l_ChanQOut].
  repeat split; try assumption.
  unfold np_where, veq_s. rewrite !length_zip_with, length_fmap. lia.
Qed.

Lemma MCTRoutingLoop_total m v wave Qout Qin Qkin Ql M3 :
  let N := length (IsChannelKinematic v) in
  upstream_shape -> maps_shape N m -> var_shape N v ->
  wave_ok (count_mct (IsChannelKinematic v)) wave ->
  length Qout = N -> length Qin = N -> length Qkin = N -> length Ql = N ->
  length M3 = N ->
  exists Q V Cm Dm,
    MCTRoutingLoop m v wave Qout Qin Qkin Ql M3 = Some (Q, V, Cm, Dm) /\
    length Q = N /\ length V = N /\ length Cm = N /\ length Dm = N.
Proof.
  intros N Hup Hm Hv [Hrows Hpix] HQout HQin HQkin HQl HM3.
  destruct Hm as (_ & HL & _ & _ & _ & _ & _ & _ & HG & HB & HSd & HMan).
  destruct Hv as (_ & _ & _ & _ & _ & _ & _ & _ & _ & HCm & HDm).
  unfold MCTRoutingLoop. cbn zeta.
  repeat match goal with
    | |- context [get_mct_pix (IsChannelKinematic v) ?a ≫= _] =>
        let x := fresh "x" in let Hx := fresh "Hlen" in
        destruct (get_mct_pix_shape (IsChannelKinematic v) a) as (x & -> & Hx);
        [first [assumption | rewrite Hup; assumption] | cbn [mbind option_bind]]
    end.
  match goal with
  | |- context [foldM ?ff ?ss ?ll] =>
      assert (Hloop : exists st, foldM ff ss ll = Some st /\
                loop_shape (count_mct (IsChannelKinematic v)) N st)
  end.
  { apply (foldM_total (loop_shape (count_mct (IsChannelKinematic v)) N)
             (fun row : nat * nat => row.2 <= length (pixels_ordered wave))%nat).
    - intros s a Hs Ha. eapply mct_order_total; try eassumption.
      unfold inputs_shape. cbn [i_xpix i_s0 i_Balv i_ANalv i_Nalv i_q00 i_q10 i_ql].
      rewrite ?length_fmap. auto 10.
    - unfold loop_shape. cbn [l_q11 l_V11 l_Cm0 l_Dm0 l_q01 l_ChanQOut].
      rewrite ?length_replicate. auto 10.
    - exact Hrows. }
  destruct Hloop as (st & -> & Hst). cbn [mbind option_bind].
  destruct Hst as (Hq11 & HV11 & HCm' & HDm' & _ & _).
  destruct (put_mct_pix_shape _ _ Hq11) as (Q & -> & HQ). cbn [mbind option_bind].
  destruct (put_mct_pix_shape _ _ HCm') as (Cm & -> & HC). cbn [mbind option_bind].
  destruct (put_mct_pix_shape _ _ HDm') as (Dm & -> & HD). cbn [mbind option_bind].
  destruct (put_mct_pix_shape _ _ HV11) as (V & -> & HV). cbn [mbind option_bind].
  exists Q, V, Cm, Dm. auto.
Qed.

End MCTLoopTotal.

(** ** The routing sub-step *)

Section DynamicProps.
Context `{KinematicWave} `{Pcraster}.

Lemma length_KINRouting m Q S N :
  maps_shape N m -> router_shape N -> length Q = N -> length S = N ->
  length (KINRouting m Q S).1 = N /\ length (KINRouting m Q S).2 = N.
Proof.
  intros (HB & HL & HA & _) Hr HQ HS.
  specialize (Hr Q S main_channel HQ HS).
  unfold KINRouting, InvBeta, InvChanLength, InvChannelAlpha. cbn [fst snd].
  unfold np_maximum, vpow, vmul, sdiv.
  rewrite ?length_zip_with, ?length_fmap, ?length_zip_with. split; lia.
Qed.

Lemma dynamic_kinematic_nonneg m v S :
  maps_physical m ->
  Forall (Rle 0) (ChanQ (dynamic_kinematic m v S)) /\
  Forall (Rle 0) (ChanM3 (dynamic_kinematic m v S)).
Proof.
  intros Hm. unfold dynamic_kinematic.
  pose proof (KINRouting_nonneg m (ChanQKin v) S Hm) as Hnn.
  destruct (KINRouting m (ChanQKin v) S) as [Qend Vend]. exact Hnn.
Qed.

Lemma dynamic_mct_total wave m v S Sm :
  let N := length (IsChannelKinematic v) in
  maps_shape N m -> var_shape N v -> router_shape N -> upstream_shape ->
  wave_ok (count_mct (IsChannelKinematic v)) wave ->
  length S = N -> length Sm = N ->
  exists v', dynamic_mct wave m v S Sm = Some v' /\
             (maps_physical m -> Forall (Rle 0) (ChanQ v')) /\
             Forall (Rle 0) (ChanM3 v').
Proof.
  intros N Hm Hv Hr Hup Hw HS HSm.
  pose proof Hv as (_ & _ & _ & _ & HQ & HM3 & _ & _ & Hin & _).
  unfold dynamic_mct.
  pose proof (KINRouting_storage_nonneg m (ChanQ v) S) as HVk.
  pose proof (KINRouting_nonneg m (ChanQ v) S) as HQk.
  pose proof (length_KINRouting m (ChanQ v) S N Hm Hr HQ HS) as [HlQ HlV].
  destruct (KINRouting m (ChanQ v) S) as [Qend Vend]. cbn [fst snd] in *.
  destruct (MCTRoutingLoop_total m v wave (ChanQ v) (PrevQMCTin v) Qend Sm (ChanM3 v))
    as (Q & V & Cm & Dm & Hloop & _); try assumption.
  rewrite Hloop. cbn [mbind option_bind].
  destruct (MCTRoutingLoop_nonneg _ _ _ _ _ _ _ _ _ _ _ _ Hloop) as [HQm HVm].
  eexists. split; [reflexivity|]. cbn [ChanQ ChanM3].
  split; [intros Hphys; destruct (HQk Hphys) as [HQk' _]|];
    apply Forall_np_where; assumption.
Qed.

(** C1. With positive channel length, alpha coefficients and exponent, a
    bankfull discharge that is not negative and a solver whose discharges
    have a finite power, discharge and storage are non-negative after every
    router: the arrays returned by [KINRouting], whose storage is clamped at
    zero whatever the solver returns; the lines and the totals of split
    routing; the outflow and the volume returned by [MCTRouting_single]; and,
    whichever routing block of [dynamic] runs, the discharge [ChanQ] and the
    storage [ChanM3] committed by the sub-step, which completes without
    raising on maps of one shape. *)
Theorem routers_nonnegative (o : Options) (wave : MctWave) (m : Maps) (v : Var)
    (SideflowChanM3 : list R) :
  let N := length (IsChannelKinematic v) in
  maps_physical m -> router_finite m ->
  (forall Q S,
     Forall (Rle 0) (KINRouting m Q S).1 /\ Forall (Rle 0) (KINRouting m Q S).2) /\
  (forall S,
     let v2 := dynamic_split m v S in
     Forall (Rle 0) (ChanQKin v2) /\ Forall (Rle 0) (ChanM3Kin v2) /\
     Forall (Rle 0) (Chan2QKin v2) /\ Forall (Rle 0) (Chan2M3Kin v2) /\
     Forall (Rle 0) (ChanQ v2) /\ Forall (Rle 0) (ChanM3 v2)) /\
  (forall q10 q01 q00 ql Cm0 Dm0 dt xpix s0 Balv ANalv Nalv,
     let r := MCTRouting_single q10 q01 q00 ql Cm0 Dm0 dt xpix s0 Balv ANalv Nalv in
     0 <= r.1.1.1 /\ 0 <= r.1.1.2) /\
  (routing_active o = true ->
   maps_shape N m -> var_shape N v -> length SideflowChanM3 = N ->
   router_shape N -> upstream_shape ->
   wave_ok (count_mct (IsChannelKinematic v)) wave ->
   exists v',
     dynamic o wave m v SideflowChanM3 = Some v' /\
     Forall (Rle 0) (ChanQ v') /\ Forall (Rle 0) (ChanM3 v')).
Proof.
  intros N Hphys _. split; [intros; apply KINRouting_nonneg; exact Hphys|]. split.
  { intros S v2. subst v2.
    split; [apply split_ChanQKin_nonneg; exact Hphys|].
    split; [apply split_ChanM3Kin_nonneg|].
    split; [apply split_Chan2QKin_nonneg; exact Hphys|].
    split; [apply split_Chan2M3Kin_nonneg; exact Hphys|].
    split; [apply dynamic_split_ChanQ_nonneg | apply dynamic_split_ChanM3_nonneg]. }
  split; [intros; apply MCTRouting_single_nonneg|].
  intros Hact Hm Hv HS Hr Hup Hw.
  unfold routing_active, kinematic_active, split_active, mct_active in Hact.
  unfold dynamic, kinematic_active, split_active, mct_active.
  destruct (InitLisflood o), (SplitRoutingOpt o), (MCTRoutingOpt o);
    try discriminate; cbn [negb andb orb];
    try (eexists; split; [reflexivity|]; apply dynamic_kinematic_nonneg; exact Hphys);
    try (eexists; split; [reflexivity|];
         split; [apply dynamic_split_ChanQ_nonneg | apply dynamic_split_ChanM3_nonneg]).
  edestruct dynamic_mct_total as (v' & Hv' & HQ' & HM'); [| | | | | | |
    exists v'; split; [exact Hv'|]; split; [apply HQ'; exact Hphys | exact HM']];
    try eassumption.
  - destruct Hm as (_ & HL & _). destruct Hv as (_ & _ & _ & _ & _ & _ & _ & Hk & _).
    unfold np_where_s, vscale, vmul, InvChanLength, sdiv.
    rewrite ?length_zip_with, ?length_fmap, ?length_zip_with, ?length_fmap. fold N. lia.
  - destruct Hm as (_ & _ & _ & _ & _ & _ & _ & HM & _).
    unfold np_where_s, vscale. rewrite ?length_zip_with, ?length_fmap. fold N. lia.
Qed.

End DynamicProps.

Lemma sample_router_shape N : @router_shape sample_router N.
Proof.
  intros Q S sec HQ HS. cbn [kinematicWaveRouting sample_router]. unfold vadd.
  rewrite length_zip_with. lia.
Qed.

Lemma sample_upstream_shape : @upstream_shape sample_upstream.
Proof.
  intros a. cbn [upstream_LddChan sample_upstream]. rewrite length_take.
  cbn [length]. lia.
Qed.

Lemma sample_wave_ok : wave_ok (count_mct (IsChannelKinematic sample_var)) sample_wave.
Proof.
  split.
  - repeat constructor.
  - repeat constructor.
Qed.

Lemma routers_nonnegative_witness :
  (maps_physical sample_maps_linear /\ @router_finite sample_router sample_maps_linear) /\
  (forall Q S,
     Forall (Rle 0) (@KINRouting sample_router sample_maps_linear Q S).1 /\
     Forall (Rle 0) (@KINRouting sample_router sample_maps_linear Q S).2) /\
  (forall S,
     let v2 := @dynamic_split sample_router sample_maps_linear sample_var S in
     Forall (Rle 0) (ChanQKin v2) /\ Forall (Rle 0) (ChanM3Kin v2) /\
     Forall (Rle 0) (Chan2QKin v2) /\ Forall (Rle 0) (Chan2M3Kin v2) /\
     Forall (Rle 0) (ChanQ v2) /\ Forall (Rle 0) (ChanM3 v2)) /\
  (forall q10 q01 q00 ql Cm0 Dm0 dt xpix s0 Balv ANalv Nalv,
     let r := MCTRouting_single q10 q01 q00 ql Cm0 Dm0 dt xpix s0 Balv ANalv Nalv in
     0 <= r.1.1.1 /\ 0 <= r.1.1.2) /\
  (routing_active mct_options = true /\
   maps_shape 2 sample_maps_linear /\ var_shape 2 sample_var /\ length [5; 5] = 2%nat /\
   @router_shape sample_router 2 /\ @upstream_shape sample_upstream /\
   wave_ok (count_mct (IsChannelKinematic sample_var)) sample_wave) /\
  exists v',
    @dynamic sample_router sample_upstream mct_options sample_wave sample_maps_linear
      sample_var [5; 5] = Some v' /\
    Forall (Rle 0) (ChanQ v') /\ Forall (Rle 0) (ChanM3 v').
Proof.
  assert (Hm : maps_shape 2 sample_maps_linear) by (repeat split; reflexivity).
  assert (Hv : var_shape 2 sample_var) by (repeat split; reflexivity).
  destruct (@routers_nonnegative sample_router sample_upstream mct_options sample_wave
              sample_maps_linear sample_var [5; 5] sample_maps_linear_physical
              sample_router_finite) as (Hkin & Hsplit & Hmct & Hdyn).
  split; [split; [exact sample_maps_linear_physical | exact sample_router_finite]|].
  split; [exact Hkin|]. split; [exact Hsplit|]. split; [exact Hmct|].
  split.
  - split; [reflexivity|]. split; [exact Hm|]. split; [exact Hv|].
    split; [reflexivity|]. split; [apply sample_router_shape|].
    split; [apply sample_upstream_shape | apply sample_wave_ok].
  - apply Hdyn.
    + reflexivity.
    + exact Hm.
    + exact Hv.
    + reflexivity.
    + apply sample_router_shape.
    + apply sample_upstream_shape.
    + apply sample_wave_ok.
Defined.

(** ** Routing orders *)

Example routing_orders_confluence :
  _setMCTRoutingOrders [1%Z; 2%Z; (-1)%Z; 2%Z; 3%Z] [] =
  Some {| order_start_stop := [(0, 2); (2, 4); (4, 5)]%nat;
          pixels_ordered := [0; 4; 1; 3; 2]%nat |}.
Proof. vm_compute. reflexivity. Qed.

(** A map with a cycle has no routing order. *)
Example routing_orders_cycle : _setMCTRoutingOrders [1%Z; 0%Z] [] = None.
Proof. vm_compute. reflexivity. Qed.

(** *** Topological distance *)

Lemma topo_dist_S fuel down p :
  topo_dist (S fuel) down p =
  d ← down !! p;
  if decide (d = (-1)%Z) then Some O
  else if decide (d < 0)%Z then None
  else S <$> topo_dist fuel down (Z.to_nat d).
Proof. reflexivity. Qed.

Lemma topo_dist_fuel_S fuel down p k :
  topo_dist fuel down p = Some k -> topo_dist (S fuel) down p = Some k.
Proof.
  revert p k. induction fuel as [|fuel IH]; intros p k Hk; [discriminate|].
  rewrite topo_dist_S in Hk. rewrite (topo_dist_S (S fuel)).
  destruct (down !! p) as [d|]; [|discriminate]. cbn [mbind option_bind] in Hk |- *.
  destruct (decide (d = (-1)%Z)); [exact Hk|].
  destruct (decide (d < 0)%Z); [discriminate|].
  destruct (topo_dist fuel down (Z.to_nat d)) as [k'|] eqn:Hd; [|discriminate].
  rewrite (IH _ _ Hd). exact Hk.
Qed.

Lemma topo_dist_in_range fuel down p k :
  topo_dist fuel down p = Some k -> (p < length down)%nat.
Proof.
  destruct fuel as [|fuel]; [discriminate|]. rewrite topo_dist_S.
  destruct (down !! p) as [d|] eqn:Hp; [|discriminate].
  intros _. apply lookup_lt_Some in Hp. exact Hp.
Qed.

Lemma topoDistFromSea_lookup down up dist :
  topoDistFromSea down up = Some dist ->
  length dist = length down /\
  forall p, (p < length down)%nat ->
    exists k, dist !! p = Some k /\ topo_dist (S (length down)) down p = Some k.
Proof.
  unfold topoDistFromSea. cbn zeta. intros Hm. apply mapM_Some_1 in Hm.
  pose proof (Forall2_length _ _ _ Hm) as Hlen. rewrite length_seq in Hlen.
  split; [congruence|]. intros p Hp.
  destruct (lookup_lt_is_Some_2 dist p) as [k Hk]; [lia|].
  exists k. split; [exact Hk|].
  eapply (Forall2_lookup_lr _ _ _ p p k Hm); [|exact Hk].
  apply lookup_seq. split; [reflexivity | exact Hp].
Qed.

(** Outlets have distance 0; any other pixel is one step farther from the
    outlet than its downstream pixel. *)
Lemma topoDistFromSea_step down up dist p d :
  topoDistFromSea down up = Some dist ->
  down !! p = Some d ->
  (d = (-1)%Z /\ dist !! p = Some O) \/
  (d <> (-1)%Z /\ (0 <= d)%Z /\
   exists k, dist !! Z.to_nat d = Some k /\ dist !! p = Some (S k)).
Proof.
  intros Hdist Hp.
  destruct (topoDistFromSea_lookup _ _ _ Hdist) as [Hlen Hall].
  destruct (Hall p) as (kp & Hkp & Htd); [eapply lookup_lt_Some; exact Hp|].
  rewrite topo_dist_S, Hp in Htd. cbn [mbind option_bind] in Htd.
  destruct (decide (d = (-1)%Z)) as [->|Hne].
  - left. split; [reflexivity|]. congruence.
  - right. destruct (decide (d < 0)%Z); [discriminate|].
    split; [exact Hne|]. split; [lia|].
    destruct (topo_dist (length down) down (Z.to_nat d)) as [k|] eqn:Hd; [|discriminate].
    injection Htd as <-. exists k. split; [|exact Hkp].
    destruct (Hall (Z.to_nat d)) as (k' & Hk' & Htd');
      [eapply topo_dist_in_range; exact Hd|].
    rewrite (topo_dist_fuel_S _ _ _ _ Hd) in Htd'. congruence.
Qed.

(** Every distance up to the maximum is attained. *)
Lemma topoDistFromSea_contiguous down up dist k :
  topoDistFromSea down up = Some dist ->
  k ∈ dist -> forall k', (k' <= k)%nat -> k' ∈ dist.
Proof.
  intros Hdist. induction k as [|k IH]; intros Hk k' Hle.
  - replace k' with O by lia. exact Hk.
  - destruct (decide (k' = S k)) as [->|Hne]; [exact Hk|].
    apply IH; [|lia].
    apply list_elem_of_lookup in Hk as [p Hp].
    destruct (topoDistFromSea_lookup _ _ _ Hdist) as [Hlen _].
    destruct (lookup_lt_is_Some_2 down p) as [d Hd].
    { rewrite <- Hlen. eapply lookup_lt_Some; exact Hp. }
    destruct (topoDistFromSea_step _ _ _ _ _ Hdist Hd)
      as [[_ H0]|(_ & _ & k0 & Hk0 & HS)]; [congruence|].
    rewrite Hp in HS. injection HS as ->.
    eapply list_elem_of_lookup_2; exact Hk0.
Qed.

(** *** Batch index *)

Lemma routing_order_lookup dist p k :
  dist !! p = Some k -> routing_order dist !! p = Some (max_list dist - k)%nat.
Proof. intros Hk. unfold routing_order. rewrite list_lookup_fmap, Hk. reflexivity. Qed.

Lemma routing_order_le dist p b :
  routing_order dist !! p = Some b -> (b <= max_list dist)%nat.
Proof.
  unfold routing_order. intros Hb. apply list_lookup_fmap_Some in Hb as (k & -> & _). lia.
Qed.

Lemma routing_order_attained down up dist b :
  topoDistFromSea down up = Some dist -> dist <> [] ->
  (b <= max_list dist)%nat -> b ∈ routing_order dist.
Proof.
  intros Hdist Hne Hb.
  assert (Hk : (max_list dist - b)%nat ∈ dist).
  { eapply topoDistFromSea_contiguous; [exact Hdist | apply max_list_elem_of; exact Hne | lia]. }
  apply list_elem_of_lookup in Hk as [p Hp].
  apply list_elem_of_lookup. exists p.
  rewrite (routing_order_lookup _ _ _ Hp). f_equal. lia.
Qed.

(** Every upstream pixel has a strictly smaller batch index than its
    downstream pixel. *)
Lemma routing_order_upstream down up dist p d :
  topoDistFromSea down up = Some dist ->
  down !! p = Some d -> d <> (-1)%Z ->
  exists bp bd,
    routing_order dist !! p = Some bp /\
    routing_order dist !! Z.to_nat d = Some bd /\ (bp < bd)%nat.
Proof.
  intros Hdist Hp Hne.
  destruct (topoDistFromSea_step _ _ _ _ _ Hdist Hp)
    as [[? _]|(_ & _ & k & Hk & HS)]; [contradiction|].
  exists (max_list dist - S k)%nat, (max_list dist - k)%nat.
  split; [apply routing_order_lookup; exact HS|].
  split; [apply routing_order_lookup; exact Hk|].
  assert (S k <= max_list dist)%nat.
  { apply max_list_elem_of_le. eapply list_elem_of_lookup_2; exact HS. }
  lia.
Qed.

(** *** The routing orders exist for every network that drains to outlets *)

Lemma topo_dist_fuel_le fuel fuel' down p k :
  topo_dist fuel down p = Some k -> (fuel <= fuel')%nat ->
  topo_dist fuel' down p = Some k.
Proof.
  intros Hk Hle. induction Hle as [|fuel' _ IH]; [exact Hk|].
  apply topo_dist_fuel_S. exact IH.
Qed.

Lemma topo_dist_unique f1 f2 down p a b :
  topo_dist f1 down p = Some a -> topo_dist f2 down p = Some b -> a = b.
Proof.
  intros Ha Hb.
  apply (topo_dist_fuel_le _ (Nat.max f1 f2)) in Ha; [|lia].
  apply (topo_dist_fuel_le _ (Nat.max f1 f2)) in Hb; [|lia].
  congruence.
Qed.

Lemma topo_dist_fuel_enough fuel down p k :
  topo_dist fuel down p = Some k -> topo_dist (S k) down p = Some k.
Proof.
  revert p k. induction fuel as [|fuel IH]; intros p k Hk; [discriminate|].
  rewrite topo_dist_S in Hk. rewrite topo_dist_S.
  destruct (down !! p) as [d|]; [|discriminate]. cbn [mbind option_bind] in Hk |- *.
  destruct (decide (d = (-1)%Z)); [exact Hk|].
  destruct (decide (d < 0)%Z); [discriminate|].
  destruct (topo_dist fuel down (Z.to_nat d)) as [k'|] eqn:Hd; [|discriminate].
  injection Hk as <-. rewrite (IH _ _ Hd). reflexivity.
Qed.

(** The pixels on the way from [p] to its outlet are pairwise distinct. *)
Lemma topo_dist_path fuel down p k :
  topo_dist fuel down p = Some k ->
  exists l : list nat,
    length l = S k /\ NoDup l /\
    Forall (fun q => (q < length down)%nat /\
                     exists f j, topo_dist f down q = Some j /\ (j <= k)%nat) l.
Proof.
  revert p k. induction fuel as [|fuel IH]; intros p k Hk; [discriminate|].
  pose proof (topo_dist_in_range _ _ _ _ Hk) as Hp.
  pose proof Hk as Hk0. rewrite topo_dist_S in Hk.
  destruct (down !! p) as [d|]; [|discriminate]. cbn [mbind option_bind] in Hk.
  destruct (decide (d = (-1)%Z)).
  - injection Hk as <-. exists [p]. split; [reflexivity|]. split.
    + apply NoDup_singleton.
    + repeat constructor; [exact Hp|]. exists (S fuel), 0%nat. split; [exact Hk0 | lia].
  - destruct (decide (d < 0)%Z); [discriminate|].
    destruct (topo_dist fuel down (Z.to_nat d)) as [k'|] eqn:Hd; [|discriminate].
    injection Hk as <-. destruct (IH _ _ Hd) as (l & Hlen & Hnd & Hall).
    exists (p :: l). split; [cbn; lia|]. split.
    + apply NoDup_cons. split; [|exact Hnd]. intros Hin.
      rewrite Forall_forall in Hall. destruct (Hall _ Hin) as (_ & f & j & Hj & Hle).
      pose proof (topo_dist_unique _ _ _ _ _ _ Hj Hk0). lia.
    + constructor.
      * split; [exact Hp|]. exists (S fuel), (S k'). split; [exact Hk0 | lia].
      * eapply Forall_impl; [exact Hall|]. cbn. intros q (Hq & f & j & Hj & Hle).
        split; [exact Hq|]. exists f, j. split; [exact Hj | lia].
Qed.

(** A distance is smaller than the number of pixels, so the fuel used by
    [topoDistFromSea] is enough. *)
Lemma topo_dist_bound fuel down p k :
  topo_dist fuel down p = Some k -> (k < length down)%nat.
Proof.
  intros Hk. destruct (topo_dist_path _ _ _ _ Hk) as (l & Hlen & Hnd & Hall).
  assert (Hsub : l ⊆+ seq 0 (length down)).
  { apply NoDup_submseteq; [exact Hnd|]. intros q Hq.
    rewrite Forall_forall in Hall. destruct (Hall _ Hq) as [Hlt _].
    apply elem_of_seq. lia. }
  apply submseteq_length in Hsub. rewrite length_seq in Hsub. lia.
Qed.

(** On a non-empty network in which every pixel reaches an outlet along the
    downstream links, the routing orders are built. *)
Lemma setMCTRoutingOrders_total down up :
  down <> [] ->
  (forall p, (p < length down)%nat -> exists fuel k, topo_dist fuel down p = Some k) ->
  exists wave, _setMCTRoutingOrders down up = Some wave.
Proof.
  intros Hne Hreach.
  assert (Hdist : exists dist, topoDistFromSea down up = Some dist /\
                               length dist = length down).
  { unfold topoDistFromSea. cbn zeta.
    assert (Hall : Forall (fun p => is_Some (topo_dist (S (length down)) down p))
                     (seq 0 (length down))).
    { apply Forall_forall. intros p Hp. apply elem_of_seq in Hp.
      destruct (Hreach p) as (fuel & k & Hk); [lia|].
      exists k. apply (topo_dist_fuel_le (S k)).
      - eapply topo_dist_fuel_enough; exact Hk.
      - pose proof (topo_dist_bound _ _ _ _ Hk). lia. }
    destruct (mapM (topo_dist (S (length down)) down) (seq 0 (length down)))
      as [dist|] eqn:Hm.
    - exists dist. split; [reflexivity|].
      apply mapM_Some_1, Forall2_length in Hm. rewrite length_seq in Hm. congruence.
    - exfalso. apply mapM_None_1 in Hm.
      apply Exists_exists in Hm as (p & Hp & Hnone).
      rewrite Forall_forall in Hall. destruct (Hall p Hp) as [k Hk]. congruence. }
  destruct Hdist as (dist & Hdist & Hlen).
  unfold _setMCTRoutingOrders. rewrite Hdist. cbn [mbind option_bind].
  destruct (decide (dist = [])) as [->|Hd].
  - destruct down; [contradiction | discriminate].
  - eexists. reflexivity.
Qed.

(** *** Sorting the frame *)

Global Instance row_le_total : Total row_le.
Proof.
  intros [a1 a2] [b1 b2]. unfold row_le, row_leb. cbn [fst snd].
  destruct (Nat.ltb_spec a1 b1), (Nat.ltb_spec b1 a1),
    (Nat.eqb_spec a1 b1), (Nat.eqb_spec b1 a1),
    (Nat.leb_spec a2 b2), (Nat.leb_spec b2 a2); cbn; auto; lia.
Qed.

Global Instance row_le_trans : Transitive row_le.
Proof.
  intros [a1 a2] [b1 b2] [c1 c2]. unfold row_le, row_leb. cbn [fst snd].
  destruct (Nat.ltb_spec a1 b1), (Nat.ltb_spec b1 c1), (Nat.ltb_spec a1 c1),
    (Nat.eqb_spec a1 b1), (Nat.eqb_spec b1 c1), (Nat.eqb_spec a1 c1),
    (Nat.leb_spec a2 b2), (Nat.leb_spec b2 c2), (Nat.leb_spec a2 c2);
    cbn; auto; lia.
Qed.

Lemma row_le_fst a b : row_le a b -> (a.1 <= b.1)%nat.
Proof.
  destruct a as [a1 a2], b as [b1 b2]. unfold row_le, row_leb. cbn [fst snd].
  rewrite Is_true_true, orb_true_iff, andb_true_iff, Nat.ltb_lt, Nat.eqb_eq, Nat.leb_le.
  lia.
Qed.

Lemma sort_values_index_sorted rows : StronglySorted le ((sort_values rows).*1).
Proof.
  apply (StronglySorted_fmap fst row_le le).
  - intros x y. apply row_le_fst.
  - apply StronglySorted_merge_sort; typeclasses eauto.
Qed.

Lemma sort_values_Permutation rows : sort_values rows ≡ₚ rows.
Proof. apply merge_sort_Permutation. Qed.

(** *** Counting and ranges *)

Lemma start_stop_cumsum acc counts :
  zip (acc :: removelast (cumsum_from acc counts)) (cumsum_from acc counts)
  = ranges_from acc counts.
Proof.
  revert acc. induction counts as [|c cs IH]; intros acc; [reflexivity|].
  cbn [cumsum_from ranges_from]. destruct cs as [|c' cs'].
  - reflexivity.
  - rewrite <- IH. cbn [cumsum_from]. reflexivity.
Qed.

Lemma sum_list_cons (c : nat) cs : sum_list (c :: cs) = (c + sum_list cs)%nat.
Proof. reflexivity. Qed.

Lemma ranges_from_bounds counts : forall acc b first last,
  ranges_from acc counts !! b = Some (first, last) ->
  (acc <= first /\ first <= last /\ last <= acc + sum_list counts)%nat /\
  counts !! b = Some (last - first)%nat /\
  (S b = length counts -> last = (acc + sum_list counts)%nat).
Proof.
  induction counts as [|c cs IH]; intros acc b first last Hb; [discriminate|].
  cbn [ranges_from] in Hb. rewrite sum_list_cons. destruct b as [|b]; cbn in Hb.
  - injection Hb as <- <-. split; [lia|].
    split; [cbn; f_equal; lia|].
    intros Hlen. destruct cs; [cbn; lia | discriminate].
  - destruct (IH _ _ _ _ Hb) as (Hbd & Hc & Hlast).
    split; [lia|]. split; [exact Hc|].
    intros Hlen. cbn [length] in Hlen. rewrite Hlast by lia. lia.
Qed.

Lemma ranges_from_chain counts : forall acc b first last first' last',
  ranges_from acc counts !! b = Some (first, last) ->
  ranges_from acc counts !! S b = Some (first', last') ->
  first' = last.
Proof.
  induction counts as [|c cs IH]; intros acc b first last first' last' Hb HS;
    [discriminate|].
  cbn [ranges_from] in Hb, HS. destruct b as [|b]; cbn in Hb, HS.
  - injection Hb as <- <-. destruct cs as [|c' cs']; [discriminate|].
    cbn in HS. injection HS as <- _. reflexivity.
  - eapply IH; eassumption.
Qed.

Lemma length_ranges_from acc counts : length (ranges_from acc counts) = length counts.
Proof. revert acc. induction counts; intros acc; cbn; auto. Qed.

Lemma length_expand rl : length (expand rl) = sum_list (rl.*2).
Proof.
  induction rl as [|kc rl IH]; [reflexivity|].
  cbn [expand]. rewrite length_app, length_replicate, IH. cbn [fmap list_fmap].
  rewrite sum_list_cons. reflexivity.
Qed.

Lemma elem_of_expand rl x : x ∈ expand rl -> x ∈ rl.*1.
Proof.
  induction rl as [|kc rl IH]; cbn [expand]; [intros Hx; inversion Hx|].
  rewrite elem_of_app. intros [Hx|Hx].
  - apply elem_of_replicate_inv in Hx. subst. cbn. left.
  - cbn. right. apply IH. exact Hx.
Qed.

Lemma elem_of_keys_expand rl x :
  Forall (fun kc => 0 < kc.2)%nat rl -> x ∈ rl.*1 -> x ∈ expand rl.
Proof.
  induction rl as [|kc rl IH]; intros Hpos Hx; [inversion Hx|].
  inversion Hpos as [|? ? Hc Hpos']; subst. cbn [expand]. rewrite elem_of_app.
  cbn in Hx. apply elem_of_cons in Hx as [->|Hx].
  - left. apply elem_of_replicate. split; [reflexivity | lia].
  - right. apply IH; assumption.
Qed.

Lemma bump_grouped x idx rl :
  Forall (le x) idx -> grouped idx rl -> grouped (x :: idx) (bump x rl).
Proof.
  intros Hx (Hexp & Hsort & Hpos). destruct rl as [|[k c] rest].
  - cbn in Hexp. subst idx. cbn. repeat split; repeat constructor.
  - inversion Hpos as [|? ? Hc Hpos']; subst. cbn [snd] in Hc.
    assert (Hxk : (x <= k)%nat).
    { rewrite Forall_forall in Hx. apply Hx.
      cbn [expand fst snd]. rewrite elem_of_app. left.
      apply elem_of_replicate. split; [reflexivity | lia]. }
    cbn [bump]. destruct (Nat.eqb_spec x k) as [->|Hne].
    + split; [reflexivity|]. split; [exact Hsort|].
      constructor; [cbn; lia | exact Hpos'].
    + destruct (Nat.ltb_spec x k) as [Hlt|Hge]; [|lia].
      split; [reflexivity|]. split.
      * cbn [fmap list_fmap fst]. apply StronglySorted_cons. split; [|exact Hsort].
        cbn [fmap list_fmap fst] in Hsort. apply StronglySorted_cons in Hsort as [Hk _].
        constructor; [exact Hlt|]. eapply Forall_impl; [exact Hk|]. cbn. intros; lia.
      * constructor; [cbn; lia | exact Hpos].
Qed.

Lemma groupby_count_grouped idx :
  StronglySorted le idx -> grouped idx (groupby_count idx).
Proof.
  induction idx as [|x idx IH]; intros Hs.
  - cbn. repeat split; constructor.
  - apply StronglySorted_cons in Hs as [Hx Hs]. cbn [groupby_count foldr].
    apply bump_grouped; [exact Hx | apply IH; exact Hs].
Qed.

(** Position [acc + j] lies in the [b]-th range exactly when the entry at
    position [j] of the index column is the [b]-th key. *)
Lemma expand_lookup_range rl : NoDup (rl.*1) ->
  forall acc j x b first last,
    expand rl !! j = Some x ->
    ranges_from acc (rl.*2) !! b = Some (first, last) ->
    ((first <= acc + j < last)%nat <-> rl.*1 !! b = Some x).
Proof.
  induction rl as [|[k c] rest IH]; intros Hnd acc j x b first last Hj Hb;
    [discriminate|].
  cbn [fmap list_fmap fst snd] in Hnd, Hb |- *. cbn [ranges_from] in Hb.
  apply NoDup_cons in Hnd as [Hk Hnd]. cbn [expand fst snd] in Hj.
  destruct (decide (j < c)%nat) as [Hlt|Hge].
  - rewrite lookup_app_l in Hj by (rewrite length_replicate; exact Hlt).
    apply lookup_replicate_1 in Hj as [-> _].
    destruct b as [|b]; cbn in Hb |- *.
    + injection Hb as <- <-. split; [reflexivity | lia].
    + destruct (ranges_from_bounds _ _ _ _ _ Hb) as (Hbd & _ & _). split; [lia|].
      intros Hkb. exfalso. apply Hk. eapply list_elem_of_lookup_2; exact Hkb.
  - rewrite lookup_app_r in Hj by (rewrite length_replicate; lia).
    rewrite length_replicate in Hj.
    destruct b as [|b]; cbn in Hb |- *.
    + injection Hb as <- <-. split; [lia|]. intros [= ->]. exfalso. apply Hk.
      apply elem_of_expand. eapply list_elem_of_lookup_2; exact Hj.
    + rewrite <- (IH Hnd (acc + c)%nat (j - c)%nat x b first last Hj Hb). lia.
Qed.

Lemma StronglySorted_lt_NoDup (l : list nat) : StronglySorted lt l -> NoDup l.
Proof.
  induction l as [|x l IH]; intros Hs; [constructor|].
  apply StronglySorted_cons in Hs as [Hx Hs]. apply NoDup_cons. split; [|auto].
  intros Hin. rewrite Forall_forall in Hx. specialize (Hx _ Hin). lia.
Qed.

Lemma StronglySorted_lt_le (l : list nat) : StronglySorted lt l -> StronglySorted le l.
Proof.
  induction 1 as [|x l Hs IH Hx]; constructor; [exact IH|].
  eapply Forall_impl; [exact Hx|]. cbn. intros; lia.
Qed.

Lemma StronglySorted_seq j n : StronglySorted le (seq j n).
Proof.
  revert j. induction n as [|n IH]; intros j; cbn; constructor; [apply IH|].
  apply Forall_forall. intros x Hx. apply elem_of_seq in Hx. lia.
Qed.

(** A strictly increasing list whose members are the numbers up to [M] is
    [0, 1, ..., M]. *)
Lemma sorted_keys_seq (keys : list nat) (M : nat) :
  StronglySorted lt keys -> (forall x, x ∈ keys <-> (x <= M)%nat) ->
  keys = seq 0 (S M).
Proof.
  intros Hs Hmem. apply (StronglySorted_unique le).
  - apply StronglySorted_lt_le. exact Hs.
  - apply StronglySorted_seq.
  - apply NoDup_Permutation; [apply StronglySorted_lt_NoDup; exact Hs | apply NoDup_seq|].
    intros x. rewrite Hmem, elem_of_seq. lia.
Qed.

Lemma ranges_from_head acc counts first last :
  ranges_from acc counts !! 0%nat = Some (first, last) -> first = acc.
Proof. destruct counts; [discriminate|]. cbn. intros [= <- _]. reflexivity. Qed.

(** C3. The routing order of a pixel is the maximum topological distance
    minus its own distance, so that outlets have the highest batch number and
    every pixel lies in a strictly earlier batch than its downstream pixel;
    [pixels_ordered] lists every pixel once, and the rows of
    [order_start_stop] are contiguous non-empty index ranges that cover it,
    the [b]-th range holding exactly the pixels of batch [b]. *)
Theorem routing_orders_partition (downstream_lookup : list Z)
    (upstream_lookup : list (list Z)) (wave : MctWave) :
  _setMCTRoutingOrders downstream_lookup upstream_lookup = Some wave ->
  exists dist,
    topoDistFromSea downstream_lookup upstream_lookup = Some dist /\
    let order := routing_order dist in
    let n := length downstream_lookup in
    let M := max_list dist in
    (forall p k, dist !! p = Some k -> order !! p = Some (M - k)%nat) /\
    (forall p, downstream_lookup !! p = Some (-1)%Z -> order !! p = Some M) /\
    (forall p b, order !! p = Some b -> (b <= M)%nat) /\
    (forall p d, downstream_lookup !! p = Some d -> d <> (-1)%Z ->
       exists bp bd, order !! p = Some bp /\ order !! Z.to_nat d = Some bd /\
                     (bp < bd)%nat) /\
    pixels_ordered wave ≡ₚ seq 0 n /\
    length (order_start_stop wave) = S M /\
    (forall b first last, order_start_stop wave !! b = Some (first, last) ->
       (first < last <= n)%nat /\ (b = 0%nat -> first = 0%nat) /\ (b = M -> last = n) /\
       (forall first' last', order_start_stop wave !! S b = Some (first', last') ->
          first' = last)) /\
    (forall b first last j p,
       order_start_stop wave !! b = Some (first, last) ->
       pixels_ordered wave !! j = Some p ->
       ((first <= j < last)%nat <-> order !! p = Some b)).
Proof.
  unfold _setMCTRoutingOrders. intros Hrun.
  destruct (topoDistFromSea downstream_lookup upstream_lookup) as [dist|] eqn:Hdist;
    [|discriminate].
  cbn [mbind option_bind] in Hrun.
  destruct (decide (dist = [])) as [|Hne]; [discriminate|].
  injection Hrun as <-. exists dist. split; [reflexivity|].
  cbn zeta. cbn [order_start_stop pixels_ordered].
  destruct (topoDistFromSea_lookup _ _ _ Hdist) as [Hlen _].
  set (o := routing_order dist).
  set (M := max_list dist).
  assert (Hlo : length o = length downstream_lookup).
  { unfold o, routing_order. rewrite length_fmap. exact Hlen. }
  set (series := sort_values (zip o (seq 0 (length o)))).
  assert (Hperm : series ≡ₚ zip o (seq 0 (length o))) by apply sort_values_Permutation.
  assert (Hidx : series.*1 ≡ₚ o).
  { rewrite Hperm. rewrite fst_zip; [reflexivity | rewrite length_seq; lia]. }
  assert (Hpix : series.*2 ≡ₚ seq 0 (length o)).
  { rewrite Hperm. rewrite snd_zip; [reflexivity | rewrite length_seq; lia]. }
  pose proof (groupby_count_grouped _ (sort_values_index_sorted (zip o (seq 0 (length o)))))
    as Hgrp.
  fold series in Hgrp. set (rl := groupby_count (series.*1)) in *.
  destruct Hgrp as (Hexp & Hsort & Hpos).
  assert (Hkeys : rl.*1 = seq 0 (S M)).
  { apply sorted_keys_seq; [exact Hsort|]. intros x. split.
    - intros Hx. apply (elem_of_keys_expand _ _ Hpos) in Hx.
      rewrite Hexp, Hidx in Hx. apply list_elem_of_lookup in Hx as [p Hp].
      eapply routing_order_le; exact Hp.
    - intros Hx. apply elem_of_expand. rewrite Hexp, Hidx.
      eapply routing_order_attained; eassumption. }
  assert (Hrows : start_stop (cumsum (rl.*2)) = ranges_from 0 (rl.*2)).
  { unfold start_stop, cumsum. apply start_stop_cumsum. }
  rewrite Hrows.
  assert (Hnrows : length (rl.*2) = S M).
  { rewrite length_fmap, <- (length_fmap fst), Hkeys, length_seq. reflexivity. }
  assert (Hsum : sum_list (rl.*2) = length downstream_lookup).
  { rewrite <- length_expand, Hexp, length_fmap.
    rewrite (Permutation_length Hperm), length_zip_with, length_seq. lia. }
  split; [intros p k Hk; apply routing_order_lookup; exact Hk|].
  split.
  { intros p Hp.
    destruct (topoDistFromSea_step _ _ _ _ _ Hdist Hp) as [[_ H0]|(Hd & _)];
      [|contradiction].
    unfold o. rewrite (routing_order_lookup _ _ _ H0). f_equal. lia. }
  split; [intros p b Hb; eapply routing_order_le; exact Hb|].
  split; [intros p d Hp Hd; eapply routing_order_upstream; eassumption|].
  split; [rewrite Hpix, Hlo; reflexivity|].
  split; [rewrite length_ranges_from; exact Hnrows|].
  split.
  { intros b first last Hb.
    destruct (ranges_from_bounds _ _ _ _ _ Hb) as (Hbd & Hc & Hlast).
    assert (Hcpos : (0 < last - first)%nat).
    { apply list_lookup_fmap_Some in Hc as (kc & Hkc & Hin). rewrite Hkc.
      apply (proj1 (Forall_lookup _ _) Hpos _ _ Hin). }
    split; [lia|]. split.
    { intros ->. apply ranges_from_head in Hb. exact Hb. }
    split; [intros ->; rewrite Hlast by lia; lia|].
    intros first' last' HS. eapply ranges_from_chain; eassumption. }
  intros b first last j p Hb Hp.
  apply list_lookup_fmap_Some in Hp as ([ord p'] & Hp' & Hj). cbn [snd] in Hp'. subst p'.
  assert (Hord : o !! p = Some ord).
  { assert (Hin : (ord, p) ∈ zip o (seq 0 (length o))).
    { rewrite <- Hperm. eapply list_elem_of_lookup_2; exact Hj. }
    apply list_elem_of_lookup in Hin as [i Hi].
    apply lookup_zip_with_Some in Hi as (x & y & [= <- <-] & Hx & Hy).
    apply lookup_seq in Hy as [-> _]. exact Hx. }
  assert (Hj' : expand rl !! j = Some ord).
  { rewrite Hexp, list_lookup_fmap, Hj. reflexivity. }
  pose proof (expand_lookup_range rl (StronglySorted_lt_NoDup _ Hsort) 0%nat j ord b
                first last Hj' Hb) as Hrange.
  cbn [Nat.add] in Hrange. rewrite Hrange, Hkeys, lookup_seq.
  assert (Hblt : (b < S M)%nat).
  { rewrite <- Hnrows, <- (length_ranges_from 0). eapply lookup_lt_Some; exact Hb. }
  rewrite Hord. split.
  - intros [-> _]. reflexivity.
  - intros [= ->]. split; [reflexivity | exact Hblt].
Qed.

Lemma routing_orders_partition_witness :
  exists wave,
    _setMCTRoutingOrders [1%Z; 2%Z; (-1)%Z; 2%Z; 3%Z] [] = Some wave /\
    exists dist,
      topoDistFromSea [1%Z; 2%Z; (-1)%Z; 2%Z; 3%Z] [] = Some dist /\
      let order := routing_order dist in
      let n := length [1%Z; 2%Z; (-1)%Z; 2%Z; 3%Z] in
      let M := max_list dist in
      (forall p k, dist !! p = Some k -> order !! p = Some (M - k)%nat) /\
      (forall p, [1%Z; 2%Z; (-1)%Z; 2%Z; 3%Z] !! p = Some (-1)%Z -> order !! p = Some M) /\
      (forall p b, order !! p = Some b -> (b <= M)%nat) /\
      (forall p d, [1%Z; 2%Z; (-1)%Z; 2%Z; 3%Z] !! p = Some d -> d <> (-1)%Z ->
         exists bp bd, order !! p = Some bp /\ order !! Z.to_nat d = Some bd /\
                       (bp < bd)%nat) /\
      pixels_ordered wave ≡ₚ seq 0 n /\
      length (order_start_stop wave) = S M /\
      (forall b first last, order_start_stop wave !! b = Some (first, last) ->
         (first < last <= n)%nat /\ (b = 0%nat -> first = 0%nat) /\ (b = M -> last = n) /\
         (forall first' last', order_start_stop wave !! S b = Some (first', last') ->
            first' = last)) /\
      (forall b first last j p,
         order_start_stop wave !! b = Some (first, last) ->
         pixels_ordered wave !! j = Some p ->
         ((first <= j < last)%nat <-> order !! p = Some b)).
Proof.
  eexists. split.
  - vm_compute. reflexivity.
  - apply (routing_orders_partition [1%Z; 2%Z; (-1)%Z; 2%Z; 3%Z] []).
    vm_compute. reflexivity.
Defined.

(** * Further properties *)

(** ** Cross-section geometry *)

Lemma rad_from_dxdy_bounds (dxdy : R) :
  0 < dxdy -> 0 < rad_from_dxdy dxdy < PI / 2.
Proof.
  intros Hd. unfold rad_from_dxdy.
  assert (Hx : 0 < 1 / dxdy) by (apply Rdiv_lt_0_compat; lra).
  split; [|apply atan_bound].
  rewrite <- atan_0. apply atan_increasing. exact Hx.
Qed.

Lemma cotan_rad_from_dxdy (dxdy : R) : 0 < dxdy -> cotan (rad_from_dxdy dxdy) = dxdy.
Proof.
  intros Hd. pose proof (rad_from_dxdy_bounds dxdy Hd) as [Hlo Hhi].
  assert (Hsin : 0 < sin (rad_from_dxdy dxdy)).
  { apply sin_gt_0; [exact Hlo|]. pose proof PI_RGT_0. lra. }
  assert (Hcos : 0 < cos (rad_from_dxdy dxdy)).
  { apply cos_gt_0; lra. }
  assert (Htan : tan (rad_from_dxdy dxdy) = 1 / dxdy) by apply tan_atan.
  unfold tan in Htan. unfold cotan.
  assert (Hs : sin (rad_from_dxdy dxdy) = cos (rad_from_dxdy dxdy) / dxdy).
  { apply (Rmult_eq_reg_r (/ cos (rad_from_dxdy dxdy))).
    - unfold Rdiv in *. rewrite Htan. field. lra.
    - apply Rinv_neq_0_compat. lra. }
  rewrite Hs. field. lra.
Qed.

(** X1. A positive side slope [dxdy] gives a side angle strictly between 0 and
    a right angle whose cotangent is [dxdy] again, so [qoh] treats the
    section as a trapezoid with wet area [(Balv + y * dxdy) * y] and surface
    width [Balv + 2 * y * dxdy]. *)
Theorem side_angle_trapezoid (dxdy y s0 Balv Nalv : R) :
  0 < dxdy ->
  let ANalv := rad_from_dxdy dxdy in
  0 < ANalv < PI / 2 /\
  cotan ANalv = dxdy /\
  (qoh y s0 Balv ANalv Nalv).1.1.1.2 = (Balv + y * dxdy) * y /\
  (qoh y s0 Balv ANalv Nalv).1.1.2 = Balv + 2 * y * dxdy.
Proof.
  intros Hd ANalv. pose proof (rad_from_dxdy_bounds dxdy Hd) as Hb.
  pose proof (cotan_rad_from_dxdy dxdy Hd) as Hc. fold ANalv in Hb, Hc.
  split; [exact Hb|]. split; [exact Hc|].
  unfold qoh. cbn [fst snd].
  destruct (Rlt_dec ANalv (PI / 2)) as [_|Hn]; [|lra].
  rewrite Hc. split; reflexivity.
Qed.

Lemma side_angle_trapezoid_witness :
  0 < 2 /\
  let ANalv := rad_from_dxdy 2 in
  0 < ANalv < PI / 2 /\
  cotan ANalv = 2 /\
  (qoh 1 0.001 5 ANalv 0.03).1.1.1.2 = (5 + 1 * 2) * 1 /\
  (qoh 1 0.001 5 ANalv 0.03).1.1.2 = 5 + 2 * 1 * 2.
Proof.
  split; [lra|]. apply (side_angle_trapezoid 2 1 0.001 5 0.03). lra.
Defined.

(** [qoh] in terms of the specification-side relations. *)
Lemma qoh_spec (y s0 Balv ANalv Nalv : R) :
  qoh y s0 Balv ANalv Nalv =
  (spec_manning s0 Nalv (spec_area y Balv ANalv) (spec_perimeter y Balv ANalv),
   spec_area y Balv ANalv, spec_width y Balv ANalv, spec_perimeter y Balv ANalv,
   spec_celerity
     (spec_manning s0 Nalv (spec_area y Balv ANalv) (spec_perimeter y Balv ANalv))
     (spec_area y Balv ANalv) (spec_perimeter y Balv ANalv) (spec_width y Balv ANalv)
     ANalv).
Proof.
  unfold qoh, spec_celerity, spec_manning, spec_perimeter, spec_width, spec_area,
    spec_sin, spec_cot, cotan.
  replace (5 / 3 - 1) with (2 / 3) by lra.
  destruct (Rlt_dec ANalv (PI / 2)); destruct (Rge_dec ANalv (PI / 2));
    try lra; reflexivity.
Qed.

Lemma hoV_trapezoid_area (a Balv c : R) :
  0 <= a -> 0 <= Balv -> 0 < c ->
  let y := (- Balv + sqrt (Balv ^ 2 + 4 * a * c)) / (2 * c) in
  0 <= y /\ (Balv + y * c) * y = a.
Proof.
  intros Ha HB Hc y.
  assert (Hd : 0 <= Balv ^ 2 + 4 * a * c) by nra.
  pose proof (sqrt_pos (Balv ^ 2 + 4 * a * c)) as Hs0.
  pose proof (sqrt_sqrt _ Hd) as Hss.
  set (D := sqrt (Balv ^ 2 + 4 * a * c)) in *.
  assert (HDB : Balv <= D) by nra.
  split.
  - unfold y. apply Rmult_le_pos; [lra|]. left. apply Rinv_0_lt_compat. lra.
  - unfold y. replace ((Balv + (- Balv + D) / (2 * c) * c) * ((- Balv + D) / (2 * c)))
      with ((D * D - Balv ^ 2) / (4 * c)) by (field; lra).
    rewrite Hss. field. lra.
Qed.

(** X2. [hoV] inverts the wet-area relation of [qoh]: for a rectangular
    section of non-zero width, or a section whose side cotangent is at least
    [1e-6] (bottom width and area non-negative), the depth returned for the
    volume [V] is non-negative and has wet area [V / xpix]; [qoV] is the
    Manning discharge of that depth. *)
Theorem hoV_inverts_area (V xpix s0 Balv ANalv Nalv : R) :
  0 <= V / xpix ->
  (~ ANalv < PI / 2 /\ 0 < Balv) \/
  (ANalv < PI / 2 /\ 1e-6 <= cotan ANalv /\ 0 <= Balv) ->
  let y := hoV V xpix Balv ANalv in
  0 <= y /\
  (qoh y s0 Balv ANalv Nalv).1.1.1.2 = V / xpix /\
  qoV V xpix s0 Balv ANalv Nalv =
    spec_manning s0 Nalv (V / xpix) (spec_perimeter y Balv ANalv).
Proof.
  intros Ha Hcase y.
  assert (Hy : 0 <= y /\ spec_area y Balv ANalv = V / xpix).
  { unfold y, hoV, spec_area, spec_cot, cotan. set (a := V / xpix) in *.
    destruct Hcase as [[Hrect HB]|(Htrap & Hc & HB)].
    - destruct (Rlt_dec ANalv (PI / 2)) as [?|_]; [contradiction|].
      destruct (Rge_dec ANalv (PI / 2)) as [_|?]; [|lra].
      rewrite Rabs_R0. destruct (Rlt_dec 0 1e-6) as [_|?]; [|lra].
      split; [apply Rmult_le_pos; [exact Ha | left; apply Rinv_0_lt_compat; exact HB]|].
      field. lra.
    - destruct (Rlt_dec ANalv (PI / 2)) as [_|?]; [|contradiction].
      destruct (Rge_dec ANalv (PI / 2)) as [?|_]; [lra|].
      unfold cotan in Hc. set (c := cos ANalv / sin ANalv) in *.
      rewrite (Rabs_pos_eq c) by lra.
      destruct (Rlt_dec c 1e-6) as [?|_]; [lra|].
      apply hoV_trapezoid_area; lra. }
  destruct Hy as [Hy0 Harea]. split; [exact Hy0|].
  pose proof (qoh_spec y s0 Balv ANalv Nalv) as Hq.
  split.
  - rewrite Hq. cbn [fst snd]. exact Harea.
  - unfold qoV. fold y. rewrite Hq, Harea. reflexivity.
Qed.

Lemma hoV_inverts_area_witness :
  (0 <= 10 / 2 /\
   ((~ PI / 2 < PI / 2 /\ 0 < 5) \/
    (PI / 2 < PI / 2 /\ 1e-6 <= cotan (PI / 2) /\ 0 <= 5))) /\
  let y := hoV 10 2 5 (PI / 2) in
  0 <= y /\
  (qoh y 0.001 5 (PI / 2) 0.03).1.1.1.2 = 10 / 2 /\
  qoV 10 2 0.001 5 (PI / 2) 0.03 =
    spec_manning 0.001 0.03 (10 / 2) (spec_perimeter y 5 (PI / 2)).
Proof.
  assert (H1 : 0 <= 10 / 2) by lra.
  assert (H2 : (~ PI / 2 < PI / 2 /\ 0 < 5) \/
               (PI / 2 < PI / 2 /\ 1e-6 <= cotan (PI / 2) /\ 0 <= 5)).
  { left. split; lra. }
  split; [split; assumption|].
  apply (hoV_inverts_area 10 2 0.001 5 (PI / 2) 0.03 H1 H2).
Defined.

(** X3. Below the threshold the two functions disagree: for a side slope
    [0 < dxdy < 1e-6] [hoV] uses the rectangular formula [V / xpix / Balv],
    while [qoh] still counts the sloping sides, so the wet area at the depth
    returned for [V] exceeds [V / xpix] by [dxdy] times the squared depth. *)
Theorem hoV_threshold_mismatch (V xpix s0 Balv Nalv dxdy : R) :
  0 < dxdy < 1e-6 -> Balv <> 0 ->
  let ANalv := rad_from_dxdy dxdy in
  let y := hoV V xpix Balv ANalv in
  y = V / xpix / Balv /\
  (qoh y s0 Balv ANalv Nalv).1.1.1.2 = V / xpix + dxdy * y ^ 2.
Proof.
  intros [Hd Hsmall] HB ANalv y.
  pose proof (rad_from_dxdy_bounds dxdy Hd) as Hb.
  pose proof (cotan_rad_from_dxdy dxdy Hd) as Hc. fold ANalv in Hb, Hc.
  assert (Hy : y = V / xpix / Balv).
  { unfold y, hoV. destruct (Rlt_dec ANalv (PI / 2)) as [_|?]; [|lra].
    rewrite Hc, (Rabs_pos_eq dxdy) by lra.
    destruct (Rlt_dec dxdy 1e-6) as [_|?]; [reflexivity | lra]. }
  split; [exact Hy|].
  unfold qoh. cbn [fst snd].
  destruct (Rlt_dec ANalv (PI / 2)) as [_|?]; [|lra].
  rewrite Hc. replace (V / xpix) with (Balv * y).
  - ring.
  - rewrite Hy. set (a := V / xpix). field. exact HB.
Qed.

Lemma hoV_threshold_mismatch_witness :
  (0 < 1e-7 < 1e-6 /\ 0.001 <> 0) /\
  let ANalv := rad_from_dxdy 1e-7 in
  let y := hoV 10 2 0.001 ANalv in
  y = 10 / 2 / 0.001 /\
  (qoh y 0.001 0.001 ANalv 0.03).1.1.1.2 = 10 / 2 + 1e-7 * y ^ 2.
Proof.
  assert (H : 0 < 1e-7 < 1e-6) by lra.
  assert (H' : 0.001 <> 0) by lra.
  split; [split; assumption|].
  apply (hoV_threshold_mismatch 10 2 0.001 0.001 0.03 1e-7 H H').
Defined.

(** ** Kinematic and split routing: storage-discharge relation *)

Lemma npow_inverse_r x b : 0 <= x -> b <> 0 -> npow (npow x b) (1 / b) = x.
Proof.
  intros Hx Hb.
  assert (Hib : 1 / b <> 0).
  { unfold Rdiv. rewrite Rmult_1_l. apply Rinv_neq_0_compat. exact Hb. }
  destruct (Req_dec_T x 0) as [->|Hnz].
  - rewrite (npow_zero _ Hb). apply npow_zero. exact Hib.
  - assert (Hpos : 0 < x) by lra.
    rewrite (npow_pos x _ Hpos Hb).
    assert (Hp : 0 < Rpower x b) by (unfold Rpower; apply exp_pos).
    rewrite (npow_pos _ _ Hp Hib), Rpower_mult.
    replace (b * (1 / b)) with 1 by (field; exact Hb).
    apply Rpower_1. exact Hpos.
Qed.

Lemma npow_mono x y p : 0 <= x <= y -> 0 < p -> npow x p <= npow y p.
Proof.
  intros [Hx Hxy] Hp. assert (Hpn : p <> 0) by lra.
  destruct (Req_dec_T x 0) as [->|Hnz].
  - rewrite (npow_zero _ Hpn). apply npow_nonneg. lra.
  - rewrite !npow_pos by lra. apply Rle_Rpower_l; lra.
Qed.

(** The volume of a line recomputed from its discharge. *)
Lemma line_volume_discharge (l a b V : R) :
  0 < l -> 0 < a -> 0 < b -> 0 <= V ->
  l * a * npow (npow (V * (1 / l) * (1 / a)) (1 / b)) b = V.
Proof.
  intros Hl Ha Hb HV.
  assert (Hbase : 0 <= V * (1 / l) * (1 / a)).
  { replace (V * (1 / l) * (1 / a)) with (V / (l * a)) by (field; lra).
    apply Rmult_le_pos; [exact HV|]. left. apply Rinv_0_lt_compat. nra. }
  rewrite npow_inverse by lra. field. lra.
Qed.

Section LineProps.
Context `{KinematicWave}.

(** X4. Where the solver returns a non-negative discharge, [KINRouting]
    passes it on unchanged, with the storage [ChanLength * ChannelAlpha *
    discharge ** Beta]: the clamp and the recomputation only act on negative
    discharges. *)
Theorem KINRouting_transparent (m : Maps) (Q S : list R) (i : nat) (l a b q' : R) :
  ChanLength m !! i = Some l ->
  ChannelAlpha m !! i = Some a ->
  Beta m !! i = Some b ->
  0 < l -> 0 < a -> 0 < b ->
  kinematicWaveRouting Q S main_channel !! i = Some q' ->
  0 <= q' ->
  (KINRouting m Q S).1 !! i = Some q' /\
  (KINRouting m Q S).2 !! i = Some (l * a * npow q' b).
Proof.
  intros Hl Ha Hb Hlpos Hapos Hbpos Hq' Hq0.
  assert (HV : 0 <= l * a * npow q' b).
  { apply Rmult_le_pos; [nra | apply npow_nonneg; exact Hq0]. }
  unfold KINRouting, InvBeta, InvChanLength, InvChannelAlpha. cbn [fst snd].
  unfold np_maximum, vpow, vmul, sdiv. split.
  - arr_eval. f_equal. rewrite (Rmax_left _ 0) by exact HV.
    replace (l * a * npow q' b * (1 / l) * (1 / a)) with (npow q' b) by (field; lra).
    apply npow_inverse_r; lra.
  - arr_eval. f_equal. apply Rmax_left. exact HV.
Qed.

(** The values written by [SplitRouting] at one pixel, from the discharges
    [q1], [q2] that the solver returns for the two lines. *)
Lemma SplitRouting_pixel (m : Maps) (v : Var) (S : list R) (i : nat)
    (l a a2 b ql q1 q2 : R) :
  ChanLength m !! i = Some l ->
  ChannelAlpha m !! i = Some a ->
  ChannelAlpha2 m !! i = Some a2 ->
  Beta m !! i = Some b ->
  QLimit m !! i = Some ql ->
  kinematicWaveRouting (ChanQKin v) (split_sideflow1 m v S) main_channel !! i = Some q1 ->
  kinematicWaveRouting (Chan2QKin v)
    (split_sideflow2 m S (split_sideflow1 m v S)) floodplains !! i = Some q2 ->
  let v' := SplitRouting m v S in
  let start := a2 * l * npow ql b in
  let V1 := Rmax (l * a * npow q1 b) 0 in
  let V2 := if Rlt_dec (l * a2 * npow q2 b - start) 0 then start else l * a2 * npow q2 b in
  Chan2M3Start m !! i = Some start /\
  ChanM3Kin v' !! i = Some V1 /\
  ChanQKin v' !! i = Some (npow (V1 * (1 / l) * (1 / a)) (1 / b)) /\
  Chan2M3Kin v' !! i = Some V2 /\
  Chan2QKin v' !! i = Some (npow (V2 * (1 / l) * (1 / a2)) (1 / b)) /\
  CrossSection2Area v' !! i = Some ((V2 - start) * (1 / l)).
Proof.
  intros Hl Ha Ha2 Hb Hql Hq1 Hq2 v' start V1 V2.
  assert (Hstart : Chan2M3Start m !! i = Some start).
  { unfold Chan2M3Start, vmul, vpow. arr_eval. reflexivity. }
  split; [exact Hstart|].
  unfold v', SplitRouting.
  cbn [ChanM3Kin ChanQKin Chan2M3Kin Chan2QKin CrossSection2Area].
  unfold InvBeta, InvChanLength, InvChannelAlpha, InvChannelAlpha2.
  unfold np_where, np_maximum, vlt_s, vpow, vmul, vsub, sdiv, Rltb.
  repeat split; arr_eval; unfold V1, V2;
    try destruct (Rlt_dec (l * a2 * npow q2 b - start) 0); reflexivity.
Qed.

(** Why the bankfull discharge must not be negative: with the exponent 1 and
    a negative [QLimit], a negative discharge of the floodplain line that
    lies above [QLimit] passes the floor of [SplitRouting] unchanged, so that
    the floodplain storage and discharge are negative and
    [ChanQKin + Chan2QKin - QLimit] falls below [ChanQKin - QLimit]. *)
Lemma split_floodplain_negative_QLimit (m : Maps) (v : Var) (S : list R) (i : nat)
    (l a a2 ql q1 q2 : R) :
  ChanLength m !! i = Some l ->
  ChannelAlpha m !! i = Some a ->
  ChannelAlpha2 m !! i = Some a2 ->
  Beta m !! i = Some 1 ->
  QLimit m !! i = Some ql ->
  kinematicWaveRouting (ChanQKin v) (split_sideflow1 m v S) main_channel !! i = Some q1 ->
  kinematicWaveRouting (Chan2QKin v)
    (split_sideflow2 m S (split_sideflow1 m v S)) floodplains !! i = Some q2 ->
  0 < l -> 0 < a2 -> ql <= q2 -> q2 < 0 ->
  Chan2M3Kin (SplitRouting m v S) !! i = Some (l * a2 * q2) /\
  Chan2QKin (SplitRouting m v S) !! i = Some q2 /\
  l * a2 * q2 < 0.
Proof.
  intros Hl Ha Ha2 Hb Hql Hq1 Hq2 Hlpos Ha2pos Hle Hneg.
  destruct (SplitRouting_pixel m v S i l a a2 1 ql q1 q2 Hl Ha Ha2 Hb Hql Hq1 Hq2)
    as (_ & _ & _ & HV2 & HQ2 & _).
  rewrite !npow_1 in HV2, HQ2.
  assert (Hla : 0 < l * a2) by nra.
  destruct (Rlt_dec (l * a2 * q2 - a2 * l * ql) 0) as [Hlt|_]; [nra|].
  split; [exact HV2|]. split; [|nra].
  rewrite HQ2. f_equal.
  replace (1 / 1) with 1 by lra. rewrite npow_1. field. lra.
Qed.

(** X5. After [SplitRouting] both routing lines satisfy the storage-discharge
    relation at every pixel with positive channel length, alpha coefficients
    and exponent and a bankfull discharge that is not negative, where the
    solver's discharges have a finite power:
    [ChanM3Kin = ChanLength * ChannelAlpha * ChanQKin ** Beta] and
    [Chan2M3Kin = ChanLength * ChannelAlpha2 * Chan2QKin ** Beta], storages
    and discharges being non-negative. *)
Theorem SplitRouting_consistent (m : Maps) (v : Var) (S : list R) (i : nat)
    (l a a2 b ql q1 q2 : R) :
  ChanLength m !! i = Some l ->
  ChannelAlpha m !! i = Some a ->
  ChannelAlpha2 m !! i = Some a2 ->
  Beta m !! i = Some b ->
  QLimit m !! i = Some ql ->
  kinematicWaveRouting (ChanQKin v) (split_sideflow1 m v S) main_channel !! i = Some q1 ->
  kinematicWaveRouting (Chan2QKin v)
    (split_sideflow2 m S (split_sideflow1 m v S)) floodplains !! i = Some q2 ->
  0 < l -> 0 < a -> 0 < a2 -> 0 < b -> 0 <= ql ->
  npow_finite q1 b -> npow_finite q2 b ->
  let v' := SplitRouting m v S in
  exists Q1 V1 Q2 V2,
    ChanQKin v' !! i = Some Q1 /\ ChanM3Kin v' !! i = Some V1 /\
    Chan2QKin v' !! i = Some Q2 /\ Chan2M3Kin v' !! i = Some V2 /\
    0 <= Q1 /\ 0 <= V1 /\ 0 <= Q2 /\ 0 <= V2 /\
    V1 = l * a * npow Q1 b /\ V2 = l * a2 * npow Q2 b.
Proof.
  intros Hl Ha Ha2 Hb Hql Hq1 Hq2 Hlpos Hapos Ha2pos Hbpos Hql0 _ _ v'.
  destruct (SplitRouting_pixel m v S i l a a2 b ql q1 q2 Hl Ha Ha2 Hb Hql Hq1 Hq2)
    as (_ & HV1 & HQ1 & HV2 & HQ2 & _).
  set (start := a2 * l * npow ql b) in *.
  set (V1 := Rmax (l * a * npow q1 b) 0) in *.
  set (V2 := if Rlt_dec (l * a2 * npow q2 b - start) 0 then start
             else l * a2 * npow q2 b) in *.
  assert (HV10 : 0 <= V1) by apply Rmax_r.
  assert (Hstart0 : 0 <= start).
  { apply Rmult_le_pos; [nra | apply npow_nonneg; exact Hql0]. }
  assert (HV20 : 0 <= V2) by (unfold V2; destruct (Rlt_dec _ 0); lra).
  assert (Hbase : forall V al, 0 <= V -> 0 < al -> 0 <= V * (1 / l) * (1 / al)).
  { intros V al HV Hal.
    apply Rmult_le_pos; [apply Rmult_le_pos; [exact HV|]|];
      left; apply Rdiv_lt_0_compat; lra. }
  eexists _, _, _, _. repeat (split; [eassumption|]).
  split; [apply npow_nonneg, Hbase; assumption|]. split; [exact HV10|].
  split; [apply npow_nonneg, Hbase; assumption|]. split; [exact HV20|].
  split; symmetry; apply line_volume_discharge; assumption.
Qed.

(** X6. With a non-negative bankfull discharge [QLimit], the discharge of the
    floodplain line after [SplitRouting] is at least [QLimit] and its
    over-bankfull area is non-negative; hence the clamp of the recombination
    in [dynamic] is never active: [ChanQ = ChanQKin + Chan2QKin - QLimit]. *)
Theorem split_floodplain_above_QLimit (m : Maps) (v : Var) (S : list R) (i : nat)
    (l a a2 b ql q1 q2 : R) :
  ChanLength m !! i = Some l ->
  ChannelAlpha m !! i = Some a ->
  ChannelAlpha2 m !! i = Some a2 ->
  Beta m !! i = Some b ->
  QLimit m !! i = Some ql ->
  kinematicWaveRouting (ChanQKin v) (split_sideflow1 m v S) main_channel !! i = Some q1 ->
  kinematicWaveRouting (Chan2QKin v)
    (split_sideflow2 m S (split_sideflow1 m v S)) floodplains !! i = Some q2 ->
  0 < l -> 0 < a -> 0 < a2 -> 0 < b -> 0 <= ql ->
  let v' := dynamic_split m v S in
  exists Q1 Q2 A2,
    ChanQKin v' !! i = Some Q1 /\ Chan2QKin v' !! i = Some Q2 /\
    CrossSection2Area v' !! i = Some A2 /\
    ql <= Q2 /\ 0 <= A2 /\
    ChanQ v' !! i = Some (Q1 + Q2 - ql).
Proof.
  intros Hl Ha Ha2 Hb Hql Hq1 Hq2 Hlpos Hapos Ha2pos Hbpos Hql0 v'.
  destruct (SplitRouting_pixel m v S i l a a2 b ql q1 q2 Hl Ha Ha2 Hb Hql Hq1 Hq2)
    as (_ & HV1 & HQ1 & HV2 & HQ2 & HA2).
  set (start := a2 * l * npow ql b) in *.
  set (V2 := if Rlt_dec (l * a2 * npow q2 b - start) 0 then start
             else l * a2 * npow q2 b) in *.
  assert (Hstart0 : 0 <= start).
  { apply Rmult_le_pos; [nra | apply npow_nonneg; exact Hql0]. }
  assert (HV2ge : start <= V2) by (unfold V2; destruct (Rlt_dec _ 0); lra).
  assert (Hbn : b <> 0) by lra.
  assert (HQ2ge : ql <= npow (V2 * (1 / l) * (1 / a2)) (1 / b)).
  { rewrite <- (npow_inverse_r ql b Hql0 Hbn) at 1.
    apply npow_mono.
    - split; [apply npow_nonneg; exact Hql0|].
      replace (npow ql b) with (start * (1 / l) * (1 / a2))
        by (unfold start; field; lra).
      apply Rmult_le_compat_r; [left; apply Rdiv_lt_0_compat; lra|].
      apply Rmult_le_compat_r; [left; apply Rdiv_lt_0_compat; lra|]. exact HV2ge.
    - apply Rdiv_lt_0_compat; lra. }
  eexists _, _, _.
  unfold v', dynamic_split. cbn [ChanQKin Chan2QKin CrossSection2Area ChanQ].
  split; [exact HQ1|]. split; [exact HQ2|]. split; [exact HA2|].
  split; [exact HQ2ge|]. split.
  - apply Rmult_le_pos; [lra|]. left. apply Rdiv_lt_0_compat; lra.
  - unfold np_maximum, vsub, vadd. arr_eval. f_equal. apply Rmax_left.
    assert (0 <= Rmax (l * a * npow q1 b) 0 * (1 / l) * (1 / a)).
    { apply Rmult_le_pos; [apply Rmult_le_pos; [apply Rmax_r|]|];
        left; apply Rdiv_lt_0_compat; lra. }
    pose proof (npow_nonneg (Rmax (l * a * npow q1 b) 0 * (1 / l) * (1 / a)) (1 / b)
                  ltac:(assumption)).
    lra.
Qed.

End LineProps.

Lemma KINRouting_transparent_witness :
  exists q',
    (ChanLength sample_maps !! 0%nat = Some 1000 /\
     ChannelAlpha sample_maps !! 0%nat = Some 2 /\
     Beta sample_maps !! 0%nat = Some 0.6 /\
     0 < 1000 /\ 0 < 2 /\ 0 < 0.6 /\
     @kinematicWaveRouting sample_router [1; 1] [0; 0] main_channel !! 0%nat = Some q' /\
     0 <= q') /\
    (@KINRouting sample_router sample_maps [1; 1] [0; 0]).1 !! 0%nat = Some q' /\
    (@KINRouting sample_router sample_maps [1; 1] [0; 0]).2 !! 0%nat
      = Some (1000 * 2 * npow q' 0.6).
Proof.
  exists (1 + 0). split.
  - repeat split; try reflexivity; lra.
  - apply (@KINRouting_transparent sample_router sample_maps [1; 1] [0; 0] 0%nat
             1000 2 0.6 (1 + 0)); try reflexivity; lra.
Defined.

Lemma SplitRouting_consistent_witness :
  exists q1 q2,
    (ChanLength sample_maps_linear !! 0%nat = Some 1000 /\
     ChannelAlpha sample_maps_linear !! 0%nat = Some 2 /\
     ChannelAlpha2 sample_maps_linear !! 0%nat = Some 3 /\
     Beta sample_maps_linear !! 0%nat = Some 1 /\
     QLimit sample_maps_linear !! 0%nat = Some 1 /\
     @kinematicWaveRouting sample_router (ChanQKin sample_var)
       (split_sideflow1 sample_maps_linear sample_var [5; 0]) main_channel !! 0%nat
       = Some q1 /\
     @kinematicWaveRouting sample_router (Chan2QKin sample_var)
       (split_sideflow2 sample_maps_linear [5; 0]
          (split_sideflow1 sample_maps_linear sample_var [5; 0]))
       floodplains !! 0%nat = Some q2 /\
     0 < 1000 /\ 0 < 2 /\ 0 < 3 /\ 0 < 1 /\ 0 <= 1 /\
     npow_finite q1 1 /\ npow_finite q2 1) /\
    let v' := @SplitRouting sample_router sample_maps_linear sample_var [5; 0] in
    exists Q1 V1 Q2 V2,
      ChanQKin v' !! 0%nat = Some Q1 /\ ChanM3Kin v' !! 0%nat = Some V1 /\
      Chan2QKin v' !! 0%nat = Some Q2 /\ Chan2M3Kin v' !! 0%nat = Some V2 /\
      0 <= Q1 /\ 0 <= V1 /\ 0 <= Q2 /\ 0 <= V2 /\
      V1 = 1000 * 2 * npow Q1 1 /\ V2 = 1000 * 3 * npow Q2 1.
Proof.
  assert (Hfin : forall x, npow_finite x 1)
    by (intros x; apply (npow_finite_whole x 1); lia).
  eexists _, _. split.
  - repeat split; try reflexivity; try lra; apply Hfin.
  - eapply (@SplitRouting_consistent sample_router sample_maps_linear sample_var [5; 0]
              0%nat 1000 2 3 1 1); try reflexivity; try lra; apply Hfin.
Defined.

Lemma split_floodplain_above_QLimit_witness :
  exists q1 q2,
    (ChanLength sample_maps !! 0%nat = Some 1000 /\
     ChannelAlpha sample_maps !! 0%nat = Some 2 /\
     ChannelAlpha2 sample_maps !! 0%nat = Some 3 /\
     Beta sample_maps !! 0%nat = Some 0.6 /\
     QLimit sample_maps !! 0%nat = Some 1 /\
     @kinematicWaveRouting sample_router (ChanQKin sample_var)
       (split_sideflow1 sample_maps sample_var [5; 0]) main_channel !! 0%nat = Some q1 /\
     @kinematicWaveRouting sample_router (Chan2QKin sample_var)
       (split_sideflow2 sample_maps [5; 0] (split_sideflow1 sample_maps sample_var [5; 0]))
       floodplains !! 0%nat = Some q2 /\
     0 < 1000 /\ 0 < 2 /\ 0 < 3 /\ 0 < 0.6 /\ 0 <= 1) /\
    let v' := @dynamic_split sample_router sample_maps sample_var [5; 0] in
    exists Q1 Q2 A2,
      ChanQKin v' !! 0%nat = Some Q1 /\ Chan2QKin v' !! 0%nat = Some Q2 /\
      CrossSection2Area v' !! 0%nat = Some A2 /\
      1 <= Q2 /\ 0 <= A2 /\
      ChanQ v' !! 0%nat = Some (Q1 + Q2 - 1).
Proof.
  eexists _, _. split.
  - repeat split; try reflexivity; lra.
  - eapply (@split_floodplain_above_QLimit sample_router sample_maps sample_var [5; 0]
              0%nat 1000 2 3 0.6 1); try reflexivity; lra.
Defined.

(** ** Start of the two routing lines *)

Ltac init_unfold :=
  unfold np_where_l, vand, np_maximum2, np_minimum2, np_minimum, smul, np_sqrt,
    np_square, vpow_s, np_where, np_where_s, np_maximum, np_abs, vgt, vgt_s, vlt_s,
    veq_s, vadd, vsub, vmul, vdiv, vpow, sdiv, vscale.

Lemma Rltb_false x y : y <= x -> Rltb x y = false.
Proof. intros Hxy. unfold Rltb. destruct (Rlt_dec x y); [lra|reflexivity]. Qed.

Lemma Rltb_true x y : x < y -> Rltb x y = true.
Proof. intros Hxy. unfold Rltb. destruct (Rlt_dec x y); [reflexivity|lra]. Qed.

Lemma Rgtb_false x y : x <= y -> Rgtb x y = false.
Proof. intros Hxy. unfold Rgtb. destruct (Rgt_dec x y); [lra|reflexivity]. Qed.

Lemma Rgtb_true x y : y < x -> Rgtb x y = true.
Proof. intros Hxy. unfold Rgtb. destruct (Rgt_dec x y); [reflexivity|lra]. Qed.

(** The values rebuilt by [initialSecond] at one pixel, from the total
    storage [V] and the over-bankfull area [A2] of the initial state. *)
Lemma initialSecond_pixel (o : Options) (m : Maps) (v : Var) (i : nat)
    (l a a2 b ql V A2 : R) :
  SplitRoutingOpt o = true -> InitLisflood o = false ->
  ChanLength m !! i = Some l ->
  ChannelAlpha m !! i = Some a ->
  ChannelAlpha2 m !! i = Some a2 ->
  Beta m !! i = Some b ->
  QLimit m !! i = Some ql ->
  ChanM3 v !! i = Some V ->
  CrossSection2Area v !! i = Some A2 ->
  let w := initialSecond o m v in
  let start := a2 * l * npow ql b in
  let V2 := A2 * l + start in
  let V1 := V - V2 + start in
  let V1 := if Rltb V1 0.0 && Rgtb V1 (-0.0000001) then 0.0 else V1 in
  Chan2M3Kin w !! i = Some V2 /\
  ChanM3Kin w !! i = Some V1 /\
  Chan2QKin w !! i = Some (npow (V2 * (1 / l) * (1 / a2)) (1 / b)) /\
  ChanQKin w !! i = Some (npow (V1 * (1 / l) * (1 / a)) (1 / b)).
Proof.
  intros Hs Hi Hl Ha Ha2 Hb Hql HV HA2 w start V2 V1 V1'.
  unfold w, initialSecond. rewrite Hs, Hi. cbn [andb negb].
  cbn [ChanM3Kin ChanQKin Chan2M3Kin Chan2QKin].
  unfold Chan2M3Start, InvBeta, InvChanLength, InvChannelAlpha, InvChannelAlpha2.
  init_unfold.
  repeat split; arr_eval; reflexivity.
Qed.

(** X7. Warm start.  When [initialSecond] is given the total storage and the
    over-bankfull area left by a split-routing sub-step, it rebuilds the
    storage and the discharge of both routing lines exactly as the sub-step
    left them. *)
Theorem warm_start_roundtrip `{KinematicWave} (o : Options) (m : Maps) (v : Var)
    (S : list R) (i : nat) (l a a2 b ql q1 q2 : R) :
  SplitRoutingOpt o = true -> InitLisflood o = false ->
  ChanLength m !! i = Some l ->
  ChannelAlpha m !! i = Some a ->
  ChannelAlpha2 m !! i = Some a2 ->
  Beta m !! i = Some b ->
  QLimit m !! i = Some ql ->
  kinematicWaveRouting (ChanQKin v) (split_sideflow1 m v S) main_channel !! i = Some q1 ->
  kinematicWaveRouting (Chan2QKin v)
    (split_sideflow2 m S (split_sideflow1 m v S)) floodplains !! i = Some q2 ->
  l <> 0 ->
  let v' := dynamic_split m v S in
  let w := initialSecond o m v' in
  is_Some (ChanM3Kin v' !! i) /\ is_Some (Chan2M3Kin v' !! i) /\
  ChanM3Kin w !! i = ChanM3Kin v' !! i /\
  Chan2M3Kin w !! i = Chan2M3Kin v' !! i /\
  ChanQKin w !! i = ChanQKin v' !! i /\
  Chan2QKin w !! i = Chan2QKin v' !! i.
Proof.
  intros Hs Hi Hl Ha Ha2 Hb Hql Hq1 Hq2 Hlnz v' w.
  destruct (SplitRouting_pixel m v S i l a a2 b ql q1 q2 Hl Ha Ha2 Hb Hql Hq1 Hq2)
    as (Hstart & HV1 & HQ1 & HV2 & HQ2 & HA2).
  set (start := a2 * l * npow ql b) in *.
  set (V1 := Rmax (l * a * npow q1 b) 0) in *.
  set (V2 := if Rlt_dec (l * a2 * npow q2 b - start) 0 then start
             else l * a2 * npow q2 b) in *.
  assert (HV : ChanM3 v' !! i = Some (V1 + V2 - start)).
  { unfold v', dynamic_split. cbn [ChanM3]. unfold vadd, vsub. arr_eval. reflexivity. }
  assert (HA2' : CrossSection2Area v' !! i = Some ((V2 - start) * (1 / l))) by exact HA2.
  destruct (initialSecond_pixel o m v' i l a a2 b ql _ _ Hs Hi Hl Ha Ha2 Hb Hql HV HA2')
    as (HwV2 & HwV1 & HwQ2 & HwQ1).
  fold start in HwV2, HwV1, HwQ2, HwQ1.
  assert (E2 : (V2 - start) * (1 / l) * l + start = V2) by (field; exact Hlnz).
  rewrite E2 in HwV2, HwV1, HwQ2, HwQ1.
  assert (E1 : V1 + V2 - start - V2 + start = V1) by ring.
  rewrite E1 in HwV1, HwQ1.
  assert (HV10 : 0 <= V1) by apply Rmax_r.
  rewrite (Rltb_false V1 0.0) in HwV1, HwQ1 by lra.
  cbn [andb] in HwV1, HwQ1.
  change (ChanM3Kin v' !! i) with (ChanM3Kin (SplitRouting m v S) !! i).
  change (Chan2M3Kin v' !! i) with (Chan2M3Kin (SplitRouting m v S) !! i).
  change (ChanQKin v' !! i) with (ChanQKin (SplitRouting m v S) !! i).
  change (Chan2QKin v' !! i) with (Chan2QKin (SplitRouting m v S) !! i).
  rewrite HV1, HV2, HQ1, HQ2.
  repeat split; try assumption; eexists; reflexivity.
Qed.

Lemma warm_start_roundtrip_witness :
  exists q1 q2,
    (SplitRoutingOpt split_options = true /\ InitLisflood split_options = false /\
     ChanLength sample_maps !! 0%nat = Some 1000 /\
     ChannelAlpha sample_maps !! 0%nat = Some 2 /\
     ChannelAlpha2 sample_maps !! 0%nat = Some 3 /\
     Beta sample_maps !! 0%nat = Some 0.6 /\
     QLimit sample_maps !! 0%nat = Some 1 /\
     @kinematicWaveRouting sample_router (ChanQKin sample_var)
       (split_sideflow1 sample_maps sample_var [5; 0]) main_channel !! 0%nat = Some q1 /\
     @kinematicWaveRouting sample_router (Chan2QKin sample_var)
       (split_sideflow2 sample_maps [5; 0] (split_sideflow1 sample_maps sample_var [5; 0]))
       floodplains !! 0%nat = Some q2 /\
     1000 <> 0) /\
    let v' := @dynamic_split sample_router sample_maps sample_var [5; 0] in
    let w := initialSecond split_options sample_maps v' in
    is_Some (ChanM3Kin v' !! 0%nat) /\ is_Some (Chan2M3Kin v' !! 0%nat) /\
    ChanM3Kin w !! 0%nat = ChanM3Kin v' !! 0%nat /\
    Chan2M3Kin w !! 0%nat = Chan2M3Kin v' !! 0%nat /\
    ChanQKin w !! 0%nat = ChanQKin v' !! 0%nat /\
    Chan2QKin w !! 0%nat = Chan2QKin v' !! 0%nat.
Proof.
  eexists _, _. split.
  - repeat split; try reflexivity; lra.
  - eapply (@warm_start_roundtrip sample_router split_options sample_maps sample_var
              [5; 0] 0%nat 1000 2 3 0.6 1); try reflexivity; lra.
Defined.

(** X8. Cold start.  Where the initial over-bankfull area is zero, the
    floodplain line starts exactly at bankfull, with storage [Chan2M3Start]
    and discharge [QLimit], and the main line takes the whole channel storage
    (a storage in the open interval from -1e-7 to 0 is read as 0). *)
Theorem cold_start_at_bankfull (o : Options) (m : Maps) (v : Var) (i : nat)
    (l a a2 b ql V : R) :
  SplitRoutingOpt o = true -> InitLisflood o = false ->
  ChanLength m !! i = Some l ->
  ChannelAlpha m !! i = Some a ->
  ChannelAlpha2 m !! i = Some a2 ->
  Beta m !! i = Some b ->
  QLimit m !! i = Some ql ->
  ChanM3 v !! i = Some V ->
  CrossSection2Area v !! i = Some 0 ->
  0 < l -> 0 < a2 -> 0 < b -> 0 <= ql ->
  let w := initialSecond o m v in
  Chan2M3Kin w !! i = Chan2M3Start m !! i /\
  Chan2QKin w !! i = Some ql /\
  ChanM3Kin w !! i = Some (if Rlt_dec V 0 then if Rgt_dec V (-1e-7) then 0 else V else V).
Proof.
  intros Hs Hi Hl Ha Ha2 Hb Hql HV HA2 Hlpos Ha2pos Hbpos Hql0 w.
  destruct (initialSecond_pixel o m v i l a a2 b ql V 0 Hs Hi Hl Ha Ha2 Hb Hql HV HA2)
    as (HwV2 & HwV1 & HwQ2 & _).
  fold w in HwV2, HwV1, HwQ2.
  assert (Hstart : Chan2M3Start m !! i = Some (a2 * l * npow ql b)).
  { unfold Chan2M3Start, vmul, vpow. arr_eval. reflexivity. }
  assert (E2 : 0 * l + a2 * l * npow ql b = a2 * l * npow ql b) by ring.
  rewrite E2 in HwV2, HwV1, HwQ2.
  split; [rewrite HwV2, Hstart; reflexivity|]. split.
  - rewrite HwQ2. f_equal.
    replace (a2 * l * npow ql b * (1 / l) * (1 / a2)) with (npow ql b) by (field; lra).
    apply npow_inverse_r; lra.
  - rewrite HwV1. f_equal.
    replace (V - a2 * l * npow ql b + a2 * l * npow ql b) with V by ring.
    unfold Rltb, Rgtb.
    destruct (Rlt_dec V 0.0), (Rlt_dec V 0); try lra;
      destruct (Rgt_dec V (-0.0000001)), (Rgt_dec V (-1e-7)); cbn [andb]; lra.
Qed.

Lemma cold_start_at_bankfull_witness :
  (SplitRoutingOpt split_options = true /\ InitLisflood split_options = false /\
   ChanLength sample_maps !! 0%nat = Some 1000 /\
   ChannelAlpha sample_maps !! 0%nat = Some 2 /\
   ChannelAlpha2 sample_maps !! 0%nat = Some 3 /\
   Beta sample_maps !! 0%nat = Some 0.6 /\
   QLimit sample_maps !! 0%nat = Some 1 /\
   ChanM3 sample_var !! 0%nat = Some 2000 /\
   CrossSection2Area sample_var !! 0%nat = Some 0 /\
   0 < 1000 /\ 0 < 3 /\ 0 < 0.6 /\ 0 <= 1) /\
  let w := initialSecond split_options sample_maps sample_var in
  Chan2M3Kin w !! 0%nat = Chan2M3Start sample_maps !! 0%nat /\
  Chan2QKin w !! 0%nat = Some 1 /\
  ChanM3Kin w !! 0%nat
    = Some (if Rlt_dec 2000 0 then if Rgt_dec 2000 (-1e-7) then 0 else 2000 else 2000).
Proof.
  split.
  - repeat split; try reflexivity; lra.
  - apply (cold_start_at_bankfull split_options sample_maps sample_var 0%nat
             1000 2 3 0.6 1 2000); try reflexivity; lra.
Defined.

(** ** Channel geometry and initial state *)

Lemma Rpower_inv_base x y : 0 < x -> Rpower (/ x) y = / Rpower x y.
Proof.
  intros Hx. unfold Rpower. rewrite ln_Rinv by exact Hx.
  replace (y * - ln x) with (- (y * ln x)) by ring. apply exp_Ropp.
Qed.

Lemma Rpower_pos x y : 0 < Rpower x y.
Proof. unfold Rpower. apply exp_pos. Qed.

Lemma Rpower_div_base x y z : 0 < x -> 0 < y -> Rpower (x / y) z = Rpower x z / Rpower y z.
Proof.
  intros Hx Hy. unfold Rdiv.
  rewrite <- Rpower_mult_distr by (try apply Rinv_0_lt_compat; assumption).
  rewrite Rpower_inv_base by exact Hy. reflexivity.
Qed.

(** The discharge [(A / Alpha) ** (1 / Beta)] for
    [Alpha = (n / sqrt S) ** Beta * P ** (2 / 3 * Beta)]. *)
Lemma alpha_discharge (n s b p a : R) :
  0 < n -> 0 < s -> 0 < b -> 0 < p -> 0 <= a ->
  let al := npow (n / sqrt s) b * npow p (2.0 / 3.0 * b) in
  0 < al /\ npow (a / al) (1 / b) = sqrt s / n * npow a (1 / b) / npow p (2 / 3).
Proof.
  intros Hn Hs Hb Hp Ha al.
  assert (Hrs : 0 < sqrt s) by (apply sqrt_lt_R0; exact Hs).
  assert (Hns : 0 < n / sqrt s) by (apply Rdiv_lt_0_compat; assumption).
  assert (Hib : 1 / b <> 0).
  { unfold Rdiv. rewrite Rmult_1_l. apply Rinv_neq_0_compat. lra. }
  assert (Hal : al = Rpower (n / sqrt s) b * Rpower p (2 / 3 * b)).
  { unfold al. rewrite !npow_pos by lra.
    replace (2.0 / 3.0 * b) with (2 / 3 * b) by lra. reflexivity. }
  assert (Halpos : 0 < al).
  { rewrite Hal. apply Rmult_lt_0_compat; apply Rpower_pos. }
  split; [exact Halpos|].
  rewrite (npow_pos p (2 / 3)) by lra.
  destruct (Req_dec_T a 0) as [->|Hnz].
  - replace (0 / al) with 0 by (unfold Rdiv; ring).
    rewrite (npow_zero _ Hib). unfold Rdiv. ring.
  - assert (Hapos : 0 < a) by lra.
    rewrite !npow_pos by (try apply Rdiv_lt_0_compat; lra).
    rewrite Rpower_div_base by assumption.
    rewrite Hal at 1.
    rewrite <- Rpower_mult_distr by apply Rpower_pos.
    rewrite !Rpower_mult.
    replace (b * (1 / b)) with 1 by (field; lra).
    replace (2 / 3 * b * (1 / b)) with (2 / 3) by (field; lra).
    rewrite Rpower_1 by exact Hns.
    pose proof (Rpower_pos p (2 / 3)) as Hpp.
    field. repeat split; lra.
Qed.

(** X9. The kinematic-wave coefficient [ChannelAlpha] encodes Manning's
    equation: the initial discharge that [initial] computes from the
    cross-sectional area [A] is
    [sqrt(ChanGrad) / ChanMan * A ** (1 / Beta) / P ** (2 / 3)] for the wetted
    perimeter [P] at half bankfull, and [ChannelAlpha] is positive. *)
Theorem initial_alpha_manning (ChanMan ChanGrad Beta P A : list R) (i : nat)
    (n s b p a : R) :
  ChanMan !! i = Some n -> ChanGrad !! i = Some s -> Beta !! i = Some b ->
  P !! i = Some p -> A !! i = Some a ->
  0 < n -> 0 < s -> 0 < b -> 0 < p -> 0 <= a ->
  let Alpha := initial_ChannelAlpha ChanMan ChanGrad Beta P in
  exists al, Alpha !! i = Some al /\ 0 < al /\
    initial_ChanQKin Alpha A Beta !! i
      = Some (sqrt s / n * npow a (1 / b) / npow p (2 / 3)).
Proof.
  intros Hn Hs Hb Hp Ha Hnpos Hspos Hbpos Hppos Ha0 Alpha.
  destruct (alpha_discharge n s b p a Hnpos Hspos Hbpos Hppos Ha0) as [Halpos Hq].
  set (al := npow (n / sqrt s) b * npow p (2.0 / 3.0 * b)) in *.
  assert (HAl : Alpha !! i = Some al).
  { unfold Alpha, initial_ChannelAlpha. init_unfold. arr_eval. reflexivity. }
  exists al. split; [exact HAl|]. split; [exact Halpos|].
  unfold initial_ChanQKin. init_unfold. arr_eval.
  rewrite (Rgtb_true al 0) by exact Halpos. rewrite Hq. reflexivity.
Qed.

Lemma initial_alpha_manning_witness :
  ([0.03] !! 0%nat = Some 0.03 /\ [0.001] !! 0%nat = Some 0.001 /\
   [0.6] !! 0%nat = Some 0.6 /\ [7] !! 0%nat = Some 7 /\ [4] !! 0%nat = Some 4 /\
   0 < 0.03 /\ 0 < 0.001 /\ 0 < 0.6 /\ 0 < 7 /\ 0 <= 4) /\
  let Alpha := initial_ChannelAlpha [0.03] [0.001] [0.6] [7] in
  exists al, Alpha !! 0%nat = Some al /\ 0 < al /\
    initial_ChanQKin Alpha [4] [0.6] !! 0%nat
      = Some (sqrt 0.001 / 0.03 * npow 4 (1 / 0.6) / npow 7 (2 / 3)).
Proof.
  split.
  - repeat split; try reflexivity; lra.
  - apply (initial_alpha_manning [0.03] [0.001] [0.6] [7] [4] 0%nat 0.03 0.001 0.6 7 4);
      try reflexivity; lra.
Defined.

Lemma sin_rad_from_dxdy (dxdy h : R) :
  0 < dxdy -> 0 <= h ->
  sqrt (h * h + h * dxdy * (h * dxdy)) = h / sin (rad_from_dxdy dxdy).
Proof.
  intros Hd Hh. unfold rad_from_dxdy. rewrite sin_atan.
  set (r := sqrt (1 + (1 / dxdy)²)).
  assert (Hr0 : 0 <= 1 + (1 / dxdy)²) by (unfold Rsqr; nra).
  assert (Hrr : r * r = 1 + (1 / dxdy)²) by (apply sqrt_sqrt; exact Hr0).
  assert (Hrpos : 0 < r).
  { apply sqrt_lt_R0. unfold Rsqr. nra. }
  replace (h / (1 / dxdy / r)) with (h * dxdy * r) by (field; split; lra).
  apply sqrt_lem_1.
  - nra.
  - apply Rmult_le_pos; [nra | lra].
  - replace (h * dxdy * r * (h * dxdy * r)) with (h * h * dxdy * dxdy * (r * r)) by ring.
    rewrite Hrr. unfold Rsqr. field. lra.
Qed.

(** X10. The channel geometry of [initial] is the trapezoid of [qoh] whose
    side angle is [rad_from_dxdy ChanSdXdY]: the bankfull area and the upper
    width are the wet area and the surface width at bankfull depth, and the
    wetted perimeter used for [ChannelAlpha] is the wet contour at half that
    depth. *)
Theorem initial_geometry_qoh (IsChannel : list bool)
    (ChanBottomWidth ChanSdXdY ChanDepthThreshold : list R) (i : nat)
    (bw sd d s0 n : R) :
  IsChannel !! i = Some true ->
  ChanBottomWidth !! i = Some bw -> ChanSdXdY !! i = Some sd ->
  ChanDepthThreshold !! i = Some d ->
  0 < sd -> 0 <= d ->
  let full := qoh d s0 bw (rad_from_dxdy sd) n in
  let half := qoh (0.5 * d) s0 bw (rad_from_dxdy sd) n in
  initial_TotalCrossSectionAreaBankFull ChanBottomWidth ChanSdXdY ChanDepthThreshold !! i
    = Some full.1.1.1.2 /\
  initial_ChanUpperWidth ChanBottomWidth ChanSdXdY ChanDepthThreshold !! i
    = Some full.1.1.2 /\
  initial_ChanWettedPerimeterAlpha IsChannel ChanBottomWidth ChanSdXdY ChanDepthThreshold !! i
    = Some half.1.2.
Proof.
  intros Hc Hbw Hsd Hd Hsdpos Hd0 full half.
  pose proof (rad_from_dxdy_bounds sd Hsdpos) as [_ Hhi].
  pose proof (cotan_rad_from_dxdy sd Hsdpos) as Hcot.
  unfold full, half, qoh. cbn [fst snd].
  destruct (Rlt_dec (rad_from_dxdy sd) (PI / 2)) as [_|Hn]; [|lra].
  rewrite Hcot.
  unfold initial_TotalCrossSectionAreaBankFull, initial_ChanWettedPerimeterAlpha,
    initial_ChanUpperWidth.
  init_unfold. repeat split; arr_eval; f_equal.
  - replace 0.5 with (1 / 2) by lra. field.
  - ring.
  - set (h := 0.5 * d). rewrite sin_rad_from_dxdy by (unfold h; lra).
    unfold Rdiv. ring.
Qed.

Lemma initial_geometry_qoh_witness :
  ([true] !! 0%nat = Some true /\ [5] !! 0%nat = Some 5 /\ [2] !! 0%nat = Some 2 /\
   [3] !! 0%nat = Some 3 /\ 0 < 2 /\ 0 <= 3) /\
  let full := qoh 3 0.001 5 (rad_from_dxdy 2) 0.03 in
  let half := qoh (0.5 * 3) 0.001 5 (rad_from_dxdy 2) 0.03 in
  initial_TotalCrossSectionAreaBankFull [5] [2] [3] !! 0%nat = Some full.1.1.1.2 /\
  initial_ChanUpperWidth [5] [2] [3] !! 0%nat = Some full.1.1.2 /\
  initial_ChanWettedPerimeterAlpha [true] [5] [2] [3] !! 0%nat = Some half.1.2.
Proof.
  split.
  - repeat split; try reflexivity; lra.
  - apply (initial_geometry_qoh [true] [5] [2] [3] 0%nat 5 2 3 0.001 0.03);
      try reflexivity; lra.
Defined.

(** X11. The channel gradient set by [initial] is the larger of the map and
    its minimum, except that with MCT routing an MCT pixel is capped at
    0.001.  It is positive whenever the minimum is, and on an MCT pixel the
    cap wins over a minimum above 0.001. *)
Theorem initial_ChanGrad_bounds (MCTRouting : bool) (IsChannelMCT : list bool)
    (ChanGrad ChanGradMin : list R) (i : nat) (mct : bool) (g gmin : R) :
  IsChannelMCT !! i = Some mct ->
  ChanGrad !! i = Some g -> ChanGradMin !! i = Some gmin ->
  exists r,
    initial_ChanGrad MCTRouting IsChannelMCT ChanGrad ChanGradMin !! i = Some r /\
    r = (if MCTRouting && mct then Rmin (Rmax g gmin) 0.001 else Rmax g gmin) /\
    (0 < gmin -> 0 < r) /\
    (MCTRouting && mct = true -> 0.001 < gmin -> r = 0.001 /\ r < gmin).
Proof.
  intros Hm Hg Hgmin.
  assert (Hmax : np_maximum2 ChanGrad ChanGradMin !! i = Some (Rmax g gmin)).
  { unfold np_maximum2. arr_eval. reflexivity. }
  pose proof (Rmax_r g gmin) as Hr. pose proof (Rmax_l g gmin) as Hl.
  exists (if MCTRouting
          then if mct && Rgtb (Rmax g gmin) 0.001 then 0.001 else Rmax g gmin
          else Rmax g gmin).
  split.
  - unfold initial_ChanGrad. destruct MCTRouting; [|exact Hmax].
    unfold np_maximum2 in Hmax. unfold np_maximum2, np_where_l, vand, vgt_s.
    arr_eval. reflexivity.
  - unfold Rgtb. destruct MCTRouting, mct; cbn [andb];
      try destruct (Rgt_dec (Rmax g gmin) 0.001);
      repeat split; intros; try discriminate;
      try (unfold Rmin; destruct (Rle_dec (Rmax g gmin) 0.001)); lra.
Qed.

Lemma initial_ChanGrad_bounds_witness :
  ([true] !! 0%nat = Some true /\ [0.0005] !! 0%nat = Some 0.0005 /\
   [0.002] !! 0%nat = Some 0.002) /\
  exists r,
    initial_ChanGrad true [true] [0.0005] [0.002] !! 0%nat = Some r /\
    r = (if true && true then Rmin (Rmax 0.0005 0.002) 0.001 else Rmax 0.0005 0.002) /\
    (0 < 0.002 -> 0 < r) /\
    (true && true = true -> 0.001 < 0.002 -> r = 0.001 /\ r < 0.002).
Proof.
  split.
  - repeat split; reflexivity.
  - apply (initial_ChanGrad_bounds true [true] [0.0005] [0.002] 0%nat true 0.0005 0.002);
      reflexivity.
Defined.

(** X12. The initial state of a kinematic pixel already satisfies the
    storage/discharge relation that the routers maintain:
    [ChanM3 = ChanLength * ChannelAlpha * ChanQKin ** Beta]. *)
Theorem initial_state_consistent (ChannelAlpha TotalCrossSectionArea Beta ChanLength : list R)
    (i : nat) (al a b l : R) :
  ChannelAlpha !! i = Some al -> TotalCrossSectionArea !! i = Some a ->
  Beta !! i = Some b -> ChanLength !! i = Some l ->
  0 < al -> 0 <= a -> 0 < b ->
  exists V Q,
    initial_ChanM3 TotalCrossSectionArea ChanLength !! i = Some V /\
    initial_ChanQKin ChannelAlpha TotalCrossSectionArea Beta !! i = Some Q /\
    0 <= Q /\ V = l * al * npow Q b.
Proof.
  intros Hal Ha Hb Hl Halpos Ha0 Hbpos.
  eexists _, _. split; [|split].
  - unfold initial_ChanM3, vmul. arr_eval. reflexivity.
  - unfold initial_ChanQKin. init_unfold. arr_eval.
    rewrite (Rgtb_true al 0) by exact Halpos. reflexivity.
  - assert (Hbase : 0 <= a / al).
    { apply Rmult_le_pos; [exact Ha0|]. left. apply Rinv_0_lt_compat. exact Halpos. }
    split; [apply npow_nonneg; exact Hbase|].
    rewrite npow_inverse.
    + field. lra.
    + exact Hbase.
    + lra.
Qed.

Lemma initial_state_consistent_witness :
  ([2] !! 0%nat = Some 2 /\ [4] !! 0%nat = Some 4 /\ [0.6] !! 0%nat = Some 0.6 /\
   [1000] !! 0%nat = Some 1000 /\ 0 < 2 /\ 0 <= 4 /\ 0 < 0.6) /\
  exists V Q,
    initial_ChanM3 [4] [1000] !! 0%nat = Some V /\
    initial_ChanQKin [2] [4] [0.6] !! 0%nat = Some Q /\
    0 <= Q /\ V = 1000 * 2 * npow Q 0.6.
Proof.
  split.
  - repeat split; try reflexivity; lra.
  - apply (initial_state_consistent [2] [4] [0.6] [1000] 0%nat 2 4 0.6 1000);
      try reflexivity; lra.
Defined.

(** ** The sub-step as a whole *)

(** X13. The channel velocity is non-negative and bounded both by the
    Wollheim relation [0.36 * Q ** 0.24] and, because the cross-sectional
    area is never taken below 0.01 m2, by [100 * Q]. *)
Theorem FlowVelocity_bounds (m : Maps) (v : Var) (PixelArea : list R) (i : nat)
    (l V Q pa : R) :
  ChanLength m !! i = Some l -> ChanM3Kin v !! i = Some V ->
  ChanQKin v !! i = Some Q -> PixelArea !! i = Some pa ->
  0 < l -> 0 <= Q -> 0 <= pa ->
  exists fv, FlowVelocity m v PixelArea !! i = Some fv /\
    0 <= fv /\ fv <= 0.36 * npow Q 0.24 /\ fv <= 100 * Q.
Proof.
  intros Hl HV HQ Hpa Hlpos HQ0 Hpa0.
  eexists. split.
  { unfold FlowVelocity, InvChanLength. init_unfold. arr_eval. reflexivity. }
  set (A := Rmax (V * (1 / l)) 0.01).
  set (f := Rmin (sqrt pa * (1 / l)) 1).
  set (w := 0.36 * npow Q 0.24).
  assert (HA : 0.01 <= A) by apply Rmax_r.
  assert (Hw : 0 <= w).
  { unfold w. apply Rmult_le_pos; [lra | apply npow_nonneg; exact HQ0]. }
  assert (Hf : 0 <= f <= 1).
  { unfold f. split; [|apply Rmin_r].
    apply Rmin_glb; [|lra].
    apply Rmult_le_pos; [apply sqrt_pos|].
    left. apply Rdiv_lt_0_compat; lra. }
  assert (HQA : 0 <= Q / A <= 100 * Q).
  { assert (HiA : 0 < / A <= 100).
    { split; [apply Rinv_0_lt_compat; lra|].
      replace 100 with (/ 0.01) by lra.
      apply Rinv_le_contravar; lra. }
    unfold Rdiv. nra. }
  assert (Hmin : 0 <= Rmin (Q / A) w) by (apply Rmin_glb; lra).
  pose proof (Rmin_l (Q / A) w) as Hml. pose proof (Rmin_r (Q / A) w) as Hmr.
  repeat split; nra.
Qed.

Lemma FlowVelocity_bounds_witness :
  (ChanLength sample_maps !! 0%nat = Some 1000 /\
   ChanM3Kin sample_var !! 0%nat = Some 2000 /\
   ChanQKin sample_var !! 0%nat = Some 1 /\ [25000000] !! 0%nat = Some 25000000 /\
   0 < 1000 /\ 0 <= 1 /\ 0 <= 25000000) /\
  exists fv, FlowVelocity sample_maps sample_var [25000000] !! 0%nat = Some fv /\
    0 <= fv /\ fv <= 0.36 * npow 1 0.24 /\ fv <= 100 * 1.
Proof.
  split.
  - repeat split; try reflexivity; lra.
  - apply (FlowVelocity_bounds sample_maps sample_var [25000000] 0%nat 1000 2000 1
             25000000); try reflexivity; lra.
Defined.

Section SubSteps.
Context `{KinematicWave} `{Pcraster}.

Lemma dynamic_PrevDm0 o wave m v S v' :
  dynamic o wave m v S = Some v' -> PrevDm0 v' = PrevDm0 v.
Proof.
  unfold dynamic, kinematic_active, split_active, mct_active, dynamic_mct.
  destruct (InitLisflood o), (SplitRoutingOpt o), (MCTRoutingOpt o);
    cbn [negb andb orb]; intros Hrun;
    try (injection Hrun as <-; unfold dynamic_kinematic, set_IsChannelKinematic;
         try destruct (KINRouting _ _ _); reflexivity).
  destruct (KINRouting _ _ _) as [Qend Vend].
  destruct (MCTRoutingLoop _ _ _ _ _ _ _ _) as [[[[Q V] Cm] Dm]|];
    [|discriminate].
  cbn [mbind option_bind] in Hrun. injection Hrun as <-. reflexivity.
Qed.

Lemma dynamic_mct_kinematic_state o wave m v S v' :
  mct_active o = true ->
  dynamic o wave m v S = Some v' ->
  ChanQKin v' = ChanQKin v /\ ChanM3Kin v' = ChanM3Kin v.
Proof.
  unfold dynamic, kinematic_active, split_active, mct_active, dynamic_mct.
  destruct (InitLisflood o), (SplitRoutingOpt o), (MCTRoutingOpt o);
    cbn [negb andb orb]; intros Hact Hrun; try discriminate.
  destruct (KINRouting _ _ _) as [Qend Vend].
  destruct (MCTRoutingLoop _ _ _ _ _ _ _ _) as [[[[Q V] Cm] Dm]|];
    [|discriminate].
  cbn [mbind option_bind] in Hrun. injection Hrun as <-. split; reflexivity.
Qed.

(** X14. No sequence of routing sub-steps, in any routing mode, ever changes
    [PrevDm0]: the cell Reynolds number returned by the MCT pixel loop is
    stored under the attribute [prevDm0], so that every sub-step hands to the
    pixel loop the [PrevDm0] of the initial state. *)
Theorem substeps_never_update_PrevDm0 (o : Options) (wave : MctWave) (m : Maps)
    (v v' : Var) (sideflows : list (list R)) :
  foldM (dynamic o wave m) v sideflows = Some v' ->
  PrevDm0 v' = PrevDm0 v /\
  (mct_active o = true -> sideflows <> [] -> is_Some (prevDm0 v')).
Proof.
  intros Hrun. split.
  - apply (foldM_invariant (fun s => PrevDm0 s = PrevDm0 v) (dynamic o wave m))
      with (l := sideflows) (s := v); [|reflexivity|exact Hrun].
    intros s a s' Hs Hstep. rewrite <- Hs. eapply dynamic_PrevDm0. exact Hstep.
  - intros Hact Hne.
    destruct (exists_last Hne) as (front & S & ->).
    assert (Hlast : exists u, dynamic o wave m u S = Some v').
    { clear Hne. revert v Hrun.
      induction front as [|a front IH]; intros v Hrun; cbn [app foldM] in Hrun.
      - destruct (dynamic o wave m v S) as [u|] eqn:Hu; [|discriminate].
        cbn [mbind option_bind] in Hrun. exists v. congruence.
      - destruct (dynamic o wave m v a) as [u|]; [|discriminate].
        cbn [mbind option_bind] in Hrun. eapply IH. exact Hrun. }
    destruct Hlast as (u & Hu). revert Hu.
    unfold dynamic, kinematic_active, split_active, dynamic_mct.
    unfold mct_active in *.
    destruct (InitLisflood o), (SplitRoutingOpt o), (MCTRoutingOpt o);
      try discriminate; cbn [negb andb orb].
    destruct (KINRouting _ _ _) as [Qend Vend].
    destruct (MCTRoutingLoop _ _ _ _ _ _ _ _) as [[[[Q V] Cm] Dm]|];
      cbn [mbind option_bind]; intros Hu; [|discriminate].
    injection Hu as <-. eexists. reflexivity.
Qed.

(** X15. With MCT routing, the sub-steps never write the kinematic state
    [ChanQKin], [ChanM3Kin]; the flow velocity, which is computed from these
    two arrays, is therefore the same after every sub-step. *)
Theorem mct_substeps_freeze_velocity (o : Options) (wave : MctWave) (m : Maps)
    (v v' : Var) (sideflows : list (list R)) (PixelArea : list R) :
  mct_active o = true ->
  foldM (dynamic o wave m) v sideflows = Some v' ->
  ChanQKin v' = ChanQKin v /\ ChanM3Kin v' = ChanM3Kin v /\
  FlowVelocity m v' PixelArea = FlowVelocity m v PixelArea.
Proof.
  intros Hact Hrun.
  assert (Hinv : ChanQKin v' = ChanQKin v /\ ChanM3Kin v' = ChanM3Kin v).
  { apply (foldM_invariant
             (fun s => ChanQKin s = ChanQKin v /\ ChanM3Kin s = ChanM3Kin v)
             (dynamic o wave m)) with (l := sideflows) (s := v);
      [|split; reflexivity|exact Hrun].
    intros s a s' [HQ HV] Hstep.
    destruct (dynamic_mct_kinematic_state o wave m s a s' Hact Hstep) as [HQ' HV'].
    split; congruence. }
  destruct Hinv as [HQ HV]. repeat split; try assumption.
  unfold FlowVelocity. rewrite HQ, HV. reflexivity.
Qed.

End SubSteps.

Lemma sample_mct_substep :
  exists v', @dynamic sample_router sample_upstream mct_options sample_wave sample_maps
               sample_var [5; 5] = Some v'.
Proof.
  assert (Hm : maps_shape 2 sample_maps) by (repeat split; reflexivity).
  assert (Hv : var_shape 2 sample_var) by (repeat split; reflexivity).
  unfold dynamic. cbn [mct_active kinematic_active split_active mct_options InitLisflood
    SplitRoutingOpt MCTRoutingOpt negb andb orb].
  edestruct (@dynamic_mct_total sample_router sample_upstream sample_wave sample_maps
               sample_var) as (v' & Hv' & _);
    [exact Hm | exact Hv | apply sample_router_shape | apply sample_upstream_shape
    | apply sample_wave_ok | | | exists v'; exact Hv'];
    reflexivity.
Defined.

Lemma substeps_never_update_PrevDm0_witness :
  exists v',
    @foldM _ _ (@dynamic sample_router sample_upstream mct_options sample_wave sample_maps)
      sample_var [[5; 5]] = Some v' /\
    PrevDm0 v' = PrevDm0 sample_var /\
    (mct_active mct_options = true -> [[5; 5]] <> [] -> is_Some (prevDm0 v')).
Proof.
  destruct sample_mct_substep as (v' & Hv').
  assert (Hrun : @foldM _ _ (@dynamic sample_router sample_upstream mct_options sample_wave
                     sample_maps) sample_var [[5; 5]] = Some v').
  { cbn [foldM]. rewrite Hv'. reflexivity. }
  exists v'. split; [exact Hrun|].
  apply (@substeps_never_update_PrevDm0 sample_router sample_upstream mct_options
           sample_wave sample_maps sample_var v' [[5; 5]] Hrun).
Defined.

Lemma mct_substeps_freeze_velocity_witness :
  exists v',
    (mct_active mct_options = true /\
     @foldM _ _ (@dynamic sample_router sample_upstream mct_options sample_wave
                   sample_maps) sample_var [[5; 5]] = Some v') /\
    ChanQKin v' = ChanQKin sample_var /\ ChanM3Kin v' = ChanM3Kin sample_var /\
    FlowVelocity sample_maps v' [25000000; 25000000]
      = FlowVelocity sample_maps sample_var [25000000; 25000000].
Proof.
  destruct sample_mct_substep as (v' & Hv').
  assert (Hrun : @foldM _ _ (@dynamic sample_router sample_upstream mct_options sample_wave
                     sample_maps) sample_var [[5; 5]] = Some v').
  { cbn [foldM]. rewrite Hv'. reflexivity. }
  exists v'. split; [split; [reflexivity | exact Hrun]|].
  apply (@mct_substeps_freeze_velocity sample_router sample_upstream mct_options
           sample_wave sample_maps sample_var v' [[5; 5]] [25000000; 25000000]
           eq_refl Hrun).
Defined.

(** ** Routing orders and the pixel loop *)

(** The routing orders built by [_setMCTRoutingOrders] index into
    [pixels_ordered], whose entries are pixel numbers of the network. *)
Lemma setMCTRoutingOrders_wave_ok down up wave :
  _setMCTRoutingOrders down up = Some wave -> wave_ok (length down) wave.
Proof.
  unfold _setMCTRoutingOrders. intros Hrun.
  destruct (topoDistFromSea down up) as [dist|] eqn:Hdist; [|discriminate].
  cbn [mbind option_bind] in Hrun.
  destruct (decide (dist = [])) as [|Hne]; [discriminate|].
  injection Hrun as <-.
  destruct (topoDistFromSea_lookup _ _ _ Hdist) as [Hlen _].
  set (o := routing_order dist).
  assert (Hlo : length o = length down).
  { unfold o, routing_order. rewrite length_fmap. exact Hlen. }
  set (series := sort_values (zip o (seq 0 (length o)))).
  assert (Hperm : series ≡ₚ zip o (seq 0 (length o))) by apply sort_values_Permutation.
  assert (Hpix : series.*2 ≡ₚ seq 0 (length o)).
  { rewrite Hperm. rewrite snd_zip; [reflexivity | rewrite length_seq; lia]. }
  pose proof (groupby_count_grouped _ (sort_values_index_sorted (zip o (seq 0 (length o)))))
    as (Hexp & _ & _).
  fold series in Hexp. set (rl := groupby_count (series.*1)) in *.
  assert (Hsum : sum_list (rl.*2) = length (series.*2)).
  { rewrite <- length_expand, Hexp, !length_fmap. reflexivity. }
  split; cbn [order_start_stop pixels_ordered].
  - unfold start_stop, cumsum. rewrite start_stop_cumsum.
    apply Forall_lookup. intros b [first last] Hb. cbn [snd].
    destruct (ranges_from_bounds _ _ _ _ _ Hb) as (Hbd & _ & _). lia.
  - apply Forall_forall. intros p Hp. rewrite Hpix in Hp.
    apply elem_of_seq in Hp. lia.
Qed.

Section Schedule.
Context `{Pcraster}.

(** X16. The routing orders built by [mctWave] for a network of MCT pixels
    are a valid schedule for [MCTRoutingLoop]: on maps of one shape the loop
    visits every scheduled pixel without an indexing error and returns
    non-negative discharge and storage. *)
Theorem scheduled_loop_completes (down : list Z) (up : list (list Z)) (wave : MctWave)
    (m : Maps) (v : Var) (Qout Qin Qkin Ql M3 : list R) :
  let N := length (IsChannelKinematic v) in
  _setMCTRoutingOrders down up = Some wave ->
  length down = count_mct (IsChannelKinematic v) ->
  upstream_shape -> maps_shape N m -> var_shape N v ->
  length Qout = N -> length Qin = N -> length Qkin = N -> length Ql = N ->
  length M3 = N ->
  exists Q V Cm Dm,
    MCTRoutingLoop m v wave Qout Qin Qkin Ql M3 = Some (Q, V, Cm, Dm) /\
    length Q = N /\ length V = N /\
    Forall (Rle 0) Q /\ Forall (Rle 0) V.
Proof.
  intros N Hwave Hcount Hup Hm Hv HQout HQin HQkin HQl HM3.
  pose proof (setMCTRoutingOrders_wave_ok _ _ _ Hwave) as Hok.
  rewrite Hcount in Hok.
  destruct (MCTRoutingLoop_total m v wave Qout Qin Qkin Ql M3 Hup Hm Hv Hok
              HQout HQin HQkin HQl HM3) as (Q & V & Cm & Dm & Hloop & HlQ & HlV & _).
  destruct (MCTRoutingLoop_nonneg _ _ _ _ _ _ _ _ _ _ _ _ Hloop) as [HQ0 HV0].
  exists Q, V, Cm, Dm. auto.
Qed.

End Schedule.

Lemma scheduled_loop_completes_witness :
  exists wave,
    (_setMCTRoutingOrders [(-1)%Z] [] = Some wave /\
     length [(-1)%Z] = count_mct (IsChannelKinematic sample_var) /\
     @upstream_shape sample_upstream /\
     maps_shape (length (IsChannelKinematic sample_var)) sample_maps /\
     var_shape (length (IsChannelKinematic sample_var)) sample_var /\
     length [1; 1] = length (IsChannelKinematic sample_var) /\
     length [0; 1] = length (IsChannelKinematic sample_var) /\
     length [1; 2] = length (IsChannelKinematic sample_var) /\
     length [0; 0] = length (IsChannelKinematic sample_var) /\
     length [2000; 2000] = length (IsChannelKinematic sample_var)) /\
    exists Q V Cm Dm,
      @MCTRoutingLoop sample_upstream sample_maps sample_var wave
        [1; 1] [0; 1] [1; 2] [0; 0] [2000; 2000] = Some (Q, V, Cm, Dm) /\
      length Q = length (IsChannelKinematic sample_var) /\
      length V = length (IsChannelKinematic sample_var) /\
      Forall (Rle 0) Q /\ Forall (Rle 0) V.
Proof.
  assert (Hm : maps_shape 2 sample_maps) by (repeat split; reflexivity).
  assert (Hv : var_shape 2 sample_var) by (repeat split; reflexivity).
  assert (Hw : _setMCTRoutingOrders [(-1)%Z] [] = Some sample_wave).
  { vm_compute. reflexivity. }
  exists sample_wave. split.
  - split; [exact Hw|]. split; [reflexivity|]. split; [apply sample_upstream_shape|].
    split; [exact Hm|]. split; [exact Hv|]. repeat split; reflexivity.
  - apply (@scheduled_loop_completes sample_upstream [(-1)%Z] [] sample_wave sample_maps
             sample_var [1; 1] [0; 1] [1; 2] [0; 0] [2000; 2000] Hw eq_refl
             sample_upstream_shape Hm Hv eq_refl eq_refl eq_refl eq_refl eq_refl).
Defined.

(** The state written by the loop body for pixel [p] with the outputs [r] of
    [MCTRouting_single]. *)
Lemma mct_pixel_Some wave g st j s1 :
  mct_pixel wave g st j = Some s1 ->
  exists p q10 q01 q00 ql Cm0 Dm0 xpix s0 Balv ANalv Nalv,
    pixels_ordered wave !! j = Some p /\
    (i_q10 g !! p = Some q10 /\ l_q01 st !! p = Some q01 /\ i_q00 g !! p = Some q00 /\
     i_ql g !! p = Some ql /\ l_Cm0 st !! p = Some Cm0 /\ l_Dm0 st !! p = Some Dm0 /\
     i_xpix g !! p = Some xpix /\ i_s0 g !! p = Some s0 /\ i_Balv g !! p = Some Balv /\
     i_ANalv g !! p = Some ANalv /\ i_Nalv g !! p = Some Nalv) /\
    (p < length (l_q11 st) /\ p < length (l_V11 st))%nat /\
    let r := MCTRouting_single q10 q01 q00 ql Cm0 Dm0 (i_dt g) xpix s0 Balv ANalv Nalv in
    s1 = {| l_q11 := <[p := r.1.1.1]> (l_q11 st); l_V11 := <[p := r.1.1.2]> (l_V11 st);
            l_Cm0 := <[p := r.1.2]> (l_Cm0 st); l_Dm0 := <[p := r.2]> (l_Dm0 st);
            l_q01 := l_q01 st; l_ChanQOut := l_ChanQOut st |}.
Proof.
  unfold mct_pixel. intros Hrun.
  destruct (pixels_ordered wave !! j) as [p|]; [|discriminate].
  cbn [mbind option_bind] in Hrun.
  repeat match type of Hrun with
    | context [?l !! p] =>
        destruct (l !! p) eqn:?; [|discriminate]; cbn [mbind option_bind] in Hrun
    end.
  match type of Hrun with
  | context [MCTRouting_single ?a ?b ?c ?d ?e ?f0 ?g0 ?h ?i0 ?j0 ?k ?l] =>
      destruct (MCTRouting_single a b c d e f0 g0 h i0 j0 k l)
        as [[[q11 V11] Cm1] Dm1] eqn:Hr
  end.
  destruct (setitem (l_q11 st) p q11) as [q11s|] eqn:H1; [|discriminate].
  cbn [mbind option_bind] in Hrun.
  destruct (setitem (l_V11 st) p V11) as [V11s|] eqn:H2; [|discriminate].
  cbn [mbind option_bind] in Hrun.
  destruct (setitem (l_Cm0 st) p Cm1) as [Cm0s|] eqn:H3; [|discriminate].
  cbn [mbind option_bind] in Hrun.
  destruct (setitem (l_Dm0 st) p Dm1) as [Dm0s|] eqn:H4; [|discriminate].
  cbn [mbind option_bind] in Hrun.
  apply setitem_Some in H1 as [-> Hl1]. apply setitem_Some in H2 as [-> Hl2].
  apply setitem_Some in H3 as [-> Hl3]. apply setitem_Some in H4 as [-> Hl4].
  injection Hrun as <-.
  do 12 eexists. split; [reflexivity|]. split; [repeat split; eassumption|].
  split; [split; assumption|]. cbn zeta. rewrite Hr. reflexivity.
Qed.

Lemma mct_pixel_intro wave g st j p q10 q01 q00 ql Cm0 Dm0 xpix s0 Balv ANalv Nalv :
  pixels_ordered wave !! j = Some p ->
  i_q10 g !! p = Some q10 -> l_q01 st !! p = Some q01 -> i_q00 g !! p = Some q00 ->
  i_ql g !! p = Some ql -> l_Cm0 st !! p = Some Cm0 -> l_Dm0 st !! p = Some Dm0 ->
  i_xpix g !! p = Some xpix -> i_s0 g !! p = Some s0 -> i_Balv g !! p = Some Balv ->
  i_ANalv g !! p = Some ANalv -> i_Nalv g !! p = Some Nalv ->
  (p < length (l_q11 st))%nat -> (p < length (l_V11 st))%nat ->
  let r := MCTRouting_single q10 q01 q00 ql Cm0 Dm0 (i_dt g) xpix s0 Balv ANalv Nalv in
  mct_pixel wave g st j =
  Some {| l_q11 := <[p := r.1.1.1]> (l_q11 st); l_V11 := <[p := r.1.1.2]> (l_V11 st);
          l_Cm0 := <[p := r.1.2]> (l_Cm0 st); l_Dm0 := <[p := r.2]> (l_Dm0 st);
          l_q01 := l_q01 st; l_ChanQOut := l_ChanQOut st |}.
Proof.
  intros Hp H10 H01 H00 Hql HCm HDm Hx Hs0 HB HA HN Hl1 Hl2 r.
  unfold mct_pixel. rewrite Hp. cbn [mbind option_bind].
  rewrite H10, H01, H00, Hql, HCm, HDm, Hx, Hs0, HB, HA, HN. cbn [mbind option_bind].
  fold r. destruct r as [[[q11 V11] Cm1] Dm1]. cbn [fst snd].
  rewrite !setitem_lt; [reflexivity|..]; try assumption;
    eapply lookup_lt_Some; eassumption.
Qed.

(** X17. Two different pixels can be routed in either order: the loop body
    for one pixel reads and writes only that pixel's entries of the arrays it
    updates, so that swapping two consecutive iterations of the pixel loop
    gives the same arrays. *)
Theorem mct_pixels_commute (wave : MctWave) (g : MctInputs) (st s1 s2 : MctLoop)
    (j k p q : nat) :
  pixels_ordered wave !! j = Some p ->
  pixels_ordered wave !! k = Some q ->
  p <> q ->
  mct_pixel wave g st j = Some s1 ->
  mct_pixel wave g s1 k = Some s2 ->
  exists s1', mct_pixel wave g st k = Some s1' /\ mct_pixel wave g s1' j = Some s2.
Proof.
  intros Hp Hq Hne H1 H2.
  apply mct_pixel_Some in H1
    as (p' & a10 & a01 & a00 & al & aC & aD & ax & as0 & aB & aA & aN & Hp' &
        (Ha10 & Ha01 & Ha00 & Hal & HaC & HaD & Hax & Has0 & HaB & HaA & HaN) &
        (Hla1 & Hla2) & Hs1).
  assert (p' = p) by congruence. subst p'.
  apply mct_pixel_Some in H2
    as (q' & b10 & b01 & b00 & bl & bC & bD & bx & bs0 & bB & bA & bN & Hq' &
        (Hb10 & Hb01 & Hb00 & Hbl & HbC & HbD & Hbx & Hbs0 & HbB & HbA & HbN) &
        (Hlb1 & Hlb2) & Hs2).
  assert (q' = q) by congruence. subst q'.
  cbn zeta in Hs1, Hs2.
  set (ra := MCTRouting_single a10 a01 a00 al aC aD (i_dt g) ax as0 aB aA aN) in *.
  set (rb := MCTRouting_single b10 b01 b00 bl bC bD (i_dt g) bx bs0 bB bA bN) in *.
  subst s1. cbn [l_q11 l_V11 l_Cm0 l_Dm0 l_q01 l_ChanQOut] in *.
  rewrite list_lookup_insert_ne in HbC, HbD by exact Hne.
  rewrite length_insert in Hlb1, Hlb2.
  eexists. split.
  - apply (mct_pixel_intro wave g st k q b10 b01 b00 bl bC bD bx bs0 bB bA bN);
      assumption.
  - cbn zeta. fold rb.
    rewrite (mct_pixel_intro wave g _ j p a10 a01 a00 al aC aD ax as0 aB aA aN);
      cbn [l_q11 l_V11 l_Cm0 l_Dm0 l_q01 l_ChanQOut];
      rewrite ?list_lookup_insert_ne by (intros ->; contradiction);
      rewrite ?length_insert; try assumption.
    cbn zeta. fold ra. subst s2. f_equal.
    f_equal; apply list_insert_insert_ne; congruence.
Qed.

Lemma mct_pixels_commute_witness :
  exists s1 s2,
    (pixels_ordered sample_wave2 !! 0%nat = Some 0%nat /\
     pixels_ordered sample_wave2 !! 1%nat = Some 1%nat /\
     0%nat <> 1%nat /\
     mct_pixel sample_wave2 sample_inputs sample_loop 0 = Some s1 /\
     mct_pixel sample_wave2 sample_inputs s1 1 = Some s2) /\
    exists s1', mct_pixel sample_wave2 sample_inputs sample_loop 1 = Some s1' /\
                mct_pixel sample_wave2 sample_inputs s1' 0 = Some s2.
Proof.
  pose proof (mct_pixel_intro sample_wave2 sample_inputs sample_loop 0 0
                1 1 1 0 1 0 1000 0.001 5 1 0.03
                eq_refl eq_refl eq_refl eq_refl eq_refl eq_refl eq_refl eq_refl eq_refl
                eq_refl eq_refl eq_refl (le_S _ _ (le_n 1)) (le_S _ _ (le_n 1))) as H1.
  cbn zeta in H1.
  match type of H1 with _ = Some ?s => set (s1 := s) in H1 end.
  pose proof (mct_pixel_intro sample_wave2 sample_inputs s1 1 1
                1 2 1 0 1 0 1000 0.001 5 1 0.03
                eq_refl eq_refl eq_refl eq_refl eq_refl eq_refl eq_refl eq_refl eq_refl
                eq_refl eq_refl eq_refl (le_n 2) (le_n 2)) as H2.
  cbn zeta in H2.
  match type of H2 with _ = Some ?s => set (s2 := s) in H2 end.
  exists s1, s2. split.
  - split; [reflexivity|]. split; [reflexivity|]. split; [discriminate|].
    split; [exact H1 | exact H2].
  - apply (mct_pixels_commute sample_wave2 sample_inputs sample_loop s1 s2
             0 1 0 1 eq_refl eq_refl ltac:(discriminate) H1 H2).
Defined.

(** ** Depth from discharge on a triangular section *)

(** Manning's relation of a triangular section with cotangent [c] and
    [t = 2 / sin] at the depth given by the closed formula of [hoq]. *)
Lemma triangular_depth_exact (K c t : R) :
  0 < K -> 0 < c -> 0 < t ->
  let y := Rpower K (3 / 8) * Rpower t 0.25 / Rpower c (5 / 8) in
  0 < y /\ Rpower (c * y * y) (5 / 3) / Rpower (y * t) (5 / 3 - 1) = K.
Proof.
  intros HK Hc Ht y.
  set (u := 3 / 8 * ln K + 0.25 * ln t - 5 / 8 * ln c).
  assert (Hy : y = exp u).
  { unfold y, u.
    change (Rpower K (3 / 8) * Rpower t 0.25 / Rpower c (5 / 8))
      with (Rpower K (3 / 8) * Rpower t 0.25 * / Rpower c (5 / 8)).
    unfold Rpower. rewrite <- exp_Ropp, <- !exp_plus. f_equal; try lra. }
  assert (Hypos : 0 < y) by (rewrite Hy; apply exp_pos).
  split; [exact Hypos|].
  assert (Ha : c * y * y = exp (ln c + u + u)).
  { rewrite !exp_plus, exp_ln by exact Hc. rewrite <- Hy. reflexivity. }
  assert (Hp : y * t = exp (u + ln t)).
  { rewrite exp_plus, exp_ln by exact Ht. rewrite <- Hy. reflexivity. }
  rewrite Ha, Hp. unfold Rpower. rewrite !ln_exp.
  change (exp (5 / 3 * (ln c + u + u)) / exp ((5 / 3 - 1) * (u + ln t)))
    with (exp (5 / 3 * (ln c + u + u)) * / exp ((5 / 3 - 1) * (u + ln t))).
  rewrite <- exp_Ropp, <- exp_plus.
  rewrite <- (exp_ln K HK) at 1. f_equal. unfold u. lra.
Qed.

Lemma cotan_pos (x : R) : 0 < x < PI / 2 -> 0 < sin x /\ 0 < cotan x.
Proof.
  intros [Hlo Hhi]. pose proof PI_RGT_0 as Hpi.
  assert (Hs : 0 < sin x) by (apply sin_gt_0; lra).
  assert (Hc : 0 < cos x) by (apply cos_gt_0; lra).
  split; [exact Hs|]. unfold cotan. apply Rdiv_lt_0_compat; assumption.
Qed.

(** The first approximation of [hoq] on a triangular section, and the
    discharge [qoh] gives back for it. *)
Lemma hoq_guess_triangular (q s0 ANalv Nalv : R) :
  0 < q -> 0 < s0 -> 0 < Nalv -> 0 < ANalv < PI / 2 ->
  let y := hoq_guess q s0 0 ANalv Nalv in
  0 < y /\ (qoh y s0 0 ANalv Nalv).1.1.1.1 = q.
Proof.
  intros Hq Hs0 Hn HA y.
  destruct (cotan_pos ANalv HA) as [Hsin Hcot].
  assert (Hrs : 0 < sqrt s0) by (apply sqrt_lt_R0; exact Hs0).
  set (K := Nalv * q / sqrt s0).
  assert (HK : 0 < K).
  { unfold K. apply Rdiv_lt_0_compat; [nra | exact Hrs]. }
  set (t := 2 / sin ANalv).
  assert (Ht : 0 < t) by (unfold t; apply Rdiv_lt_0_compat; lra).
  destruct (triangular_depth_exact K (cotan ANalv) t HK Hcot Ht) as [Hy0 Hex].
  set (y0 := Rpower K (3 / 8) * Rpower t 0.25 / Rpower (cotan ANalv) (5 / 8)) in *.
  assert (Hy : y = y0).
  { unfold y, hoq_guess. cbn zeta.
    destruct (Rlt_dec ANalv (PI / 2)) as [_|Hn']; [|lra].
    destruct (Req_dec_T 0 0) as [_|Hn']; [|contradiction].
    unfold Reqb. destruct (Req_dec_T 0 0) as [_|Hn']; [|contradiction].
    cbn [negb andb]. fold K t. rewrite !npow_pos by lra. reflexivity. }
  rewrite Hy. split; [exact Hy0|].
  unfold qoh. cbn [fst snd].
  destruct (Rlt_dec ANalv (PI / 2)) as [_|Hn']; [|lra].
  replace ((0 + y0 * cotan ANalv) * y0) with (cotan ANalv * y0 * y0) by ring.
  replace (0 + 2 * y0 / sin ANalv) with (y0 * t) by (unfold t; field; lra).
  assert (Hapos : 0 < cotan ANalv * y0 * y0).
  { apply Rmult_lt_0_compat; [apply Rmult_lt_0_compat|]; assumption. }
  assert (Hppos : 0 < y0 * t) by (apply Rmult_lt_0_compat; assumption).
  rewrite (npow_pos _ (5 / 3) Hapos) by lra.
  rewrite (npow_pos _ (5 / 3 - 1) Hppos) by lra.
  replace (sqrt s0 / Nalv * Rpower (cotan ANalv * y0 * y0) (5 / 3) /
           Rpower (y0 * t) (5 / 3 - 1))
    with (sqrt s0 / Nalv *
          (Rpower (cotan ANalv * y0 * y0) (5 / 3) / Rpower (y0 * t) (5 / 3 - 1)))
    by (unfold Rdiv; ring).
  rewrite Hex. unfold K. field. split; lra.
Qed.

(** X18. On a triangular section (bottom width 0, side angle below 90
    degrees) the first approximation of [hoq] already solves Manning's
    equation: the Newton-Raphson loop stops in its first iteration with a
    zero correction, and [qoh] maps the depth returned by [hoq] back to the
    discharge. *)
Theorem hoq_triangular_exact (q s0 ANalv Nalv : R) :
  0 < q -> 0 < s0 -> 0 < Nalv -> 0 < ANalv < PI / 2 ->
  let r := hoq_run q s0 0 ANalv Nalv in
  converged r = true /\ iterations r = 1%nat /\ correction r = 0 /\
  0 < hoq q s0 0 ANalv Nalv /\
  (qoh (hoq q s0 0 ANalv Nalv) s0 0 ANalv Nalv).1.1.1.1 = q.
Proof.
  intros Hq Hs0 Hn HA r.
  destruct (hoq_guess_triangular q s0 ANalv Nalv Hq Hs0 Hn HA) as [Hy0 Hex].
  set (y0 := hoq_guess q s0 0 ANalv Nalv) in *.
  assert (Hstep : hoq_step q s0 0 ANalv Nalv y0 = (0, y0)).
  { unfold hoq_step.
    destruct (qoh y0 s0 0 ANalv Nalv) as [[[[q0 Ax] Bx] Px] cel].
    cbn [fst snd] in Hex. subst q0.
    replace (q - q) with 0 by ring. unfold Rdiv. rewrite Rmult_0_l.
    f_equal. ring. }
  assert (Hrun : r = {| depth := y0; correction := 0; iterations := 1;
                        converged := true |}).
  { unfold r, hoq_run. fold y0.
    change hoq_tries with (1%nat :: seq 2 (max_tries - 2)).
    cbn [hoq_loop]. rewrite Hstep.
    destruct (Rlt_dec (Rabs 0) hoq_eps) as [_|Hno]; [reflexivity|].
    exfalso. apply Hno. rewrite Rabs_R0. unfold hoq_eps. lra. }
  assert (Hh : hoq q s0 0 ANalv Nalv = y0).
  { unfold hoq. fold r. rewrite Hrun. reflexivity. }
  rewrite Hrun, Hh. cbn [converged iterations correction].
  repeat split; assumption.
Qed.

Lemma hoq_triangular_exact_witness :
  (0 < 2 /\ 0 < 0.001 /\ 0 < 0.03 /\ 0 < PI / 4 < PI / 2) /\
  let r := hoq_run 2 0.001 0 (PI / 4) 0.03 in
  converged r = true /\ iterations r = 1%nat /\ correction r = 0 /\
  0 < hoq 2 0.001 0 (PI / 4) 0.03 /\
  (qoh (hoq 2 0.001 0 (PI / 4) 0.03) 0.001 0 (PI / 4) 0.03).1.1.1.1 = 2.
Proof.
  assert (HA : 0 < PI / 4 < PI / 2) by (pose proof PI_RGT_0; lra).
  split.
  - repeat split; try lra; apply HA.
  - apply (hoq_triangular_exact 2 0.001 (PI / 4) 0.03); lra.
Defined.

(** ** Compression of the MCT pixels, friction slope and celerity *)

Lemma explode_compressed mask : forall var,
  length mask = length var ->
  explode mask (compressed mask var) = np_where_l mask 0 var.
Proof.
  unfold np_where_l.
  induction mask as [|b mask IH]; intros [|x var] Hlen; try discriminate;
    [reflexivity|].
  injection Hlen as Hlen. destruct b; cbn [compressed explode zip_with].
  - f_equal. apply IH. exact Hlen.
  - f_equal. apply IH. exact Hlen.
Qed.

(** X19. Exploding a compressed array gives back the array on the MCT pixels
    and zero on the kinematic pixels: [put_mct_pix(get_mct_pix(var))] is
    [var] with its kinematic entries set to 0. *)
Theorem mct_pix_explode_compress (IsChannelKinematic : list bool) (var c : list R) :
  get_mct_pix IsChannelKinematic var = Some c ->
  put_mct_pix IsChannelKinematic c = Some (np_where_l IsChannelKinematic 0 var) /\
  (forall i x, var !! i = Some x ->
     exists y, np_where_l IsChannelKinematic 0 var !! i = Some y /\
       (IsChannelKinematic !! i = Some true -> y = 0) /\
       (IsChannelKinematic !! i = Some false -> y = x)).
Proof.
  unfold get_mct_pix. intros Hget.
  destruct (decide (length IsChannelKinematic = length var)) as [Hlen|]; [|discriminate].
  injection Hget as <-. split.
  - unfold put_mct_pix. cbn zeta.
    rewrite decide_True by (apply length_compressed; exact Hlen).
    rewrite explode_compressed by exact Hlen. reflexivity.
  - intros i x Hx.
    assert (Hi : (i < length IsChannelKinematic)%nat).
    { rewrite Hlen. eapply lookup_lt_Some; exact Hx. }
    destruct (lookup_lt_is_Some_2 _ _ Hi) as [b Hb].
    unfold np_where_l. rewrite lookup_zip_with, Hb, Hx. cbn [mbind option_bind].
    eexists. split; [reflexivity|].
    destruct b; split; intros Heq; congruence.
Qed.

Lemma mct_pix_explode_compress_witness :
  get_mct_pix [true; false; false; true] [1; 2; 3; 4] = Some [2; 3] /\
  put_mct_pix [true; false; false; true] [2; 3]
    = Some (np_where_l [true; false; false; true] 0 [1; 2; 3; 4]) /\
  (forall i x, [1; 2; 3; 4] !! i = Some x ->
     exists y, np_where_l [true; false; false; true] 0 [1; 2; 3; 4] !! i = Some y /\
       ([true; false; false; true] !! i = Some true -> y = 0) /\
       ([true; false; false; true] !! i = Some false -> y = x)).
Proof.
  assert (Hget : get_mct_pix [true; false; false; true] [1; 2; 3; 4] = Some [2; 3])
    by reflexivity.
  split; [exact Hget|].
  apply (mct_pix_explode_compress [true; false; false; true] [1; 2; 3; 4] [2; 3] Hget).
Defined.

(** X20. In every refinement pass of [MCTRouting_single] the corrected
    friction slope is at least 80 percent of the bed slope and the wave
    celerity at least 1e-6, so that both are positive on a positive bed
    slope. *)
Theorem mct_pass_floors (q10 q01 q00 ql Cm0 Dm0 dt xpix s0 Balv ANalv Nalv : R) :
  let passes := mct_passes q10 q01 q00 ql Cm0 Dm0 dt xpix s0 Balv ANalv Nalv in
  Forall (fun p => 0.8 * s0 <= sfx p /\ 1e-6 <= ck1 p /\ (0 < s0 -> 0 < sfx p))
         [passes.1; passes.2].
Proof.
  assert (Hpass : forall q11in,
    let p := mct_refine q10 q01 q00 ql Cm0 Dm0 dt xpix s0 Balv ANalv Nalv q11in in
    0.8 * s0 <= sfx p /\ 1e-6 <= ck1 p /\ (0 < s0 -> 0 < sfx p)).
  { intros q11in. unfold mct_refine. cbn zeta.
    destruct (qoh _ s0 Balv ANalv Nalv) as [[[[dummy Ax1] Bx1] Px1] c].
    cbn [sfx ck1]. unfold mct_eps.
    destruct (Rlt_dec _ (0.8 * s0)); destruct (Rle_dec c 1e-06);
      repeat split; intros; lra. }
  intros passes. unfold passes, mct_passes. cbn [fst snd].
  apply Forall_cons_2; [apply Hpass|].
  apply Forall_cons_2; [apply Hpass|]. apply Forall_nil_2.
Qed.

(** * Rain and snow *)

Ltac snow_unfold :=
  unfold Snow.vlt, Snow.vge, Snow.sadd, Snow.vdiv_s, Snow.np_where_ss;
  init_unfold.

Lemma snow_inZero_lookup f p t : Snow.Tavg f !! p = Some t -> Snow.inZero f !! p = Some 0.
Proof.
  intros Ht. unfold Snow.inZero. apply lookup_replicate_2.
  eapply lookup_lt_Some. exact Ht.
Qed.

Lemma snow_coefficients_lookup f p x :
  Snow.at_pixel f p x ->
  is_Some (Snow.SeasSnowMeltCoef f !! p) /\ is_Some (Snow.SummerSeason f !! p).
Proof.
  intros (Ht & Hpr & Hd & Hss & Hts & Hsf & Hsmc & Htm & Hh).
  unfold Snow.SeasSnowMeltCoef, Snow.SummerSeason. snow_unfold. cbn zeta.
  split; arr_eval; eexists; reflexivity.
Qed.

(** One zone at one pixel: snow [sn] and rain [rn] of the zone, the melt
    [ml] between zero and the snow cover [c], and the sums updated. *)
Lemma snow_zone_pixel f st i p x cov c sn0 rn0 ml0 sc0 :
  Snow.at_pixel f p x ->
  Snow.SnowCoverS st !! i = Some cov -> cov !! p = Some c ->
  Snow.Snow st !! p = Some sn0 -> Snow.Rain st !! p = Some rn0 ->
  Snow.SnowMelt st !! p = Some ml0 -> Snow.SnowCover st !! p = Some sc0 ->
  let sn := Snow.zone_snow x i in
  let rn := Snow.zone_rain x i in
  exists st' cov' ml,
    Snow.zone f st i = Some st' /\
    0 <= ml /\ (0 <= c -> ml <= c) /\
    Snow.SnowCoverS st' = <[i := cov']> (Snow.SnowCoverS st) /\
    cov' !! p = Some (c + sn - ml) /\
    Snow.Snow st' !! p = Some (sn0 + sn) /\
    Snow.Rain st' !! p = Some (rn0 + rn) /\
    Snow.SnowMelt st' !! p = Some (ml0 + ml) /\
    Snow.SnowCover st' !! p = Some (sc0 + (c + sn - ml)) /\
    Snow.TotalPrecipitation st' = Snow.TotalPrecipitation st.
Proof.
  intros Hx Hcov Hc Hsn0 Hrn0 Hml0 Hsc0 sn rn.
  set (T := Snow.zone_temperature x i).
  destruct (snow_coefficients_lookup f p x Hx) as [[seas Hseas] [summer Hsummer]].
  destruct Hx as (Ht & Hpr & Hd & Hss & Hts & Hsf & Hsmc & Htm & Hh).
  pose proof (snow_inZero_lookup f p _ Ht) as Hz.
  unfold Snow.zone. rewrite Hcov. cbn [mbind option_bind].
  set (ice := (if (i <? 2)%nat then Snow.p_Tavg x else T) * 7.0 * Snow.DtDay f * summer).
  set (melt := (T - Snow.p_TempMelt x) * seas * (1 + 0.01 * rn) * Snow.DtDay f).
  eexists _, _, (Rmax (Rmin (melt + ice) c) 0).
  split; [reflexivity|].
  split; [apply Rmax_r|].
  split.
  { intros Hc0. apply Rmax_lub; [apply Rmin_r | exact Hc0]. }
  cbn [Snow.SnowCoverS Snow.Snow Snow.Rain Snow.SnowMelt Snow.SnowCover
       Snow.TotalPrecipitation].
  split; [reflexivity|].
  unfold ice, melt, sn, rn, Snow.zone_snow, Snow.zone_rain, T, Snow.zone_temperature.
  destruct (i <? 2)%nat; snow_unfold;
    repeat split; arr_eval; reflexivity.
Qed.

(** One time step at one pixel with the zone covers [a], [b], [c]: the melts
    [m0], [m1], [m2] of the zones lie between zero and the covers, and the
    pixel values are the zone averages. *)
Lemma snow_dynamic_pixel f st p x A B C a b c tp :
  Snow.at_pixel f p x ->
  Snow.SnowCoverS st = [A; B; C] ->
  A !! p = Some a -> B !! p = Some b -> C !! p = Some c ->
  Snow.TotalPrecipitation st !! p = Some tp ->
  let sn := (0 + Snow.zone_snow x 0 + Snow.zone_snow x 1 + Snow.zone_snow x 2) / 3 in
  let rn := (0 + Snow.zone_rain x 0 + Snow.zone_rain x 1 + Snow.zone_rain x 2) / 3 in
  exists st' A' B' C' m0 m1 m2,
    Snow.dynamic f st = Some st' /\
    (0 <= m0 /\ (0 <= a -> m0 <= a)) /\
    (0 <= m1 /\ (0 <= b -> m1 <= b)) /\
    (0 <= m2 /\ (0 <= c -> m2 <= c)) /\
    Snow.SnowCoverS st' = [A'; B'; C'] /\
    A' !! p = Some (a + Snow.zone_snow x 0 - m0) /\
    B' !! p = Some (b + Snow.zone_snow x 1 - m1) /\
    C' !! p = Some (c + Snow.zone_snow x 2 - m2) /\
    Snow.Snow st' !! p = Some sn /\
    Snow.Rain st' !! p = Some rn /\
    Snow.SnowMelt st' !! p = Some ((0 + m0 + m1 + m2) / 3) /\
    Snow.SnowCover st' !! p
      = Some ((0 + (a + Snow.zone_snow x 0 - m0) + (b + Snow.zone_snow x 1 - m1)
                 + (c + Snow.zone_snow x 2 - m2)) / 3) /\
    Snow.TotalPrecipitation st' !! p = Some (tp + (sn + rn)).
Proof.
  intros Hx HS Ha Hb Hc Htp sn rn.
  pose proof (snow_inZero_lookup f p _ (proj1 Hx)) as Hz.
  unfold Snow.dynamic. cbn [foldM seq].
  set (st0 := {| Snow.SnowCoverS := Snow.SnowCoverS st; Snow.Snow := Snow.inZero f;
                 Snow.Rain := Snow.inZero f; Snow.SnowMelt := Snow.inZero f;
                 Snow.SnowCover := Snow.inZero f;
                 Snow.TotalPrecipitation := Snow.TotalPrecipitation st |}).
  destruct (snow_zone_pixel f st0 0 p x A a 0 0 0 0 Hx) as
    (st1 & A' & m0 & -> & Hm0 & Hm0c & HS1 & HA' & Hsn1 & Hrn1 & Hml1 & Hsc1 & Htp1);
    try exact Hz; try exact Ha.
  { cbn [st0 Snow.SnowCoverS]. rewrite HS. reflexivity. }
  cbn [st0 Snow.SnowCoverS Snow.TotalPrecipitation] in HS1, Htp1.
  rewrite HS in HS1. cbn [insert list_insert] in HS1.
  cbn [mbind option_bind].
  destruct (snow_zone_pixel f st1 1 p x B b (0 + Snow.zone_snow x 0)
              (0 + Snow.zone_rain x 0) (0 + m0) (0 + (a + Snow.zone_snow x 0 - m0)) Hx) as
    (st2 & B' & m1 & -> & Hm1 & Hm1c & HS2 & HB' & Hsn2 & Hrn2 & Hml2 & Hsc2 & Htp2);
    try eassumption.
  { rewrite HS1. reflexivity. }
  rewrite HS1 in HS2. cbn [insert list_insert] in HS2.
  cbn [mbind option_bind].
  destruct (snow_zone_pixel f st2 2 p x C c (0 + Snow.zone_snow x 0 + Snow.zone_snow x 1)
              (0 + Snow.zone_rain x 0 + Snow.zone_rain x 1) (0 + m0 + m1)
              (0 + (a + Snow.zone_snow x 0 - m0) + (b + Snow.zone_snow x 1 - m1)) Hx) as
    (st3 & C' & m2 & -> & Hm2 & Hm2c & HS3 & HC' & Hsn3 & Hrn3 & Hml3 & Hsc3 & Htp3);
    try eassumption.
  { rewrite HS2. reflexivity. }
  rewrite HS2 in HS3. cbn [insert list_insert] in HS3.
  cbn [mbind option_bind].
  eexists. exists A', B', C', m0, m1, m2.
  split; [reflexivity|].
  cbn [Snow.SnowCoverS Snow.Snow Snow.Rain Snow.SnowMelt Snow.SnowCover
       Snow.TotalPrecipitation].
  split; [split; assumption|]. split; [split; assumption|].
  split; [split; assumption|].
  split; [exact HS3|]. split; [exact HA'|]. split; [exact HB'|]. split; [exact HC'|].
  rewrite Htp3, Htp2, Htp1.
  unfold sn, rn. snow_unfold. repeat split; arr_eval; reflexivity.
Qed.

Lemma sample_at_pixel : Snow.at_pixel Snow.sample_forcing 0 Snow.sample_pixel.
Proof. repeat split; reflexivity. Qed.

(** X21. Snow balance of a time step at one pixel: the pixel snow cover is
    the mean of the three zone covers, and it equals the mean of the covers
    before the step plus the pixel snowfall minus the pixel snowmelt; the
    total precipitation grows by snowfall plus rain. *)
Theorem snow_mass_balance (f : Snow.Forcing) (st : Snow.State) (p : nat)
    (x : Snow.Pixel) (A B C : list R) (a b c tp : R) :
  Snow.at_pixel f p x ->
  Snow.SnowCoverS st = [A; B; C] ->
  A !! p = Some a -> B !! p = Some b -> C !! p = Some c ->
  Snow.TotalPrecipitation st !! p = Some tp ->
  exists st' A' B' C' a' b' c' sn rn ml sc tp',
    Snow.dynamic f st = Some st' /\
    Snow.SnowCoverS st' = [A'; B'; C'] /\
    A' !! p = Some a' /\ B' !! p = Some b' /\ C' !! p = Some c' /\
    Snow.Snow st' !! p = Some sn /\ Snow.Rain st' !! p = Some rn /\
    Snow.SnowMelt st' !! p = Some ml /\ Snow.SnowCover st' !! p = Some sc /\
    Snow.TotalPrecipitation st' !! p = Some tp' /\
    sc = (a' + b' + c') / 3 /\
    sc = (a + b + c) / 3 + sn - ml /\
    tp' = tp + sn + rn.
Proof.
  intros Hx HS Ha Hb Hc Htp.
  destruct (snow_dynamic_pixel f st p x A B C a b c tp Hx HS Ha Hb Hc Htp)
    as (st' & A' & B' & C' & m0 & m1 & m2 & Hrun & _ & _ & _ & HS' & HA' & HB' & HC' &
        Hsn & Hrn & Hml & Hsc & Htp').
  exists st', A', B', C'.
  do 8 eexists.
  repeat (split; [eassumption|]).
  repeat split; lra.
Qed.

Lemma snow_mass_balance_witness :
  (Snow.at_pixel Snow.sample_forcing 0 Snow.sample_pixel /\
   Snow.SnowCoverS Snow.sample_state = [[10]; [5]; [0]] /\
   [10] !! 0%nat = Some 10 /\ [5] !! 0%nat = Some 5 /\ [0] !! 0%nat = Some 0 /\
   Snow.TotalPrecipitation Snow.sample_state !! 0%nat = Some 0) /\
  exists st' A' B' C' a' b' c' sn rn ml sc tp',
    Snow.dynamic Snow.sample_forcing Snow.sample_state = Some st' /\
    Snow.SnowCoverS st' = [A'; B'; C'] /\
    A' !! 0%nat = Some a' /\ B' !! 0%nat = Some b' /\ C' !! 0%nat = Some c' /\
    Snow.Snow st' !! 0%nat = Some sn /\ Snow.Rain st' !! 0%nat = Some rn /\
    Snow.SnowMelt st' !! 0%nat = Some ml /\ Snow.SnowCover st' !! 0%nat = Some sc /\
    Snow.TotalPrecipitation st' !! 0%nat = Some tp' /\
    sc = (a' + b' + c') / 3 /\
    sc = (10 + 5 + 0) / 3 + sn - ml /\
    tp' = 0 + sn + rn.
Proof.
  split.
  - split; [exact sample_at_pixel|]. repeat split; reflexivity.
  - apply (snow_mass_balance Snow.sample_forcing Snow.sample_state 0 Snow.sample_pixel
             [10] [5] [0] 10 5 0 0 sample_at_pixel); reflexivity.
Defined.

(** X22. Snow cover never goes negative: with non-negative zone covers and a
    non-negative snowfall [SnowFactor * Precipitation], the melt of a time
    step is at least zero and at most the snow present, and the three zone
    covers and the pixel cover stay non-negative. *)
Theorem snow_cover_nonneg (f : Snow.Forcing) (st : Snow.State) (p : nat)
    (x : Snow.Pixel) (A B C : list R) (a b c tp : R) :
  Snow.at_pixel f p x ->
  Snow.SnowCoverS st = [A; B; C] ->
  A !! p = Some a -> B !! p = Some b -> C !! p = Some c ->
  Snow.TotalPrecipitation st !! p = Some tp ->
  0 <= a -> 0 <= b -> 0 <= c ->
  0 <= Snow.p_SnowFactor x * Snow.p_Precipitation x ->
  exists st' A' B' C' a' b' c' ml sc,
    Snow.dynamic f st = Some st' /\
    Snow.SnowCoverS st' = [A'; B'; C'] /\
    A' !! p = Some a' /\ B' !! p = Some b' /\ C' !! p = Some c' /\
    Snow.SnowMelt st' !! p = Some ml /\ Snow.SnowCover st' !! p = Some sc /\
    0 <= ml <= (a + b + c) / 3 /\
    0 <= a' /\ 0 <= b' /\ 0 <= c' /\ 0 <= sc.
Proof.
  intros Hx HS Ha Hb Hc Htp Ha0 Hb0 Hc0 Hsf.
  destruct (snow_dynamic_pixel f st p x A B C a b c tp Hx HS Ha Hb Hc Htp)
    as (st' & A' & B' & C' & m0 & m1 & m2 & Hrun & [Hm0 Hm0c] & [Hm1 Hm1c] & [Hm2 Hm2c] &
        HS' & HA' & HB' & HC' & Hsn & Hrn & Hml & Hsc & Htp').
  specialize (Hm0c Ha0). specialize (Hm1c Hb0). specialize (Hm2c Hc0).
  assert (Hz : forall i, 0 <= Snow.zone_snow x i).
  { intros i. unfold Snow.zone_snow. destruct (Rltb _ _); lra. }
  pose proof (Hz 0%nat). pose proof (Hz 1%nat). pose proof (Hz 2%nat).
  exists st', A', B', C'.
  do 5 eexists.
  repeat (split; [eassumption|]).
  repeat split; lra.
Qed.

Lemma snow_cover_nonneg_witness :
  (Snow.at_pixel Snow.sample_forcing 0 Snow.sample_pixel /\
   Snow.SnowCoverS Snow.sample_state = [[10]; [5]; [0]] /\
   [10] !! 0%nat = Some 10 /\ [5] !! 0%nat = Some 5 /\ [0] !! 0%nat = Some 0 /\
   Snow.TotalPrecipitation Snow.sample_state !! 0%nat = Some 0 /\
   0 <= 10 /\ 0 <= 5 /\ 0 <= 0 /\
   0 <= Snow.p_SnowFactor Snow.sample_pixel * Snow.p_Precipitation Snow.sample_pixel) /\
  exists st' A' B' C' a' b' c' ml sc,
    Snow.dynamic Snow.sample_forcing Snow.sample_state = Some st' /\
    Snow.SnowCoverS st' = [A'; B'; C'] /\
    A' !! 0%nat = Some a' /\ B' !! 0%nat = Some b' /\ C' !! 0%nat = Some c' /\
    Snow.SnowMelt st' !! 0%nat = Some ml /\ Snow.SnowCover st' !! 0%nat = Some sc /\
    0 <= ml <= (10 + 5 + 0) / 3 /\
    0 <= a' /\ 0 <= b' /\ 0 <= c' /\ 0 <= sc.
Proof.
  assert (Hsf : 0 <= Snow.p_SnowFactor Snow.sample_pixel
                     * Snow.p_Precipitation Snow.sample_pixel).
  { cbn [Snow.p_SnowFactor Snow.p_Precipitation Snow.sample_pixel]. lra. }
  split.
  - split; [exact sample_at_pixel|].
    repeat split; try reflexivity; lra.
  - apply (snow_cover_nonneg Snow.sample_forcing Snow.sample_state 0 Snow.sample_pixel
             [10] [5] [0] 10 5 0 0 sample_at_pixel); try reflexivity; lra.
Defined.

Lemma zone_snow_rain (x : Snow.Pixel) (i : nat) :
  (Snow.zone_temperature x i < Snow.p_TempSnow x ->
   Snow.zone_snow x i = Snow.p_SnowFactor x * Snow.p_Precipitation x /\
   Snow.zone_rain x i = 0) /\
  (Snow.p_TempSnow x <= Snow.zone_temperature x i ->
   Snow.zone_snow x i = 0 /\ Snow.zone_rain x i = Snow.p_Precipitation x).
Proof.
  unfold Snow.zone_snow, Snow.zone_rain, Rltb, Snow.Rgeb.
  destruct (Rlt_dec _ _), (Rge_dec _ _); split; intros; split; lra.
Qed.

Lemma zone_temperatures (x : Snow.Pixel) :
  Snow.zone_temperature x 0 = Snow.p_Tavg x - Snow.p_DeltaTSnow x /\
  Snow.zone_temperature x 1 = Snow.p_Tavg x /\
  Snow.zone_temperature x 2 = Snow.p_Tavg x + Snow.p_DeltaTSnow x.
Proof. unfold Snow.zone_temperature. cbn [INR]. repeat split; ring. Qed.

(** X23. Rain and snow partition the precipitation of every zone: a zone
    below [TempSnow] receives [SnowFactor * Precipitation] as snow and no
    rain, any other zone receives the precipitation as rain.  Hence the pixel
    rain plus snow equals the precipitation when [SnowFactor] is 1, a pixel
    whose coldest zone is not below [TempSnow] gets rain only, and a pixel
    whose warmest zone is below [TempSnow] gets snow only. *)
Theorem snow_rain_partition (f : Snow.Forcing) (st : Snow.State) (p : nat)
    (x : Snow.Pixel) (A B C : list R) (a b c tp : R) :
  Snow.at_pixel f p x ->
  Snow.SnowCoverS st = [A; B; C] ->
  A !! p = Some a -> B !! p = Some b -> C !! p = Some c ->
  Snow.TotalPrecipitation st !! p = Some tp ->
  exists st' sn rn,
    Snow.dynamic f st = Some st' /\
    Snow.Snow st' !! p = Some sn /\ Snow.Rain st' !! p = Some rn /\
    (Snow.p_SnowFactor x = 1 -> sn + rn = Snow.p_Precipitation x) /\
    (Snow.p_TempSnow x <= Snow.p_Tavg x - Rabs (Snow.p_DeltaTSnow x) ->
       sn = 0 /\ rn = Snow.p_Precipitation x) /\
    (Snow.p_Tavg x + Rabs (Snow.p_DeltaTSnow x) < Snow.p_TempSnow x ->
       rn = 0 /\ sn = Snow.p_SnowFactor x * Snow.p_Precipitation x).
Proof.
  intros Hx HS Ha Hb Hc Htp.
  destruct (snow_dynamic_pixel f st p x A B C a b c tp Hx HS Ha Hb Hc Htp)
    as (st' & A' & B' & C' & m0 & m1 & m2 & Hrun & _ & _ & _ & _ & _ & _ & _ &
        Hsn & Hrn & _).
  exists st'. do 2 eexists.
  split; [exact Hrun|]. split; [exact Hsn|]. split; [exact Hrn|].
  destruct (zone_temperatures x) as (HT0 & HT1 & HT2).
  pose proof (zone_snow_rain x 0) as [Hs0 Hr0].
  pose proof (zone_snow_rain x 1) as [Hs1 Hr1].
  pose proof (zone_snow_rain x 2) as [Hs2 Hr2].
  rewrite HT0 in Hs0, Hr0. rewrite HT1 in Hs1, Hr1. rewrite HT2 in Hs2, Hr2.
  pose proof (Rabs_pos (Snow.p_DeltaTSnow x)) as Habs.
  pose proof (Rle_abs (Snow.p_DeltaTSnow x)) as Hle.
  pose proof (Rle_abs (- Snow.p_DeltaTSnow x)) as Hle'.
  rewrite Rabs_Ropp in Hle'.
  split; [|split].
  - intros Hsf. rewrite Hsf in *.
    destruct (Rlt_dec (Snow.p_Tavg x - Snow.p_DeltaTSnow x) (Snow.p_TempSnow x));
    destruct (Rlt_dec (Snow.p_Tavg x) (Snow.p_TempSnow x));
    destruct (Rlt_dec (Snow.p_Tavg x + Snow.p_DeltaTSnow x) (Snow.p_TempSnow x));
    repeat match goal with
      | H : ?P -> _, H' : ?P |- _ => specialize (H H')
      | H : ?a <= ?b -> _, H' : ~ ?b < ?a |- _ => specialize (H (Rnot_lt_le _ _ H'))
      end;
    lra.
  - intros Hwarm.
    destruct Hr0 as [-> ->]; [lra|]. destruct Hr1 as [-> ->]; [lra|].
    destruct Hr2 as [-> ->]; [lra|]. split; lra.
  - intros Hcold.
    destruct Hs0 as [-> ->]; [lra|]. destruct Hs1 as [-> ->]; [lra|].
    destruct Hs2 as [-> ->]; [lra|]. split; lra.
Qed.

Lemma snow_rain_partition_witness :
  (Snow.at_pixel Snow.sample_forcing 0 Snow.sample_pixel /\
   Snow.SnowCoverS Snow.sample_state = [[10]; [5]; [0]] /\
   [10] !! 0%nat = Some 10 /\ [5] !! 0%nat = Some 5 /\ [0] !! 0%nat = Some 0 /\
   Snow.TotalPrecipitation Snow.sample_state !! 0%nat = Some 0) /\
  exists st' sn rn,
    Snow.dynamic Snow.sample_forcing Snow.sample_state = Some st' /\
    Snow.Snow st' !! 0%nat = Some sn /\ Snow.Rain st' !! 0%nat = Some rn /\
    (Snow.p_SnowFactor Snow.sample_pixel = 1 ->
       sn + rn = Snow.p_Precipitation Snow.sample_pixel) /\
    (Snow.p_TempSnow Snow.sample_pixel
       <= Snow.p_Tavg Snow.sample_pixel - Rabs (Snow.p_DeltaTSnow Snow.sample_pixel) ->
       sn = 0 /\ rn = Snow.p_Precipitation Snow.sample_pixel) /\
    (Snow.p_Tavg Snow.sample_pixel + Rabs (Snow.p_DeltaTSnow Snow.sample_pixel)
       < Snow.p_TempSnow Snow.sample_pixel ->
       rn = 0 /\
       sn = Snow.p_SnowFactor Snow.sample_pixel * Snow.p_Precipitation Snow.sample_pixel).
Proof.
  split.
  - split; [exact sample_at_pixel|]. repeat split; reflexivity.
  - apply (snow_rain_partition Snow.sample_forcing Snow.sample_state 0 Snow.sample_pixel
             [10] [5] [0] 10 5 0 0 sample_at_pixel); reflexivity.
Defined.

(** ** Seasonal coefficients *)

Lemma icemelt_angle (D : R) :
  Snow.radians ((D - Snow.icemelt_start_N) * Snow.IceDayDegrees)
  = (D - 165) * 4 / 365.25 * PI.
Proof.
  unfold Snow.radians, Snow.IceDayDegrees, Snow.SnowDayDegrees, Snow.icemelt_start_N.
  replace 365.25 with (1461 / 4) by lra. field.
Qed.

Lemma sin_scaled_PI_pos (k : R) : 0 < k < 1 -> 0 < sin (k * PI).
Proof.
  intros [Hlo Hhi]. pose proof PI_RGT_0 as Hpi. apply sin_gt_0; nra.
Qed.

(** The icemelt coefficient of either hemisphere on an integer day of the
    year. *)
Lemma icemelt_coeff_day (d : Z) :
  (1 <= d <= 366)%Z ->
  let D := IZR d in
  let coeff := sin (Snow.radians ((D - Snow.icemelt_start_N) * Snow.IceDayDegrees)) in
  let north := Rgtb D Snow.icemelt_start_N && Rltb D Snow.icemelt_end_N in
  let south := Rgtb D Snow.icemelt_start_S || Rltb D Snow.icemelt_end_S in
  (north = true -> 0 < coeff) /\ (south = true -> 0 < coeff) /\
  (north = true -> south = false) /\
  ((74 <= d <= 165)%Z \/ (257 <= d <= 347)%Z -> north = false /\ south = false).
Proof.
  intros Hd D coeff north south.
  unfold north, south, coeff, Rgtb, Rltb,
    Snow.icemelt_end_N, Snow.icemelt_start_S, Snow.icemelt_end_S.
  rewrite icemelt_angle. unfold Snow.icemelt_start_N. subst D.
  pose proof PI_RGT_0 as Hpi.
  destruct (Rgt_dec (IZR d) 165) as [H165|H165];
    destruct (Rlt_dec (IZR d) 257) as [H257|H257];
    destruct (Rgt_dec (IZR d) 347) as [H347|H347];
    destruct (Rlt_dec (IZR d) 74) as [H74|H74];
    cbn [andb orb]; try lra.
  all: repeat match goal with
         | H : IZR _ > _ |- _ => apply Rgt_lt, lt_IZR in H
         | H : IZR _ < _ |- _ => apply lt_IZR in H
         | H : ~ IZR _ > _ |- _ => apply Rnot_gt_le, le_IZR in H
         | H : ~ IZR _ < _ |- _ => apply Rnot_lt_le, le_IZR in H
         end.
  all: try (exfalso; lia).
  all: repeat split; intros; try discriminate; try reflexivity; try (exfalso; lia).
  all: first
    [ (* day of the northern season *)
      assert (H1 : (166 <= d)%Z) by lia; assert (H2 : (d <= 256)%Z) by lia;
      apply IZR_le in H1, H2; apply sin_scaled_PI_pos; lra
    | (* end of the year *)
      assert (H1 : (348 <= d)%Z) by lia; assert (H2 : (d <= 366)%Z) by lia;
      apply IZR_le in H1, H2;
      replace ((IZR d - 165) * 4 / 365.25 * PI)
        with (((IZR d - 165) * 4 / 365.25 - 2) * PI + 2 * INR 1 * PI)
        by (cbn [INR]; ring);
      rewrite sin_period; apply sin_scaled_PI_pos; lra
    | (* start of the year *)
      assert (H1 : (1 <= d)%Z) by lia; assert (H2 : (d <= 73)%Z) by lia;
      apply IZR_le in H1, H2;
      rewrite <- (sin_period _ 1);
      replace ((IZR d - 165) * 4 / 365.25 * PI + 2 * INR 1 * PI)
        with (((IZR d - 165) * 4 / 365.25 + 2) * PI)
        by (cbn [INR]; ring);
      apply sin_scaled_PI_pos; lra ].
Qed.

(** X24. On every integer day of the year the icemelt coefficient
    [SummerSeason] is non-negative in both hemispheres: the sine of period
    half a year is positive on the days 166 to 256 of the northern season and
    on the days 348 to 366 and 1 to 73 of the southern season.  The two
    seasons do not overlap, and outside them the coefficient is zero. *)
Theorem icemelt_coefficient_nonneg (f : Snow.Forcing) (d : Z) :
  Snow.CalendarDay f = IZR d -> (1 <= d <= 366)%Z ->
  Forall (Rle 0) (Snow.SummerSeason f) /\
  ((74 <= d <= 165)%Z \/ (257 <= d <= 347)%Z ->
     Forall (fun s => s = 0) (Snow.SummerSeason f)) /\
  (forall p q s, Snow.hemisphere_N f !! p = Some true ->
     Snow.hemisphere_N f !! q = Some false ->
     Snow.SummerSeason f !! p = Some s -> 0 < s ->
     Snow.SummerSeason f !! q = Some 0).
Proof.
  intros HD Hd.
  destruct (icemelt_coeff_day d Hd) as (HN & HS & Hdisj & Hout).
  unfold Snow.SummerSeason, Snow.np_where_ss. cbn zeta. rewrite HD.
  set (north := Rgtb (IZR d) Snow.icemelt_start_N && Rltb (IZR d) Snow.icemelt_end_N) in *.
  set (south := Rgtb (IZR d) Snow.icemelt_start_S || Rltb (IZR d) Snow.icemelt_end_S) in *.
  set (coeff := sin (Snow.radians ((IZR d - Snow.icemelt_start_N) * Snow.IceDayDegrees)))
    in *.
  split; [|split].
  - apply Forall_fmap, Forall_forall. intros h _. cbn.
    destruct h; [destruct north | destruct south]; try lra;
      left; first [apply HN | apply HS]; reflexivity.
  - intros Hday. destruct (Hout Hday) as [-> ->].
    apply Forall_fmap, Forall_forall. intros h _. cbn. destruct h; reflexivity.
  - intros p q s Hp Hq Hs Hpos.
    rewrite list_lookup_fmap, Hp in Hs. cbn in Hs. injection Hs as <-.
    rewrite list_lookup_fmap, Hq. cbn.
    destruct north; [|lra]. rewrite (Hdisj eq_refl). reflexivity.
Qed.

Lemma icemelt_coefficient_nonneg_witness :
  (Snow.CalendarDay Snow.sample_forcing = IZR 200 /\ (1 <= 200 <= 366)%Z) /\
  Forall (Rle 0) (Snow.SummerSeason Snow.sample_forcing) /\
  ((74 <= 200 <= 165)%Z \/ (257 <= 200 <= 347)%Z ->
     Forall (fun s => s = 0) (Snow.SummerSeason Snow.sample_forcing)) /\
  (forall p q s, Snow.hemisphere_N Snow.sample_forcing !! p = Some true ->
     Snow.hemisphere_N Snow.sample_forcing !! q = Some false ->
     Snow.SummerSeason Snow.sample_forcing !! p = Some s -> 0 < s ->
     Snow.SummerSeason Snow.sample_forcing !! q = Some 0).
Proof.
  split.
  - split; [reflexivity | lia].
  - apply (icemelt_coefficient_nonneg Snow.sample_forcing 200); [reflexivity | lia].
Defined.

(** X25. The seasonal snowmelt coefficient of a pixel stays within
    [SnowSeason] of [SnowMeltCoef], equals [SnowMeltCoef] on day 81, and is
    mirrored between the hemispheres: a northern and a southern pixel with
    the same parameters have coefficients that add up to twice
    [SnowMeltCoef]. *)
Theorem seasonal_melt_coefficient (f : Snow.Forcing) (p q : nat) (ss smc : R) :
  Snow.SnowSeason f !! p = Some ss -> Snow.SnowMeltCoef f !! p = Some smc ->
  Snow.hemisphere_N f !! p = Some true ->
  Snow.SnowSeason f !! q = Some ss -> Snow.SnowMeltCoef f !! q = Some smc ->
  Snow.hemisphere_N f !! q = Some false ->
  exists kn ks,
    Snow.SeasSnowMeltCoef f !! p = Some kn /\
    Snow.SeasSnowMeltCoef f !! q = Some ks /\
    smc - Rabs ss <= kn <= smc + Rabs ss /\
    smc - Rabs ss <= ks <= smc + Rabs ss /\
    kn + ks = 2 * smc /\
    (Snow.CalendarDay f = 81 -> kn = smc /\ ks = smc).
Proof.
  intros Hss Hsmc Hh Hss' Hsmc' Hh'.
  unfold Snow.SeasSnowMeltCoef. cbn zeta.
  set (c := sin (Snow.radians ((Snow.CalendarDay f - 81) * Snow.SnowDayDegrees))).
  exists (ss * c + smc), (ss * - c + smc).
  split; [snow_unfold; arr_eval; reflexivity|].
  split; [snow_unfold; arr_eval; reflexivity|].
  pose proof (SIN_bound (Snow.radians ((Snow.CalendarDay f - 81) * Snow.SnowDayDegrees)))
    as [Hlo Hhi]. fold c in Hlo, Hhi.
  assert (Hb : - Rabs ss <= ss * c <= Rabs ss).
  { unfold Rabs. destruct (Rcase_abs ss); split; nra. }
  split; [lra|]. split; [lra|]. split; [lra|].
  intros Hday. unfold c. rewrite Hday.
  replace (Snow.radians ((81 - 81) * Snow.SnowDayDegrees)) with 0
    by (unfold Snow.radians, Rdiv; ring).
  rewrite sin_0. split; ring.
Qed.

Lemma seasonal_melt_coefficient_witness :
  ([0.5; 0.5] !! 0%nat = Some 0.5 /\ [4; 4] !! 0%nat = Some 4 /\
   [true; false] !! 0%nat = Some true /\
   [0.5; 0.5] !! 1%nat = Some 0.5 /\ [4; 4] !! 1%nat = Some 4 /\
   [true; false] !! 1%nat = Some false) /\
  let f := {| Snow.CalendarDay := 200; Snow.DtDay := 1; Snow.Tavg := [2; 2];
              Snow.Precipitation := [6; 6]; Snow.DeltaTSnow := [3; 3];
              Snow.SnowSeason := [0.5; 0.5]; Snow.TempSnow := [1; 1];
              Snow.SnowFactor := [1; 1]; Snow.SnowMeltCoef := [4; 4];
              Snow.TempMelt := [0; 0]; Snow.hemisphere_N := [true; false] |} in
  exists kn ks,
    Snow.SeasSnowMeltCoef f !! 0%nat = Some kn /\
    Snow.SeasSnowMeltCoef f !! 1%nat = Some ks /\
    4 - Rabs 0.5 <= kn <= 4 + Rabs 0.5 /\
    4 - Rabs 0.5 <= ks <= 4 + Rabs 0.5 /\
    kn + ks = 2 * 4 /\
    (Snow.CalendarDay f = 81 -> kn = 4 /\ ks = 4).
Proof.
  split.
  - repeat split; reflexivity.
  - apply (seasonal_melt_coefficient
             {| Snow.CalendarDay := 200; Snow.DtDay := 1; Snow.Tavg := [2; 2];
                Snow.Precipitation := [6; 6]; Snow.DeltaTSnow := [3; 3];
                Snow.SnowSeason := [0.5; 0.5]; Snow.TempSnow := [1; 1];
                Snow.SnowFactor := [1; 1]; Snow.SnowMeltCoef := [4; 4];
                Snow.TempMelt := [0; 0]; Snow.hemisphere_N := [true; false] |}
             0%nat 1%nat 0.5 4); reflexivity.
Defined.

(** ** Routing sub-steps *)

Lemma py_round_near (x : R) : x - 1 / 2 <= IZR (py_round x) <= x + 1 / 2.
Proof.
  unfold py_round. cbn zeta.
  pose proof (Rplus_Int_part_frac_part x) as Hx.
  pose proof (base_fp x) as [Hf0 Hf1].
  destruct (Rlt_dec (frac_part x) (1 / 2)); [lra|].
  destruct (Rgt_dec (frac_part x) (1 / 2)); [rewrite plus_IZR; lra|].
  destruct (Z.even (Int_part x)); [lra | rewrite plus_IZR; lra].
Qed.

Lemma py_round_IZR (k : Z) : py_round (IZR k) = k.
Proof.
  assert (H : k = Int_part (IZR k) /\ 0 = frac_part (IZR k)).
  { apply Int_part_frac_part_spec; lra. }
  destruct H as [Hk Hf]. unfold py_round. cbn zeta. rewrite <- Hk, <- Hf.
  destruct (Rlt_dec 0 (1 / 2)); [reflexivity | lra].
Qed.

(** X26. The number of routing sub-steps is at least one and the sub-steps
    fill the time step exactly.  In a pre-run there is one sub-step.
    Otherwise the sub-step equals the channel time step [DtSecChannel], which
    is the [dt] of the MCT pixel update, exactly when the time step is a
    whole multiple of [DtSecChannel]; for any time step not shorter than
    [DtSecChannel] it lies between 2/3 and 2 times [DtSecChannel]. *)
Theorem routing_substeps (InitLisflood : bool) (DtSec DtSecChannel : R) :
  0 < DtSec -> 0 < DtSecChannel ->
  let N := initial_NoRoutSteps InitLisflood DtSec DtSecChannel in
  let DtRouting := initial_DtRouting InitLisflood DtSec DtSecChannel in
  (1 <= N)%Z /\
  IZR N * DtRouting = DtSec /\
  initial_InvDtRouting InitLisflood DtSec DtSecChannel * DtRouting = 1 /\
  (InitLisflood = true -> N = 1%Z /\ DtRouting = DtSec) /\
  (InitLisflood = false ->
     (DtRouting = DtSecChannel <->
      exists k : Z, (1 <= k)%Z /\ DtSec = IZR k * DtSecChannel) /\
     (DtSecChannel <= DtSec ->
      2 / 3 * DtSecChannel <= DtRouting <= 2 * DtSecChannel)).
Proof.
  intros HDt Hc N DtRouting.
  assert (HN : (1 <= N)%Z).
  { unfold N, initial_NoRoutSteps. destruct InitLisflood; lia. }
  assert (HNr : 1 <= IZR N) by (apply IZR_le in HN; exact HN).
  assert (Hprod : IZR N * DtRouting = DtSec).
  { unfold DtRouting, initial_DtRouting. fold N. field. lra. }
  assert (Hpos : 0 < DtRouting).
  { unfold DtRouting, initial_DtRouting. fold N. apply Rdiv_lt_0_compat; lra. }
  split; [exact HN|]. split; [exact Hprod|]. split.
  { unfold initial_InvDtRouting. fold DtRouting. field. lra. }
  split.
  { intros ->. unfold DtRouting, initial_DtRouting, N, initial_NoRoutSteps.
    split; [reflexivity | field]. }
  intros Hil. split.
  - split.
    + intros Heq. exists N. split; [exact HN|]. rewrite <- Heq, Hprod. reflexivity.
    + intros (k & Hk & Hmul).
      assert (HNk : N = k).
      { unfold N, initial_NoRoutSteps. rewrite Hil.
        replace (DtSec / DtSecChannel) with (IZR k) by (rewrite Hmul; field; lra).
        rewrite py_round_IZR. lia. }
      unfold DtRouting, initial_DtRouting. fold N. rewrite HNk, Hmul. field.
      apply IZR_le in Hk. lra.
  - intros Hge.
    set (r := DtSec / DtSecChannel).
    assert (Hr : 1 <= r).
    { unfold r. apply (Rmult_le_reg_r DtSecChannel); [exact Hc|].
      replace (DtSec / DtSecChannel * DtSecChannel) with DtSec by (field; lra). lra. }
    pose proof (py_round_near r) as [Hlo Hhi].
    assert (HNeq : N = Z.max 1 (py_round r)).
    { unfold N, initial_NoRoutSteps. rewrite Hil. reflexivity. }
    assert (HNb : r - 1 / 2 <= IZR N <= r + 1 / 2).
    { rewrite HNeq. destruct (Z.max_spec 1 (py_round r)) as [[Hlt ->]|[Hle ->]].
      - split; assumption.
      - apply IZR_le in Hle. lra. }
    assert (HDt' : DtSec = r * DtSecChannel) by (unfold r; field; lra).
    assert (Hrouting : DtRouting * IZR N = r * DtSecChannel) by lra.
    split; nra.
Qed.

Lemma routing_substeps_witness :
  (0 < 86400 /\ 0 < 3600) /\
  let N := initial_NoRoutSteps false 86400 3600 in
  let DtRouting := initial_DtRouting false 86400 3600 in
  (1 <= N)%Z /\
  IZR N * DtRouting = 86400 /\
  initial_InvDtRouting false 86400 3600 * DtRouting = 1 /\
  (false = true -> N = 1%Z /\ DtRouting = 86400) /\
  (false = false ->
     (DtRouting = 3600 <->
      exists k : Z, (1 <= k)%Z /\ 86400 = IZR k * 3600) /\
     (3600 <= 86400 -> 2 / 3 * 3600 <= DtRouting <= 2 * 3600)).
Proof.
  split.
  - split; lra.
  - apply (routing_substeps false 86400 3600); lra.
Defined.

(** ** Cold start of the channel storage *)

(** X27. Where the binding holds the sentinel -9999, the initial
    cross-sectional area is half the bankfull area.  On a trapezoid this is
    more than the wet area at half the bankfull depth, the reference depth of
    [ChannelAlpha], by [ChanSdXdY * ChanDepthThreshold ** 2 / 4]; any other
    value of the binding is taken as it is. *)
Theorem initial_area_half_bankfull
    (TotalCrossSectionAreaInitValue ChanBottomWidth ChanSdXdY ChanDepthThreshold : list R)
    (i : nat) (v0 bw sd d s0 n : R) :
  TotalCrossSectionAreaInitValue !! i = Some v0 ->
  ChanBottomWidth !! i = Some bw -> ChanSdXdY !! i = Some sd ->
  ChanDepthThreshold !! i = Some d ->
  0 < sd ->
  let half := qoh (0.5 * d) s0 bw (rad_from_dxdy sd) n in
  exists A,
    initial_TotalCrossSectionArea TotalCrossSectionAreaInitValue ChanBottomWidth
      ChanSdXdY ChanDepthThreshold !! i = Some A /\
    (v0 = -9999 -> A = half.1.1.1.2 + sd * d ^ 2 / 4) /\
    (v0 <> -9999 -> A = v0).
Proof.
  intros Hv0 Hbw Hsd Hd Hsdpos half.
  pose proof (rad_from_dxdy_bounds sd Hsdpos) as [_ Hhi].
  pose proof (cotan_rad_from_dxdy sd Hsdpos) as Hcot.
  eexists. split.
  { unfold initial_TotalCrossSectionArea, initial_TotalCrossSectionAreaBankFull,
      initial_ChanUpperWidth. init_unfold. arr_eval. reflexivity. }
  unfold half, qoh, Reqb. cbn [fst snd].
  destruct (Rlt_dec (rad_from_dxdy sd) (PI / 2)) as [_|Hn']; [|lra].
  rewrite Hcot.
  destruct (Req_dec_T v0 (-9999)) as [Heq|Hne]; split; intros; try contradiction;
    try reflexivity.
  replace 0.5 with (1 / 2) by lra. field.
Qed.

Lemma initial_area_half_bankfull_witness :
  ([-9999] !! 0%nat = Some (-9999) /\ [5] !! 0%nat = Some 5 /\ [2] !! 0%nat = Some 2 /\
   [3] !! 0%nat = Some 3 /\ 0 < 2) /\
  let half := qoh (0.5 * 3) 0.001 5 (rad_from_dxdy 2) 0.03 in
  exists A,
    initial_TotalCrossSectionArea [-9999] [5] [2] [3] !! 0%nat = Some A /\
    (-9999 = -9999 -> A = half.1.1.1.2 + 2 * 3 ^ 2 / 4) /\
    (-9999 <> -9999 -> A = -9999).
Proof.
  split.
  - repeat split; try reflexivity; lra.
  - apply (initial_area_half_bankfull [-9999] [5] [2] [3] 0%nat (-9999) 5 2 3 0.001 0.03);
      try reflexivity; lra.
Defined.
